(** * Khmer segmenter core: normalizer, DP segmenter, rule engine

    Shallow embedding of [normalization.js], [segmenter_browser.js] and
    [rule_engine.js].  A JavaScript string is the list of its UTF-16 code
    units ([list Z]); [text[i]], [slice], [length] and [+] are list lookup,
    [take]/[drop], [length] and [++]. *)

From Stdlib Require Import ZArith QArith Qround Lia Bool.
From stdpp Require Import base list strings gmap.
Local Open Scope Z_scope.

(** ** String helpers of the JavaScript runtime used by the sources *)

Fixpoint starts_with (pat s : list Z) : bool :=
  match pat, s with
  | [], _ => true
  | p :: pat', c :: s' => (p =? c) && starts_with pat' s'
  | _ :: _, [] => false
  end.

(** [s.includes(pat)] *)
Fixpoint includes (pat s : list Z) : bool :=
  starts_with pat s ||
  match s with
  | [] => false
  | _ :: s' => includes pat s'
  end.

(** [s.replace(pat, rep)] with a string pattern: only the first occurrence
    is replaced. *)
Fixpoint replace_first (pat rep s : list Z) : list Z :=
  if starts_with pat s then rep ++ drop (length pat) s
  else match s with
       | [] => []
       | c :: s' => c :: replace_first pat rep s'
       end.

(** [parts.join("")] *)
Definition join (parts : list (list Z)) : list Z := mjoin parts.

(** [Array.prototype.sort] with a comparator [key a - key b]: a stable sort
    by [key].  Insertion from the right keeps equal keys in input order. *)
Section StableSort.
Context {A : Type} (key : A → Z).

Fixpoint insert_sorted (x : A) (l : list A) : list A :=
  match l with
  | [] => [x]
  | y :: l' => if key x <=? key y then x :: l else y :: insert_sorted x l'
  end.

Fixpoint stable_sort (l : list A) : list A :=
  match l with
  | [] => []
  | x :: l' => insert_sorted x (stable_sort l')
  end.

Fixpoint key_sorted (l : list A) : Prop :=
  match l with
  | [] => True
  | x :: l' => Forall (λ y, key x <= key y) l' ∧ key_sorted l'
  end.
End StableSort.

(** ** normalization.js *)

Module KhmerNormalizer.

(** [this.range(start, end)] as a set: [start <= code < end]. *)
Definition in_range (start stop code : Z) : bool :=
  (start <=? code) && (code <? stop).

Definition CONSONANTS : Z → bool := in_range 0x1780 0x17A3.
Definition INDEP_VOWELS : Z → bool := in_range 0x17A3 0x17B4.
Definition DEP_VOWELS : Z → bool := in_range 0x17B6 0x17C6.
Definition SIGNS : Z → bool := in_range 0x17C6 0x17D4.
Definition REGISTERS (code : Z) : bool := (code =? 0x17C9) || (code =? 0x17CA).
Definition COENG : Z := 0x17D2.
Definition RO : Z := 0x179A.

Inductive char_type := BASE | COENG_T | REGISTER | VOWEL | SIGN | OTHER.

Definition _get_char_type (code : Z) : char_type :=
  if CONSONANTS code || INDEP_VOWELS code then BASE
  else if code =? COENG then COENG_T
  else if REGISTERS code then REGISTER
  else if DEP_VOWELS code then VOWEL
  else if SIGNS code || (code =? 0x17DD) then SIGN
  else OTHER.

Definition is_base (code : Z) : bool :=
  match _get_char_type code with BASE => true | _ => false end.

(** [getPriority] inside [_sort_cluster]; the source's priorities
    1, 1.5, 2, 2.5, 3, 4, 5 are doubled to stay in [Z] (the comparator
    only uses the sign of their difference). *)
Definition getPriority (item : list Z) : Z :=
  match item with
  | [] => 10
  | code :: tl =>
      if code =? 0x17D2 then
        match tl with
        | [sub_con] => if sub_con =? RO then 4 else 2
        | _ => 3
        end
      else if REGISTERS code then 5
      else if DEP_VOWELS code then 6
      else if SIGNS code || (code =? 0x17DD) then 8
      else 10
  end.

Definition _sort_cluster (parts : list (list Z)) : list Z :=
  match parts with
  | [] => []
  | base :: modifiers => base ++ join (stable_sort getPriority modifiers)
  end.

(** The flush performed when a cluster is open. *)
Definition flush (current_cluster result : list (list Z)) : list (list Z) :=
  match current_cluster with
  | [] => result
  | _ :: _ => result ++ [_sort_cluster current_cluster]
  end.

(** The [while (i < n)] loop of [normalize]; [text] is the suffix
    [text[i..n)], so [i + 1 < n] reads "the suffix has a second
    character". *)
Fixpoint cluster_loop (text : list Z) (current_cluster result : list (list Z))
  : list (list Z) :=
  match text with
  | [] => flush current_cluster result
  | char :: rest =>
      match _get_char_type char with
      | BASE => cluster_loop rest [[char]] (flush current_cluster result)
      | COENG_T =>
          match rest with
          | next_char :: rest' =>
              if is_base next_char
              then cluster_loop rest' (current_cluster ++ [[char; next_char]]) result
              else cluster_loop rest (current_cluster ++ [[char]]) result
          | [] => cluster_loop rest (current_cluster ++ [[char]]) result
          end
      | VOWEL | SIGN | REGISTER =>
          match current_cluster with
          | _ :: _ => cluster_loop rest (current_cluster ++ [[char]]) result
          | [] => cluster_loop rest [] (result ++ [[char]])
          end
      | OTHER => cluster_loop rest [] (flush current_cluster result ++ [[char]])
      end
  end.

Definition is_zero_width (code : Z) : bool :=
  (code =? 0x200B) || (code =? 0x200C) || (code =? 0x200D).

(** [text.replace(/[\u200b\u200c\u200d]/g, '')] *)
Definition strip_zero_width (text : list Z) : list Z :=
  filter (λ c, is_zero_width c = false) text.

(** Step 1 of [normalize]: two [String.replace] calls with string
    patterns. *)
Definition fix_composites (text : list Z) : list Z :=
  replace_first [0x17C1; 0x17B6] [0x17C4]
    (replace_first [0x17C1; 0x17B8] [0x17BE] text).

Definition normalize (text : list Z) : list Z :=
  match text with
  | [] => []
  | _ :: _ => join (cluster_loop (fix_composites (strip_zero_width text)) [] [])
  end.

End KhmerNormalizer.


(** ** Numbers and runtime tables the sources rely on

    Costs are JavaScript numbers.  The arithmetic the segmenter uses on them
    is an interface: [cadd] is [+], [clt] is [<], [cinf] is [Infinity],
    [is_inf] is [=== Infinity], [clit] a numeric literal and [neg_log10] is
    [-Math.log10]. *)
Class CostArith := {
  cost : Type;
  cadd : cost → cost → cost;
  clt : cost → cost → bool;
  cinf : cost;
  is_inf : cost → bool;
  clit : Q → cost;
  neg_log10 : Q → cost;
}.

(** The Unicode property tables behind [/\p{P}|\p{S}|\p{Z}/u] and [/\s/],
    on one code unit. *)
Class UnicodeTables := {
  is_punct_symbol_space : Z → bool;
  is_whitespace : Z → bool;
}.

(** [new RegExp(pattern)]: [None] when the constructor throws, otherwise the
    compiled object's [test]. *)
Class RegExpEngine := {
  RegExp : list Z → option (list Z → bool);
}.

(** Code units of an ASCII literal of the sources. *)
Definition units (s : string) : list Z :=
  (λ a, Z.of_nat (Ascii.nat_of_ascii a)) <$> String.list_ascii_of_string s.

(** ** rule_engine.js *)

Module RuleBasedEngine.

(** A JSON value as far as [check.value] is used: compared with [!==]
    against a boolean, and tested for truthiness. *)
Inductive json_value := JUndefined | JBool (b : bool) | JOther (truthy : bool).

Definition truthy (v : json_value) : bool :=
  match v with JUndefined => false | JBool b => b | JOther t => t end.

(** [b !== expected] *)
Definition strict_ne (b : bool) (expected : json_value) : bool :=
  match expected with JBool e => negb (eqb b e) | _ => true end.

(** [t_value] is [trigger.value] when it is a string, [None] when it is
    absent or not a string. *)
Record trigger := {
  t_type : string;
  t_value : option (list Z);
  regexObj : option (list Z → bool);
}.

(** [c_exists] is the truthiness of [check.exists]; an absent
    [check.check] is the empty string (falsy, equal to no check name). *)
Record check := {
  c_target : string;
  c_exists : bool;
  c_check : string;
  c_value : json_value;
}.

Record rule := {
  r_name : string;
  r_priority : Z;
  r_trigger : trigger;
  r_checks : list check;
  r_action : string;
}.

Definition with_regex (r : rule) (re : list Z → bool) : rule :=
  {| r_name := r_name r; r_priority := r_priority r;
     r_trigger := {| t_type := t_type (r_trigger r);
                     t_value := t_value (r_trigger r);
                     regexObj := Some re |};
     r_checks := r_checks r; r_action := r_action r |}.

(** [if (!pattern.startsWith('^')) pattern = '^' + pattern] *)
Definition anchored (pattern : list Z) : list Z :=
  if starts_with (units "^") pattern then pattern else units "^" ++ pattern.

(** An entry of the rules array as [_compileRules] reads it: an object
    with a trigger object, or an entry from which [rule.trigger.type]
    cannot be read (it has no trigger, or is [null]); there the read
    raises a TypeError. *)
Inductive rule_entry := WithTrigger (r : rule) | NoTrigger (priority : Z).

Definition entry_priority (e : rule_entry) : Z :=
  match e with WithTrigger r => r_priority r | NoTrigger priority => priority end.

Section Compile.
Context `{RegExpEngine}.

(** The inner [try]: [new RegExp(pattern)] for the anchored pattern;
    [None] when [pattern.startsWith] or the constructor raises, which the
    inner [catch] turns into [continue]. *)
Definition compile_pattern (t : trigger) : option (list Z → bool) :=
  pattern ← t_value t; RegExp (anchored pattern).

(** The [for (const rule of rules)] loop of [_compileRules]; [None] when
    an exception leaves the loop. *)
Fixpoint compile_loop (rules : list rule_entry) (compiledRules : list rule)
  : option (list rule) :=
  match rules with
  | [] => Some compiledRules
  | NoTrigger _ :: _ => None
  | WithTrigger rule :: rest =>
      if String.eqb (t_type (r_trigger rule)) "regex" then
        match compile_pattern (r_trigger rule) with
        | Some re => compile_loop rest (compiledRules ++ [with_regex rule re])
        | None => compile_loop rest compiledRules
        end
      else compile_loop rest (compiledRules ++ [rule])
  end.

(** [rules.sort((a, b) => (b.priority || 0) - (a.priority || 0))] is a
    stable sort by descending priority.  An exception raised in the loop
    (or by the comparator on a [null] entry) is caught by the outer
    [catch], which returns [[]]. *)
Definition _compileRules (rules : list rule_entry) : list rule :=
  default [] (compile_loop (stable_sort (λ e, - entry_priority e) rules) []).
End Compile.

Section Apply.
Context (checkInvalidSingle isSeparator : list Z → bool) (rules : list rule).

Definition trigger_match (t : trigger) (seg : list Z) : bool :=
  if String.eqb (t_type t) "exact_match" then bool_decide (Some seg = t_value t)
  else if String.eqb (t_type t) "regex" then
    match regexObj t with Some re => re seg | None => false end
  else if String.eqb (t_type t) "complexity_check" then
    bool_decide (t_value t = Some (units "is_invalid_single")) && checkInvalidSingle seg
  else false.

Definition resolve_target (target : string) (segments : list (list Z)) (i : nat)
  : option (list Z) :=
  if String.eqb target "prev" then
    if (0 <? i)%nat then segments !! (i - 1)%nat else None
  else if String.eqb target "next" then segments !! (i + 1)%nat
  else if String.eqb target "context" || String.eqb target "current" then segments !! i
  else None.

Definition is_isolated (segments : list (list Z)) (i : nat) : bool :=
  let prevSep := if (0 <? i)%nat
                 then from_option isSeparator true (segments !! (i - 1)%nat)
                 else true in
  let nextSep := from_option isSeparator true (segments !! (i + 1)%nat) in
  prevSep && nextSep.

(** The [for (const check of checks)] loop: the value of
    [conditionsMet] when it ends. *)
Fixpoint conditions_met (checks : list check) (segments : list (list Z)) (i : nat) : bool :=
  match checks with
  | [] => true
  | check :: rest =>
      match resolve_target (c_target check) segments i with
      | None =>
          if c_exists check then false
          else if negb (String.eqb (c_check check) "") || truthy (c_value check) then false
          else conditions_met rest segments i
      | Some targetSeg =>
          if String.eqb (c_check check) "is_separator" then
            if strict_ne (isSeparator targetSeg) (c_value check) then false
            else conditions_met rest segments i
          else if String.eqb (c_check check) "is_isolated" then
            if strict_ne (is_isolated segments i) (c_value check) then false
            else conditions_met rest segments i
          else conditions_met rest segments i
      end
  end.

(** The [for (const rule of this.rules)] loop at position [i]:
    [Some (segments', i')] when a rule was applied ([ruleApplied]),
    [None] when the loop ran through. *)
Fixpoint rule_loop (rs : list rule) (segments : list (list Z)) (i : nat) (seg : list Z)
  : option (list (list Z) * nat) :=
  match rs with
  | [] => None
  | rule :: rest =>
      if negb (trigger_match (r_trigger rule) seg) then rule_loop rest segments i seg
      else if negb (conditions_met (r_checks rule) segments i)
      then rule_loop rest segments i seg
      else if String.eqb (r_action rule) "merge_next" then
        match segments !! (i + 1)%nat with
        | Some next => Some (delete (i + 1)%nat (<[i := seg ++ next]> segments), i)
        | None => rule_loop rest segments i seg
        end
      else if String.eqb (r_action rule) "merge_prev" then
        match (if (0 <? i)%nat then segments !! (i - 1)%nat else None) with
        | Some prev =>
            Some (delete i (<[(i - 1)%nat := prev ++ seg]> segments), (i - 1)%nat)
        | None => rule_loop rest segments i seg
        end
      else if String.eqb (r_action rule) "keep" then Some (segments, (i + 1)%nat)
      else rule_loop rest segments i seg
  end.

(** One iteration of [while (i < segments.length)]; [None] when the
    loop condition is false. *)
Definition apply_step (st : list (list Z) * nat) : option (list (list Z) * nat) :=
  let '(segments, i) := st in
  seg ← segments !! i;
  Some (default (segments, (i + 1)%nat) (rule_loop rules segments i seg)).

(** The [while] loop run for at most [fuel] iterations: [None] when it
    is still running after that. *)
Fixpoint apply_loop (fuel : nat) (st : list (list Z) * nat) : option (list (list Z)) :=
  match apply_step st with
  | None => Some st.1
  | Some st' =>
      match fuel with
      | O => None
      | S fuel' => apply_loop fuel' st'
      end
  end.

Definition applyRules (fuel : nat) (segments : list (list Z)) : option (list (list Z)) :=
  apply_loop fuel (segments, 0%nat).
End Apply.

End RuleBasedEngine.

(** ** segmenter_browser.js *)

Module KhmerSegmenter.
Import RuleBasedEngine.

(** [text.slice(i, j)] for [0 <= i <= j]. *)
Definition slice (text : list Z) (i j : nat) : list Z :=
  take (j - i)%nat (drop i text).

Definition _isValidSingleBaseChar (code : Z) : bool :=
  ((0x1780 <=? code) && (code <=? 0x17A2)) || ((0x17A3 <=? code) && (code <=? 0x17B3)).

Definition _isKhmerChar (code : Z) : bool :=
  ((0x1780 <=? code) && (code <=? 0x17FF)) || ((0x19E0 <=? code) && (code <=? 0x19FF)).

(** [_isDigit] on a one-character string, which is what every call site
    passes ([text[i]], [seg[0]], [word[0]], a [seg] of length 1). *)
Definition _isDigit (code : Z) : bool :=
  ((0x30 <=? code) && (code <=? 0x39)) || ((0x17E0 <=? code) && (code <=? 0x17E9)).

(** The test [code >= 0x1780 && code <= 0x17B3] shared by the cluster and
    acronym scanners. *)
Definition is_cluster_base (code : Z) : bool := (0x1780 <=? code) && (code <=? 0x17B3).

(** The [while (i < n)] loop of [_getKhmerClusterLength] on the suffix
    [text[i..n)]: the number of characters it consumes. *)
Fixpoint cluster_tail (s : list Z) : nat :=
  match s with
  | [] => O
  | nextCode :: rest =>
      if nextCode =? 0x17D2 then
        match rest with
        | subCode :: rest' =>
            if (0x1780 <=? subCode) && (subCode <=? 0x17A2)
            then S (S (cluster_tail rest')) else O
        | [] => O
        end
      else if ((0x17B6 <=? nextCode) && (nextCode <=? 0x17D1))
              || (nextCode =? 0x17D3) || (nextCode =? 0x17DD)
      then S (cluster_tail rest) else O
  end.

Definition _getKhmerClusterLength (text : list Z) (startIndex : nat) : nat :=
  match drop startIndex text with
  | [] => O
  | code :: rest => if negb (is_cluster_base code) then 1%nat else S (cluster_tail rest)
  end.

(** The [while (i < n)] loop of [_getNumberLength] on the suffix. *)
Fixpoint number_tail (s : list Z) : nat :=
  match s with
  | [] => O
  | char :: rest =>
      if _isDigit char then S (number_tail rest)
      else if (char =? 0x2C) || (char =? 0x2E) then
        match rest with
        | d :: rest' => if _isDigit d then S (S (number_tail rest')) else O
        | [] => O
        end
      else O
  end.

(** [None]: [text[i]] is [undefined] and [_isDigit] raises. *)
Definition _getNumberLength (text : list Z) (startIndex : nat) : option nat :=
  match drop startIndex text with
  | [] => None
  | code :: rest => Some (if negb (_isDigit code) then O else S (number_tail rest))%nat
  end.

Definition _isAcronymStart (text : list Z) (index : nat) : bool :=
  if (length text <=? index + 1)%nat then false
  else match text !! index with
       | None => false
       | Some code =>
           if negb (is_cluster_base code) then false
           else
             let clusterLen := _getKhmerClusterLength text index in
             if (clusterLen =? 0)%nat then false
             else bool_decide (text !! (index + clusterLen)%nat = Some 0x2E)
       end.

(** The loop of [_getAcronymLength], returning the final [i]; every
    iteration that continues moves [i] forward, so [fuel] bounds the
    number of iterations. *)
Fixpoint acronym_loop (fuel : nat) (text : list Z) (i : nat) : nat :=
  match fuel with
  | O => i
  | S fuel' =>
      match text !! i with
      | None => i
      | Some code =>
          if negb (is_cluster_base code) then i
          else
            let clusterLen := _getKhmerClusterLength text i in
            if (0 <? clusterLen)%nat then
              let dotIndex := (i + clusterLen)%nat in
              if bool_decide (text !! dotIndex = Some 0x2E)
              then acronym_loop fuel' text (S dotIndex)
              else i
            else i
      end
  end.

Definition _getAcronymLength (text : list Z) (startIndex : nat) : nat :=
  (acronym_loop (length text) text startIndex - startIndex)%nat.

(** An insertion-ordered [Set] of strings. *)
Definition set_add (x : list Z) (s : list (list Z)) : list (list Z) :=
  if bool_decide (x ∈ s) then s else s ++ [x].

(** [w.replace(new RegExp(ab, 'g'), rep)] for a two-character literal. *)
Fixpoint replace_all2 (a b : Z) (rep s : list Z) : list Z :=
  match s with
  | [] => []
  | x :: tl =>
      match tl with
      | y :: rest =>
          if (x =? a) && (y =? b) then rep ++ replace_all2 a b rep rest
          else x :: replace_all2 a b rep tl
      | [] => [x]
      end
  end.

(** A match of [(c1 c2)(c3 c4)] at the head of a string, for the two
    patterns [p1] (coeng Ro, then another coeng) and [p2] (the converse). *)
Definition p1_at (a b c d : Z) : bool :=
  (a =? 0x17D2) && (b =? 0x179A) && (c =? 0x17D2) && negb (d =? 0x179A).
Definition p2_at (a b c d : Z) : bool :=
  (a =? 0x17D2) && negb (b =? 0x179A) && (c =? 0x17D2) && (d =? 0x179A).

(** [p.test(w)] and [w.replace(p, '$2$1')] for such a pattern. *)
Fixpoint regex_test (at_ : Z → Z → Z → Z → bool) (s : list Z) : bool :=
  match s with
  | [] => false
  | a :: tl =>
      match tl with
      | b :: c :: d :: _ => at_ a b c d || regex_test at_ tl
      | _ => false
      end
  end.

Fixpoint regex_swap (at_ : Z → Z → Z → Z → bool) (s : list Z) : list Z :=
  match s with
  | [] => []
  | a :: tl =>
      match tl with
      | b :: c :: d :: rest =>
          if at_ a b c d then c :: d :: a :: b :: regex_swap at_ rest
          else a :: regex_swap at_ tl
      | _ => a :: regex_swap at_ tl
      end
  end.

Definition _generateVariants (word : list Z) : list (list Z) :=
  let coeng_ta := [0x17D2; 0x178F] in
  let coeng_da := [0x17D2; 0x178A] in
  let variants := [] in
  let variants := if includes coeng_ta word
                  then set_add (replace_all2 0x17D2 0x178F coeng_da word) variants
                  else variants in
  let variants := if includes coeng_da word
                  then set_add (replace_all2 0x17D2 0x178A coeng_ta word) variants
                  else variants in
  let baseSet := foldl (λ s v, set_add v s) [word] variants in
  foldl (λ finalVariants w,
           let finalVariants := if regex_test p1_at w
                                then set_add (regex_swap p1_at w) finalVariants
                                else finalVariants in
           if regex_test p2_at w
           then set_add (regex_swap p2_at w) finalVariants
           else finalVariants)
        variants baseSet.

(** Plain objects used as maps ([wordCosts], [effectiveCounts]): the own
    properties are a [gmap]; the properties below are inherited from
    [Object.prototype] (the standard ones, with the legacy accessors that
    browsers define). *)
Definition object_prototype_keys : list (list Z) :=
  units <$> ["constructor"; "hasOwnProperty"; "isPrototypeOf"; "propertyIsEnumerable";
             "toLocaleString"; "toString"; "valueOf"; "__proto__";
             "__defineGetter__"; "__defineSetter__";
             "__lookupGetter__"; "__lookupSetter__"]%string.

Definition inherited (key : list Z) : bool :=
  bool_decide (key ∈ object_prototype_keys).

(** [key in obj] follows the prototype chain. *)
Definition obj_has {V : Type} (key : list Z) (obj : gmap (list Z) V) : bool :=
  bool_decide (is_Some (obj !! key)) || inherited key.

(** [obj[key] = v] for a number [v], on an object built from [{}] by
    such assignments: the key [__proto__] reaches the setter of
    [Object.prototype], which ignores a number; any other key becomes an
    own property. *)
Definition obj_set {V : Type} (key : list Z) (v : V) (obj : gmap (list Z) V)
  : gmap (list Z) V :=
  if bool_decide (key = units "__proto__") then obj else <[key := v]> obj.

(** What [obj[key]] yields where a number is expected: a number, or the
    function or object inherited from [Object.prototype]. *)
Inductive property (A : Type) := Number (c : A) | Inherited.
Arguments Number {A} c.
Arguments Inherited {A}.

Section Segmenter.
Context `{CostArith, UnicodeTables}.

(** The fields of a [KhmerSegmenter] instance; [rules] is
    [ruleEngine.rules]. *)
Record t := {
  words : gset (list Z);
  maxWordLength : nat;
  wordCosts : gmap (list Z) cost;
  defaultCost : cost;
  unknownCost : cost;
  rules : list rule;
}.

Definition _isSeparator (char : list Z) : bool :=
  match char with
  | [code] =>
      ((0x17D4 <=? code) && (code <=? 0x17DA)) || (code =? 0x17DB)
      || is_punct_symbol_space code || is_whitespace code
  | _ => false
  end.

(** The loop over [Object.entries(data)] in [_loadFrequencies]. *)
Fixpoint freq_loop (entries : list (list Z * Z))
    (effectiveCounts : gmap (list Z) Z) (totalTokens : Z) : gmap (list Z) Z * Z :=
  match entries with
  | [] => (effectiveCounts, totalTokens)
  | (word, count) :: rest =>
      let word := KhmerNormalizer.strip_zero_width word in
      let eff := Z.max count 5 in
      let effectiveCounts := obj_set word eff effectiveCounts in
      let effectiveCounts :=
        foldl (λ ec v, if obj_has v ec then ec else obj_set v eff ec)
              effectiveCounts (_generateVariants word) in
      freq_loop rest effectiveCounts (totalTokens + eff)
  end.

(** [count / totalTokens] *)
Definition prob (count totalTokens : Z) : Q :=
  (inject_Z count / inject_Z totalTokens)%Q.

Definition _loadFrequencies (data : option (list (list Z * Z))) (sg : t) : t :=
  match data with
  | None => sg
  | Some entries =>
      let '(effectiveCounts, totalTokens) := freq_loop entries ∅ 0 in
      if 0 <? totalTokens then
        let defaultCost := neg_log10 (prob 5 totalTokens) in
        {| words := words sg;
           maxWordLength := maxWordLength sg;
           wordCosts :=
             omap (λ count, if Qlt_le_dec 0 (prob count totalTokens)
                            then Some (neg_log10 (prob count totalTokens))
                            else None) effectiveCounts
             ∪ wordCosts sg;
           defaultCost := defaultCost;
           unknownCost := cadd defaultCost (clit 5);
           rules := rules sg |}
      else sg
  end.

Context (sg : t).

Definition _isInvalidSingle (seg : list Z) : bool :=
  match seg with
  | [code] =>
      _isKhmerChar code && negb (_isValidSingleBaseChar code) && negb (_isDigit code)
      && negb (_isSeparator seg) && negb (bool_decide (seg ∈ words sg))
  | _ => false
  end.

(** [if (word in this.wordCosts) return this.wordCosts[word]]: for a
    name of [Object.prototype] that is no own key the value returned is
    not a number. *)
Definition getWordCost (word : list Z) : property cost :=
  if obj_has word (wordCosts sg) then
    match wordCosts sg !! word with
    | Some c => Number c
    | None => Inherited
    end
  else if bool_decide (word ∈ words sg) then Number (defaultCost sg)
  else Number (unknownCost sg).

(** [if (f(dp[i][0]) < dp[nextIdx][0]) dp[nextIdx] = [f(dp[i][0]), i]];
    [None] when a cell read is out of range ([undefined[0]] raises). *)
Definition relax (dp : list (cost * Z)) (i nextIdx : nat) (f : cost → cost)
  : option (list (cost * Z)) :=
  ci ← dp !! i;
  old ← dp !! nextIdx;
  let newCost := f ci.1 in
  Some (if clt newCost old.1 then <[nextIdx := (newCost, Z.of_nat i)]> dp else dp).

(** [if (nextIdx <= n && ...)]: the cell is read only within bounds. *)
Definition relax_guarded (n : nat) (dp : list (cost * Z)) (i nextIdx : nat)
    (f : cost → cost) : option (list (cost * Z)) :=
  if (nextIdx <=? n)%nat then relax dp i nextIdx f else Some dp.

(** The dictionary loop [for (let j = i + 1; j <= endLimit; j++)].  When
    [wordCost] is not a number, [newCost = dp[i][0] + wordCost] is a
    string that does not denote a number and [newCost < dp[j][0]] is
    false: both cells are read and nothing is written. *)
Fixpoint dict_loop (text : list Z) (i : nat) (js : list nat) (dp : list (cost * Z))
  : option (list (cost * Z)) :=
  match js with
  | [] => Some dp
  | j :: rest =>
      let word := slice text i j in
      if bool_decide (word ∈ words sg) then
        match getWordCost word with
        | Number wordCost =>
            dp ← relax dp i j (λ c, cadd c wordCost);
            dict_loop text i rest dp
        | Inherited =>
            _ ← dp !! i; _ ← dp !! j;
            dict_loop text i rest dp
        end
      else dict_loop text i rest dp
  end.

Definition force_repair (text : list Z) (i : nat) (curCode : Z) : bool :=
  ((0 <? i)%nat && bool_decide (text !! (i - 1)%nat = Some 0x17D2))
  || ((0x17B6 <=? curCode) && (curCode <=? 0x17C5)).

(** The body of [for (let i = 0; i < n; i++)] in [segment]. *)
Definition segment_step (text : list Z) (i : nat) (dp : list (cost * Z))
  : option (list (cost * Z)) :=
  let n := length text in
  ci ← dp !! i;
  if is_inf ci.1 then Some dp
  else
    curCode ← text !! i;
    if force_repair text i curCode then
      relax_guarded n dp i (i + 1)%nat (λ c, cadd (cadd c (unknownCost sg)) (clit 50))
    else
      dp ← (if _isDigit curCode then
              numLen ← _getNumberLength text i;
              relax dp i (i + numLen)%nat (λ c, cadd c (clit 1))
            else if _isSeparator [curCode] then
              relax dp i (i + 1)%nat (λ c, cadd c (clit 0.1))
            else Some dp);
      dp ← (if _isAcronymStart text i then
              relax dp i (i + _getAcronymLength text i)%nat (λ c, cadd c (defaultCost sg))
            else Some dp);
      let endLimit := (n `min` (i + maxWordLength sg))%nat in
      dp ← dict_loop text i (seq (i + 1) (endLimit - i)) dp;
      if _isKhmerChar curCode then
        let clusterLen := _getKhmerClusterLength text i in
        let stepCost :=
          if (clusterLen =? 1)%nat && negb (_isValidSingleBaseChar curCode)
          then cadd (unknownCost sg) (clit 10) else unknownCost sg in
        relax_guarded n dp i (i + clusterLen)%nat (λ c, cadd c stepCost)
      else
        relax_guarded n dp i (i + 1)%nat (λ c, cadd c (unknownCost sg)).

Fixpoint dp_loop (text : list Z) (indices : list nat) (dp : list (cost * Z))
  : option (list (cost * Z)) :=
  match indices with
  | [] => Some dp
  | i :: rest => dp ← segment_step text i dp; dp_loop text rest dp
  end.

Definition dp_init (n : nat) : list (cost * Z) :=
  <[0%nat := (clit 0, -1)]> (replicate (n + 1) (cinf, -1)).

Definition dp_table (text : list Z) : option (list (cost * Z)) :=
  dp_loop text (seq 0 (length text)) (dp_init (length text)).

(** [while (curr > 0)] run for at most [fuel] iterations. *)
Fixpoint backtrack (fuel : nat) (text : list Z) (dp : list (cost * Z)) (curr : nat)
    (segments : list (list Z)) : option (list (list Z)) :=
  match curr with
  | O => Some segments
  | S _ =>
      match fuel with
      | O => None
      | S fuel' =>
          cell ← dp !! curr;
          let prev := cell.2 in
          if prev =? -1
          then backtrack fuel' text dp (curr - 1)%nat
                 (segments ++ [slice text (curr - 1) curr])
          else backtrack fuel' text dp (Z.to_nat prev)
                 (segments ++ [slice text (Z.to_nat prev) curr])
      end
  end.

(** The unknown grouper, [for (const seg of pass2Segments)]; [None] when
    [seg[0]] is [undefined], on which [_isDigit] and [_isKhmerChar]
    raise. *)
Definition is_known (seg : list Z) (c0 : Z) : bool :=
  _isDigit c0
  || bool_decide (seg ∈ words sg)
  || ((length seg =? 1)%nat && _isValidSingleBaseChar c0)
  || _isSeparator seg
  || (includes (units ".") seg && (2 <=? length seg)%nat).

Definition flush_unknown (finalSegments unknownBuffer : list (list Z)) : list (list Z) :=
  match unknownBuffer with
  | [] => finalSegments
  | _ :: _ => finalSegments ++ [join unknownBuffer]
  end.

Fixpoint group_loop (segs finalSegments unknownBuffer : list (list Z))
  : option (list (list Z)) :=
  match segs with
  | [] => Some (flush_unknown finalSegments unknownBuffer)
  | seg :: rest =>
      currChar ← head seg;
      if is_known seg currChar then
        group_loop rest (flush_unknown finalSegments unknownBuffer ++ [seg]) []
      else
        match last unknownBuffer with
        | None => group_loop rest finalSegments [seg]
        | Some lastSeg =>
            lastChar ← head lastSeg;
            if negb (eqb (_isKhmerChar lastChar) (_isKhmerChar currChar))
            then group_loop rest (finalSegments ++ [join unknownBuffer]) [seg]
            else group_loop rest finalSegments (unknownBuffer ++ [seg])
        end
  end.

(** [segment(text, disablePostProcessing)]; [fuel] bounds the iterations
    of the backtrack loop and of the rule engine's loop.  [None] stands
    for a raised exception or a loop still running. *)
Definition segment (fuel : nat) (text : list Z) (disablePostProcessing : bool)
  : option (list (list Z)) :=
  let text := KhmerNormalizer.normalize text in
  let n := length text in
  if (n =? 0)%nat then Some []
  else
    dp ← dp_table text;
    segments ← backtrack fuel text dp n [];
    let rawSegments := reverse segments in
    if disablePostProcessing then Some rawSegments
    else
      pass2Segments ← applyRules _isInvalidSingle _isSeparator (rules sg) fuel rawSegments;
      group_loop pass2Segments [] [].

Definition isUnknown (word : list Z) : bool :=
  match word with
  | [] => false
  | c0 :: _ =>
      if bool_decide (word ∈ words sg) then false
      else if _isDigit c0 then false
      else if _isSeparator word then false
      else if (length word =? 1)%nat && _isValidSingleBaseChar c0 then false
      else if includes (units ".") word && (2 <=? length word)%nat then false
      else true
  end.
End Segmenter.

(** [new KhmerSegmenter(dictionaryContent, frequencyData, rulesData)] for
    an absent dictionary: [_loadDictionary] returns at once. *)
Definition without_dictionary `{CostArith, UnicodeTables, RegExpEngine}
    (frequencyData : option (list (list Z * Z))) (rulesData : list rule_entry) : t :=
  _loadFrequencies frequencyData
    {| words := ∅; maxWordLength := 0; wordCosts := ∅;
       defaultCost := clit 10; unknownCost := clit 20;
       rules := _compileRules rulesData |}.

End KhmerSegmenter.

(** ** An exact instance of the cost interface, for running the model

    Rationals with a top element: addition and comparison without rounding.
    [neg_log10] is not rational-valued; the instance takes the integer part
    of the decimal logarithm of [1 / q], which is enough to run the cost
    table on examples. *)
Module IdealCost.

Inductive xcost := Fin (q : Q) | Inf.

Definition xadd (a b : xcost) : xcost :=
  match a, b with
  | Fin x, Fin y => Fin (x + y)
  | _, _ => Inf
  end.

Definition xlt (a b : xcost) : bool :=
  match a, b with
  | Fin x, Fin y => negb (Qle_bool y x)
  | Fin _, Inf => true
  | Inf, _ => false
  end.

Definition x_is_inf (a : xcost) : bool :=
  match a with Inf => true | Fin _ => false end.

Definition x_neg_log10 (q : Q) : xcost :=
  if Qle_bool q 0 then Inf
  else Fin (inject_Z (Z.log2 (Qfloor (/ q)) * 3 / 10)).

#[export] Instance arith : CostArith :=
  {| cost := xcost; cadd := xadd; clt := xlt; cinf := Inf;
     is_inf := x_is_inf; clit := Fin; neg_log10 := x_neg_log10 |}.

(** The punctuation, symbol, separator and white-space code points of
    the ASCII range; every other code unit is taken as a letter. *)
#[export] Instance ascii_tables : UnicodeTables :=
  {| is_punct_symbol_space code :=
       ((0x20 <=? code) && (code <=? 0x2F)) || ((0x3A <=? code) && (code <=? 0x40))
       || ((0x5B <=? code) && (code <=? 0x60)) || ((0x7B <=? code) && (code <=? 0x7E));
     is_whitespace code :=
       ((0x09 <=? code) && (code <=? 0x0D)) || (code =? 0x20) |}.

(** A regular-expression engine for patterns without metacharacters
    after the anchor: [^lit] tests for the prefix [lit]. *)
#[export] Instance literal_regex : RegExpEngine :=
  {| RegExp pattern := Some (λ s, starts_with (drop 1 pattern) s) |}.

End IdealCost.

(** ** Predicates used to state the properties *)

(** A coeng (U+17D2) that the cluster pass would leave without a partner:
    one that is not immediately followed by a [BASE] character. *)
Fixpoint stray_coeng (text : list Z) : bool :=
  match text with
  | [] => false
  | char :: rest =>
      if char =? KhmerNormalizer.COENG then
        match rest with
        | next_char :: rest' =>
            if KhmerNormalizer.is_base next_char then stray_coeng rest' else true
        | [] => true
        end
      else stray_coeng rest
  end.

(** The split vowels that the composite step rewrites. *)
Definition split_vowel_free (text : list Z) : bool :=
  negb (includes [0x17C1; 0x17B8] text) && negb (includes [0x17C1; 0x17B6] text).

Definition zero_width_free (text : list Z) : bool :=
  forallb (λ c, negb (KhmerNormalizer.is_zero_width c)) text.

(** The units the cluster pass collects when no coeng is stray: a modifier
    unit is a subscript (coeng and base) or one register, vowel or sign; a
    cluster starts with a base or, when none is open, with a subscript. *)
Definition mod_unit (u : list Z) : bool :=
  match u with
  | [c] =>
      match KhmerNormalizer._get_char_type c with
      | KhmerNormalizer.VOWEL | KhmerNormalizer.SIGN | KhmerNormalizer.REGISTER => true
      | _ => false
      end
  | [c; d] => (c =? KhmerNormalizer.COENG) && KhmerNormalizer.is_base d
  | _ => false
  end.

Definition head_unit (u : list Z) : bool :=
  match u with
  | [c] => KhmerNormalizer.is_base c
  | [c; d] => (c =? KhmerNormalizer.COENG) && KhmerNormalizer.is_base d
  | _ => false
  end.

Definition wf_cluster (cur : list (list Z)) : Prop :=
  match cur with
  | [] => True
  | h :: ms => head_unit h = true ∧ Forall (λ u, mod_unit u = true) ms
  end.

(** The cluster after its modifiers are sorted. *)
Definition sorted_cluster (cur : list (list Z)) : list (list Z) :=
  match cur with
  | [] => []
  | h :: ms => h :: stable_sort KhmerNormalizer.getPriority ms
  end.

(** Characters on which the cluster pass closes the open cluster. *)
Definition flushes (s : list Z) : Prop :=
  match s with
  | [] => True
  | c :: _ => KhmerNormalizer._get_char_type c = KhmerNormalizer.BASE
              ∨ KhmerNormalizer._get_char_type c = KhmerNormalizer.OTHER
  end.

(** An entry of the rules array whose trigger can be read. *)
Definition has_trigger (e : RuleBasedEngine.rule_entry) : bool :=
  match e with RuleBasedEngine.WithTrigger _ => true | RuleBasedEngine.NoTrigger _ => false end.

(** An entry without a trigger, used as a concrete input. *)
Definition entry_without_trigger : RuleBasedEngine.rule_entry :=
  RuleBasedEngine.NoTrigger 0.

(** The trigger types the rule engine interprets. *)
Definition known_trigger_type (ty : string) : bool :=
  String.eqb ty "exact_match" || String.eqb ty "regex" || String.eqb ty "complexity_check".

(** The measure that decreases along the rule engine's loop. *)
Definition apply_measure (st : list (list Z) * nat) : nat :=
  (2 * length st.1 - st.2)%nat.

(** The known-token conditions of [isUnknown], in the words of the
    specification: in the dictionary, first character a digit, a single
    separator, a single valid base, or containing [.] with length at
    least 2. *)
Definition spec_known `{CostArith, UnicodeTables} (sg : KhmerSegmenter.t) (w : list Z) : bool :=
  bool_decide (w ∈ KhmerSegmenter.words sg)
  || from_option KhmerSegmenter._isDigit false (head w)
  || KhmerSegmenter._isSeparator w
  || match w with [c] => KhmerSegmenter._isValidSingleBaseChar c | _ => false end
  || (includes (units ".") w && (2 <=? length w)%nat).

(** A rule whose trigger type the engine does not interpret, and a rule
    set exercising the three actions, used as concrete inputs. *)
Definition rule_fuzzy : RuleBasedEngine.rule :=
  {| RuleBasedEngine.r_name := "fuzzy";
     RuleBasedEngine.r_priority := 0;
     RuleBasedEngine.r_trigger :=
       {| RuleBasedEngine.t_type := "fuzzy_match";
          RuleBasedEngine.t_value := Some (units "x");
          RuleBasedEngine.regexObj := None |};
     RuleBasedEngine.r_checks := [];
     RuleBasedEngine.r_action := "keep" |}.

(** Scenario S5 of the specification: merge an invalid single character
    into the previous token unless that token is a separator. *)
Definition rule_merge_invalid_single : RuleBasedEngine.rule :=
  {| RuleBasedEngine.r_name := "invalid_single";
     RuleBasedEngine.r_priority := 10;
     RuleBasedEngine.r_trigger :=
       {| RuleBasedEngine.t_type := "complexity_check";
          RuleBasedEngine.t_value := Some (units "is_invalid_single");
          RuleBasedEngine.regexObj := None |};
     RuleBasedEngine.r_checks :=
       [ {| RuleBasedEngine.c_target := "prev";
            RuleBasedEngine.c_exists := false;
            RuleBasedEngine.c_check := "is_separator";
            RuleBasedEngine.c_value := RuleBasedEngine.JBool false |} ];
     RuleBasedEngine.r_action := "merge_prev" |}.

Definition rule_merge_next_x : RuleBasedEngine.rule :=
  {| RuleBasedEngine.r_name := "x_next";
     RuleBasedEngine.r_priority := 5;
     RuleBasedEngine.r_trigger :=
       {| RuleBasedEngine.t_type := "regex";
          RuleBasedEngine.t_value := Some (units "x");
          RuleBasedEngine.regexObj := None |};
     RuleBasedEngine.r_checks := [];
     RuleBasedEngine.r_action := "merge_next" |}.

(** The normalizing total, as the sum of [max(count, 5)] over the entries
    of the frequency map. *)
Definition sum_eff (entries : list (list Z * Z)) : Z :=
  foldr (λ e s, Z.max e.2 5 + s) 0 entries.

(** The sum of the effective counts over all entries of the table built by
    [_loadFrequencies], generated variants included. *)
Definition table_sum (effectiveCounts : gmap (list Z) Z) : Z :=
  map_fold (λ _ eff s, eff + s) 0 effectiveCounts.

(** The value of a table entry is the effective count of some entry of the
    frequency map: its own, or the one it was generated from. *)
Definition eff_source (entries : list (list Z * Z)) (w : list Z) (eff : Z) : Prop :=
  ∃ w0 c0, (w0, c0) ∈ entries ∧ eff = Z.max c0 5
    ∧ (w = KhmerNormalizer.strip_zero_width w0
       ∨ w ∈ KhmerSegmenter._generateVariants (KhmerNormalizer.strip_zero_width w0)).

(** One word with a coeng-ta, count 10: its coeng-da variant enters the
    table with the same effective count. *)
Definition freq_example : list (list Z * Z) := [([0x1780; 0x17D2; 0x178F], 10)].

(** ** The DP table: laws of the cost arithmetic and invariants *)

Definition finite `{CostArith} (c : cost) : Prop := clt c cinf = true.

(** What the properties of the DP use of the numbers: [<] is a strict weak
    order with [Infinity] on top, [+] is monotone in its left argument and
    keeps finite numbers finite, and literals are finite. *)
Class CostLaws `{CostArith} : Prop := {
  clt_asym : ∀ a b, clt a b = true → clt b a = false;
  clt_negtrans : ∀ a b c, clt a b = false → clt b c = false → clt a c = false;
  cinf_top : ∀ a, clt cinf a = false;
  is_inf_cinf : ∀ a, is_inf a = true ↔ a = cinf;
  cadd_mono : ∀ a b c, clt b a = false → clt (cadd b c) (cadd a c) = false;
  cadd_inf : ∀ c a, clt (cadd cinf c) a = false;
  cadd_finite : ∀ a b, finite a → finite b → finite (cadd a b);
  clit_finite : ∀ q, finite (clit q);
}.

Section DPSpec.
Import KhmerSegmenter.
Context `{CostArith, UnicodeTables} (sg : t) (text : list Z).

(** Shape of the table: [n + 1] cells, each [prev] either [-1] or an
    index strictly below the cell's own. *)
Definition wf_dp (dp : list (cost * Z)) : Prop :=
  length dp = S (length text)
  ∧ ∀ k cell, dp !! k = Some cell → cell.2 = -1 ∨ (0 <= cell.2 < Z.of_nat k).

(** The transitions that the loop body proposes at position [i], in the
    order in which it relaxes them: target index and the map from the
    cost at [i] to the proposed cost. *)
Definition dict_proposals (i : nat) (js : list nat) : list (nat * (cost → cost)) :=
  omap (λ j, let word := slice text i j in
             if bool_decide (word ∈ words sg)
             then match getWordCost sg word with
                  | Number wordCost => Some (j, λ c, cadd c wordCost)
                  | Inherited => None
                  end
             else None) js.

Definition unknown_proposal (i : nat) (curCode : Z) : nat * (cost → cost) :=
  if _isKhmerChar curCode then
    let clusterLen := _getKhmerClusterLength text i in
    let stepCost :=
      if (clusterLen =? 1)%nat && negb (_isValidSingleBaseChar curCode)
      then cadd (unknownCost sg) (clit 10) else unknownCost sg in
    ((i + clusterLen)%nat, λ c, cadd c stepCost)
  else ((i + 1)%nat, λ c, cadd c (unknownCost sg)).

Definition proposals (i : nat) (curCode : Z) : list (nat * (cost → cost)) :=
  if force_repair text i curCode
  then [((i + 1)%nat, λ c, cadd (cadd c (unknownCost sg)) (clit 50))]
  else
    (if _isDigit curCode
     then [((i + default O (_getNumberLength text i))%nat, λ c, cadd c (clit 1))]
     else if _isSeparator [curCode]
          then [((i + 1)%nat, λ c, cadd c (clit 0.1))] else [])
    ++ (if _isAcronymStart text i
        then [((i + _getAcronymLength text i)%nat, λ c, cadd c (defaultCost sg))]
        else [])
    ++ dict_proposals i (seq (i + 1) (length text `min` (i + maxWordLength sg) - i))
    ++ [unknown_proposal i curCode].

Fixpoint relax_all (dp : list (cost * Z)) (i : nat) (props : list (nat * (cost → cost)))
  : option (list (cost * Z)) :=
  match props with
  | [] => Some dp
  | (j, f) :: rest => dp ← relax dp i j f; relax_all dp i rest
  end.
End DPSpec.

(** Every token of a list is a non-empty string. *)
Definition all_nonempty (segments : list (list Z)) : Prop :=
  Forall (λ seg, seg ≠ []) segments.

(** Some cell at or after position [i] holds a finite cost. *)
Definition finite_ahead `{CostArith} (n i : nat) (dp : list (cost * Z)) : Prop :=
  ∃ j cell, (i ≤ j ≤ n)%nat ∧ dp !! j = Some cell ∧ finite cell.1.

(** ** The transition table and the covers built from it *)

Section Transitions.
Import KhmerSegmenter.
Context `{CostArith, UnicodeTables} (sg : t) (text : list Z).

(** [transition i j f]: the table of the DP has a transition from [i] to
    [j] that turns the cost [c] of a cover of [text[0..i)] into the cost
    [f c] of the cover extended by [text[i..j)].  At a trapped position
    the forced repair is the only transition; the separator row applies
    to characters that are not digits; a dictionary word has a
    transition when [getWordCost] yields a number for it. *)
Inductive transition (i : nat) : nat → (cost → cost) → Prop :=
| T_forced_repair cur :
    text !! i = Some cur → force_repair text i cur = true →
    transition i (i + 1)%nat (λ c, cadd (cadd c (unknownCost sg)) (clit 50))
| T_digit_run cur numLen :
    text !! i = Some cur → force_repair text i cur = false →
    _isDigit cur = true → _getNumberLength text i = Some numLen →
    transition i (i + numLen)%nat (λ c, cadd c (clit 1))
| T_separator cur :
    text !! i = Some cur → force_repair text i cur = false →
    _isDigit cur = false → _isSeparator [cur] = true →
    transition i (i + 1)%nat (λ c, cadd c (clit 0.1))
| T_acronym cur :
    text !! i = Some cur → force_repair text i cur = false →
    _isAcronymStart text i = true →
    transition i (i + _getAcronymLength text i)%nat (λ c, cadd c (defaultCost sg))
| T_dictionary cur j wordCost :
    text !! i = Some cur → force_repair text i cur = false →
    (i < j ≤ length text)%nat → (j ≤ i + maxWordLength sg)%nat →
    slice text i j ∈ words sg →
    getWordCost sg (slice text i j) = Number wordCost →
    transition i j (λ c, cadd c wordCost)
| T_unknown_cluster cur :
    text !! i = Some cur → force_repair text i cur = false →
    _isKhmerChar cur = true →
    transition i (i + _getKhmerClusterLength text i)%nat
      (λ c, cadd c (if (_getKhmerClusterLength text i =? 1)%nat
                       && negb (_isValidSingleBaseChar cur)
                    then cadd (unknownCost sg) (clit 10) else unknownCost sg))
| T_unknown_char cur :
    text !! i = Some cur → force_repair text i cur = false →
    _isKhmerChar cur = false →
    transition i (i + 1)%nat (λ c, cadd c (unknownCost sg)).

(** [cover_to k c segs]: [segs] is a cover of [text[0..k)] composed from
    the transition table, of total cost [c] (accumulated from [0.0] in
    the order of the text, as the DP does). *)
Inductive cover_to : nat → cost → list (list Z) → Prop :=
| cover_empty : cover_to O (clit 0) []
| cover_extend i j f c segs :
    cover_to i c segs → transition i j f →
    cover_to j (f c) (segs ++ [slice text i j]).

(** What holds of the table once the positions below [a] are processed. *)
Record dp_inv (a : nat) (dp : list (cost * Z)) : Prop := {
  inv_wf : wf_dp text dp;
  inv_origin : dp !! O = Some (clit 0, -1);
  inv_unreached : ∀ k cell, dp !! k = Some cell → cell.2 = -1 → k = O ∨ cell.1 = cinf;
  inv_witness : ∀ k cell, dp !! k = Some cell → cell.2 ≠ -1 →
    ∃ i ci f, cell.2 = Z.of_nat i ∧ (i < a)%nat ∧ dp !! i = Some ci
      ∧ is_inf ci.1 = false ∧ transition i k f ∧ cell.1 = f ci.1;
  inv_relaxed : ∀ i j f ci, (i < a)%nat → transition i j f → dp !! i = Some ci →
    ∃ cj, dp !! j = Some cj ∧ (is_inf ci.1 = true ∨ clt (f ci.1) cj.1 = false);
}.
End Transitions.

(** A segmenter whose dictionary holds the single word U+1780 U+17B6, with
    the default costs and the rule of scenario S5. *)
Definition example_segmenter : KhmerSegmenter.t (H := IdealCost.arith) :=
  {| KhmerSegmenter.words := {[ [0x1780; 0x17B6] ]};
     KhmerSegmenter.maxWordLength := 2;
     KhmerSegmenter.wordCosts := ∅;
     KhmerSegmenter.defaultCost := clit 10;
     KhmerSegmenter.unknownCost := clit 20;
     KhmerSegmenter.rules :=
       RuleBasedEngine._compileRules (H := IdealCost.literal_regex)
         [RuleBasedEngine.WithTrigger rule_merge_invalid_single] |}.

(** The state of a segmenter of which [_loadFrequencies] has computed
    the costs from a total that is not finite: [minProb] is 0, and
    [defaultCost] and [unknownCost] are [Infinity]. *)
Definition segmenter_without_finite_costs : KhmerSegmenter.t (H := IdealCost.arith) :=
  {| KhmerSegmenter.words := ∅;
     KhmerSegmenter.maxWordLength := 0;
     KhmerSegmenter.wordCosts := ∅;
     KhmerSegmenter.defaultCost := cinf;
     KhmerSegmenter.unknownCost := cadd cinf (clit 5);
     KhmerSegmenter.rules := [] |}.

(** * Further definitions *)

(** ** Normalizer: the priority of a single modifier character *)

Definition char_priority (code : Z) : Z := KhmerNormalizer.getPriority [code].

(** A register, dependent vowel or sign. *)
Definition is_modifier (code : Z) : bool :=
  match KhmerNormalizer._get_char_type code with
  | KhmerNormalizer.VOWEL | KhmerNormalizer.SIGN | KhmerNormalizer.REGISTER => true
  | _ => false
  end.

(** A character outside the Khmer classes of the normalizer that is not a
    zero-width mark: it is copied to the output. *)
Definition is_plain (code : Z) : bool :=
  match KhmerNormalizer._get_char_type code with
  | KhmerNormalizer.OTHER => negb (KhmerNormalizer.is_zero_width code)
  | _ => false
  end.

(** ** Rule engine: rules that can never be applied *)

(** The actions that [applyRules] carries out. *)
Definition known_action (action : string) : bool :=
  String.eqb action "merge_next" || String.eqb action "merge_prev"
  || String.eqb action "keep".

(** A rule with a trigger type or an action that the engine does not
    interpret. *)
Definition inert_rule (r : RuleBasedEngine.rule) : bool :=
  negb (known_trigger_type (RuleBasedEngine.t_type (RuleBasedEngine.r_trigger r)))
  || negb (known_action (RuleBasedEngine.r_action r)).

(** ** Variants: the two global replacements and character counts *)

(** [word.replace(/្ត/g, '្ដ')] and its converse. *)
Definition ta_to_da (word : list Z) : list Z :=
  KhmerSegmenter.replace_all2 0x17D2 0x178F [0x17D2; 0x178A] word.
Definition da_to_ta (word : list Z) : list Z :=
  KhmerSegmenter.replace_all2 0x17D2 0x178A [0x17D2; 0x178F] word.

(** Number of occurrences of a character in a string. *)
Definition occurrences (code : Z) (s : list Z) : nat :=
  length (filter (λ x, x = code) s).

(** The strings whose subscripts [_generateVariants] swaps: the word and
    its coeng-ta/coeng-da variants. *)
Definition variant_base (word w : list Z) : Prop :=
  w = word
  ∨ (includes [0x17D2; 0x178F] word = true ∧ w = ta_to_da word)
  ∨ (includes [0x17D2; 0x178A] word = true ∧ w = da_to_ta word).


(** ** Post-processing: coarsenings of a token list *)

(** [merges segs out]: [out] is [segs] with runs of consecutive tokens
    concatenated; no token is split and no boundary is moved. *)
Inductive merges : list (list Z) → list (list Z) → Prop :=
| merges_nil : merges [] []
| merges_group g rest out :
    g ≠ [] → merges rest out → merges (g ++ rest) (join g :: out).

(** ** segmenter_browser.js: the dictionary loader and the constructor *)

(** [content.split(/\r?\n/)]: [line] is the line read so far. *)
Fixpoint split_lines (content line : list Z) : list (list Z) :=
  match content with
  | [] => [line]
  | c :: rest =>
      if c =? 0x0A then line :: split_lines rest []
      else
        match rest with
        | d :: rest' =>
            if (c =? 0x0D) && (d =? 0x0A) then line :: split_lines rest' []
            else split_lines rest (line ++ [c])
        | [] => [line ++ [c]]
        end
  end.

(** [word.split(sep)] for a separator of one character. *)
Fixpoint split_on (sep : Z) (s part : list Z) : list (list Z) :=
  match s with
  | [] => [part]
  | c :: rest =>
      if c =? sep then part :: split_on sep rest [] else split_on sep rest (part ++ [c])
  end.

Section DictionaryLoader.
Import KhmerSegmenter.
Context `{CostArith, UnicodeTables}.

(** [line.trim()]: [trim] removes the characters that [/\s/] matches
    (white space and line terminators) from both ends. *)
Fixpoint trim_start (s : list Z) : list Z :=
  match s with
  | [] => []
  | c :: rest => if is_whitespace c then trim_start rest else s
  end.

Definition trim (s : list Z) : list Z :=
  reverse (trim_start (reverse (trim_start s))).

(** [line.trim().replace(/[\u200b\u200c\u200d]/g, '')] *)
Definition line_word (line : list Z) : list Z :=
  KhmerNormalizer.strip_zero_width (trim line).

(** [this.words.add(w); if (w.length > this.maxWordLength)
    this.maxWordLength = w.length] *)
Definition dict_add (w : list Z) (st : gset (list Z) * nat) : gset (list Z) * nat :=
  ({[ w ]} ∪ st.1, if (st.2 <? length w)%nat then length w else st.2).

(** The body of [for (let line of lines)]. *)
Definition dict_line (st : gset (list Z) * nat) (line : list Z) : gset (list Z) * nat :=
  let word := line_word line in
  match word with
  | [] => st
  | code :: _ =>
      if (length word =? 1)%nat && negb (_isValidSingleBaseChar code) then st
      else foldl (λ st v, dict_add v st) (dict_add word st) (_generateVariants word)
  end.

(** The test that puts [word] into [wordsToRemove]. *)
Definition to_remove (words : gset (list Z)) (word : list Z) : bool :=
  (includes [0x17AC] word && (1 <? length word)%nat
   && (if starts_with [0x17AC] word then bool_decide (drop 1 word ∈ words)
       else if bool_decide (last word = Some 0x17AC)
            then bool_decide (take (length word - 1) word ∈ words)
            else forallb (λ p, bool_decide (p ∈ words) || bool_decide (p = []))
                   (split_on 0x17AC word [])))
  || includes [0x17D7] word
  || starts_with [0x17D2] word.

(** The loop that recomputes [maxWordLength]. *)
Definition max_length (words : gset (list Z)) : nat :=
  set_fold (λ w m, if (m <? length w)%nat then length w else m) O words.

Definition _loadDictionary (content : list Z) (sg : t) : t :=
  match content with
  | [] => sg
  | _ :: _ =>
      let st := foldl dict_line (words sg, maxWordLength sg) (split_lines content []) in
      let wordsToRemove := filter (λ w, to_remove st.1 w = true) st.1 in
      let words := (st.1 ∖ wordsToRemove) ∖ {[ [0x17D7] ]} in
      {| words := words;
         maxWordLength := max_length words;
         wordCosts := wordCosts sg;
         defaultCost := defaultCost sg;
         unknownCost := unknownCost sg;
         rules := rules sg |}
  end.

(** The fields as the constructor sets them before it loads the data. *)
Definition initial_segmenter `{RegExpEngine}
    (rulesData : list RuleBasedEngine.rule_entry) : t :=
  {| words := ∅; maxWordLength := 0; wordCosts := ∅;
     defaultCost := clit 10; unknownCost := clit 20;
     rules := RuleBasedEngine._compileRules rulesData |}.

(** [new KhmerSegmenter(dictionaryContent, frequencyData, rulesData)] *)
Definition new_segmenter `{RegExpEngine} (dictionaryContent : list Z)
    (frequencyData : option (list (list Z * Z)))
    (rulesData : list RuleBasedEngine.rule_entry) : t :=
  _loadFrequencies frequencyData
    (_loadDictionary dictionaryContent (initial_segmenter rulesData)).

(** A word that the loop over the lines adds to the dictionary: it is
    not empty and not a single character other than a base. *)
Definition accepted_word (word : list Z) : bool :=
  match word with
  | [] => false
  | code :: _ => negb ((length word =? 1)%nat && negb (_isValidSingleBaseChar code))
  end.
End DictionaryLoader.

(** A small dictionary file: two words on two lines, the first with a
    carriage return, and a line with a stranded sign. *)
Definition example_dictionary : list Z :=
  [0x1780; 0x17B6; 0x0D; 0x0A; 0x1798; 0x17D2; 0x178F; 0x17B6; 0x0A; 0x17C6].

(** A frequency map in which a word and its coeng-da variant both have
    a count of their own. *)
Definition freq_example_pair : list (list Z * Z) :=
  [([0x1780; 0x17D2; 0x178F], 10); ([0x1780; 0x17D2; 0x178A], 7)].
(** * Properties *)

(** ** Stable sort *)

Section StableSortFacts.
Context {A : Type} (key : A → Z).

Lemma insert_sorted_perm (x : A) (l : list A) : insert_sorted key x l ≡ₚ x :: l.
Proof.
  induction l as [|y l IH]; simpl; [done|].
  destruct (key x <=? key y); [done|].
  rewrite IH. apply Permutation_swap.
Qed.

Lemma stable_sort_perm (l : list A) : stable_sort key l ≡ₚ l.
Proof.
  induction l as [|x l IH]; simpl; [done|].
  by rewrite insert_sorted_perm, IH.
Qed.

Lemma insert_sorted_head (x : A) (l : list A) :
  Forall (λ y, key x <= key y) l → insert_sorted key x l = x :: l.
Proof.
  destruct l as [|y l]; simpl; [done|].
  intros Hle. apply Forall_cons_1 in Hle as [Hxy _].
  by apply Z.leb_le in Hxy as ->.
Qed.

Lemma stable_sort_fixed (l : list A) : key_sorted key l → stable_sort key l = l.
Proof.
  induction l as [|x l IH]; simpl; [done|].
  intros [Hx Hl]. rewrite IH by done. by apply insert_sorted_head.
Qed.

Lemma insert_sorted_sorted (x : A) (l : list A) :
  key_sorted key l → key_sorted key (insert_sorted key x l).
Proof.
  induction l as [|y l IH]; simpl; [done|].
  intros [Hy Hl]. destruct (key x <=? key y) eqn:Hxy; simpl.
  - apply Z.leb_le in Hxy. split_and!; try done.
    constructor; [done|]. eapply Forall_impl; [exact Hy|]. simpl. lia.
  - apply Z.leb_gt in Hxy. split; [|by apply IH].
    rewrite insert_sorted_perm. constructor; [lia|done].
Qed.

Lemma stable_sort_sorted (l : list A) : key_sorted key (stable_sort key l).
Proof.
  induction l as [|x l IH]; simpl; [done|]. by apply insert_sorted_sorted.
Qed.

Lemma stable_sort_idemp (l : list A) :
  stable_sort key (stable_sort key l) = stable_sort key l.
Proof. apply stable_sort_fixed, stable_sort_sorted. Qed.
End StableSortFacts.

(** ** Lists *)

(** Induction on the length of a list, for loops that consume one or two
    characters per iteration. *)
Lemma list_length_ind {A : Type} (P : list A → Prop) :
  (∀ l, (∀ l', (length l' < length l)%nat → P l') → P l) → ∀ l, P l.
Proof.
  intros Hstep l. remember (length l) as n eqn:Hn.
  revert l Hn. induction (lt_wf n) as [n _ IH]. intros l ->.
  apply Hstep. intros l' Hlt. by eapply IH.
Qed.

Lemma starts_with_spec (pat s : list Z) :
  starts_with pat s = true ↔ ∃ s', s = pat ++ s'.
Proof.
  revert s. induction pat as [|p pat IH]; intros s; simpl.
  - split; [eauto|done].
  - destruct s as [|c s].
    + split; [done|]. by intros [s' ?].
    + rewrite andb_true_iff, Z.eqb_eq, IH. split.
      * intros [-> [s' ->]]. eauto.
      * intros [s' [= -> ->]]. eauto.
Qed.

Lemma replace_first_absent (pat rep s : list Z) :
  includes pat s = false → replace_first pat rep s = s.
Proof.
  induction s as [|c s IH]; simpl.
  - intros Hi. apply orb_false_iff in Hi as [-> _]. done.
  - intros Hi. apply orb_false_iff in Hi as [-> Hi]. by rewrite IH.
Qed.

(** ** Normalizer *)

Section NormalizerFacts.
Import KhmerNormalizer.

Lemma flush_app (cur res : list (list Z)) : flush cur res = res ++ flush cur [].
Proof. destruct cur; simpl; [by rewrite app_nil_r|done]. Qed.

(** The accumulator [result] is only ever appended to. *)
Lemma cluster_loop_app (text : list Z) :
  ∀ cur res, cluster_loop text cur res = res ++ cluster_loop text cur [].
Proof.
  induction text as [text IH] using list_length_ind.
  intros cur res. destruct text as [|c rest]; simpl.
  - apply flush_app.
  - destruct (_get_char_type c).
    + rewrite IH by (simpl; lia). rewrite (IH rest) with (res := flush cur []) by (simpl; lia).
      rewrite (flush_app cur res). by rewrite app_assoc.
    + destruct rest as [|d rest']; [apply IH; simpl; lia|].
      destruct (is_base d); apply IH; simpl; lia.
    + destruct cur; [|apply IH; simpl; lia].
      rewrite IH by (simpl; lia). rewrite (IH rest) with (res := [] ++ [[c]]) by (simpl; lia).
      by rewrite app_assoc.
    + destruct cur; [|apply IH; simpl; lia].
      rewrite IH by (simpl; lia). rewrite (IH rest) with (res := [] ++ [[c]]) by (simpl; lia).
      by rewrite app_assoc.
    + destruct cur; [|apply IH; simpl; lia].
      rewrite IH by (simpl; lia). rewrite (IH rest) with (res := [] ++ [[c]]) by (simpl; lia).
      by rewrite app_assoc.
    + rewrite IH by (simpl; lia).
      rewrite (IH rest) with (res := flush cur [] ++ [[c]]) by (simpl; lia).
      rewrite (flush_app cur res). by rewrite !app_assoc.
Qed.
End NormalizerFacts.

Section ClusterPass.
Import KhmerNormalizer.

Lemma join_app_units (l1 l2 : list (list Z)) : join (l1 ++ l2) = join l1 ++ join l2.
Proof. apply join_app. Qed.

Lemma sort_cluster_perm (cur : list (list Z)) : _sort_cluster cur ≡ₚ join cur.
Proof.
  destruct cur as [|h ms]; simpl; [done|].
  unfold join. simpl. by rewrite stable_sort_perm.
Qed.

Lemma flush_perm (cur : list (list Z)) : join (flush cur []) ≡ₚ join cur.
Proof.
  destruct cur as [|h ms]; [done|].
  unfold flush, join. simpl. rewrite app_nil_r. by rewrite stable_sort_perm.
Qed.

(** The cluster pass only reorders characters. *)
Lemma cluster_loop_perm (text : list Z) :
  ∀ cur, join (cluster_loop text cur []) ≡ₚ join cur ++ text.
Proof.
  induction text as [text IH] using list_length_ind.
  intros cur. destruct text as [|c rest]; simpl.
  - rewrite app_nil_r. apply flush_perm.
  - destruct (_get_char_type c).
    + rewrite cluster_loop_app, join_app_units, flush_perm, IH by (simpl; lia). done.
    + destruct rest as [|d rest']; [|destruct (is_base d)].
      * rewrite IH by (simpl; lia). rewrite join_app_units. by rewrite <-app_assoc.
      * rewrite IH by (simpl; lia). rewrite join_app_units. by rewrite <-app_assoc.
      * rewrite IH by (simpl; lia). rewrite join_app_units. by rewrite <-app_assoc.
    + destruct cur as [|h ms].
      * rewrite cluster_loop_app, join_app_units, IH by (simpl; lia). done.
      * rewrite IH by (simpl; lia). rewrite join_app_units. by rewrite <-app_assoc.
    + destruct cur as [|h ms].
      * rewrite cluster_loop_app, join_app_units, IH by (simpl; lia). done.
      * rewrite IH by (simpl; lia). rewrite join_app_units. by rewrite <-app_assoc.
    + destruct cur as [|h ms].
      * rewrite cluster_loop_app, join_app_units, IH by (simpl; lia). done.
      * rewrite IH by (simpl; lia). rewrite join_app_units. by rewrite <-app_assoc.
    + rewrite cluster_loop_app, !join_app_units, flush_perm, IH by (simpl; lia).
      by rewrite <-app_assoc.
Qed.
End ClusterPass.

Section Reparse.
Import KhmerNormalizer.

Lemma char_type_coeng : _get_char_type COENG = COENG_T.
Proof. reflexivity. Qed.

Lemma is_base_type (c : Z) : is_base c = true ↔ _get_char_type c = BASE.
Proof. unfold is_base. destruct (_get_char_type c); split; congruence. Qed.

Lemma char_type_coeng_inv (c : Z) : _get_char_type c = COENG_T → c = COENG.
Proof.
  unfold _get_char_type.
  destruct (CONSONANTS c || INDEP_VOWELS c); [done|].
  destruct (c =? COENG) eqn:Hc; [by apply Z.eqb_eq in Hc|].
  destruct (REGISTERS c); [done|]. destruct (DEP_VOWELS c); [done|].
  by destruct (SIGNS c || (c =? 0x17DD)).
Qed.

(** Reading back the modifier units of a cluster that is open. *)
Lemma parse_mods (ms : list (list Z)) :
  Forall (λ u, mod_unit u = true) ms →
  ∀ h cur s res,
    cluster_loop (join ms ++ s) (h :: cur) res = cluster_loop s (h :: cur ++ ms) res.
Proof.
  induction 1 as [|u ms Hu _ IH]; intros h cur s res.
  - by rewrite app_nil_r.
  - destruct u as [|c [|d [|]]]; try done; simpl in Hu.
    + change (join ([c] :: ms) ++ s) with (c :: (join ms ++ s)). simpl.
      destruct (_get_char_type c); try done.
      all: rewrite (IH h (cur ++ [[c]])); by rewrite <-app_assoc.
    + apply andb_true_iff in Hu as [->%Z.eqb_eq Hd].
      change (join ([COENG; d] :: ms) ++ s) with (COENG :: d :: (join ms ++ s)).
      simpl. rewrite Hd. rewrite (IH h (cur ++ [[COENG; d]])). by rewrite <-app_assoc.
Qed.

Lemma parse_head (h s : list Z) (res : list (list Z)) :
  head_unit h = true → cluster_loop (h ++ s) [] res = cluster_loop s [h] res.
Proof.
  destruct h as [|c [|d [|]]]; try done; simpl; intros Hh.
  - apply is_base_type in Hh. by rewrite Hh.
  - apply andb_true_iff in Hh as [->%Z.eqb_eq Hd]. by rewrite Hd.
Qed.

Lemma parse_cluster (cur : list (list Z)) (s : list Z) (res : list (list Z)) :
  wf_cluster cur → cur ≠ [] →
  cluster_loop (_sort_cluster cur ++ s) [] res = cluster_loop s (sorted_cluster cur) res.
Proof.
  destruct cur as [|h ms]; [done|]. intros [Hh Hms] _. simpl.
  rewrite <-app_assoc, parse_head by done.
  rewrite parse_mods; [done|]. by rewrite stable_sort_perm.
Qed.

Lemma sort_sorted_cluster (cur : list (list Z)) :
  _sort_cluster (sorted_cluster cur) = _sort_cluster cur.
Proof. destruct cur as [|h ms]; simpl; [done|]. by rewrite stable_sort_idemp. Qed.

Lemma flush_sorted_cluster (cur : list (list Z)) :
  flush (sorted_cluster cur) [] = flush cur [].
Proof.
  destruct cur as [|h ms]; [done|].
  unfold flush. simpl. by rewrite stable_sort_idemp.
Qed.

Lemma join_flush (cur : list (list Z)) : join (flush cur []) = _sort_cluster cur.
Proof.
  destruct cur as [|h ms]; [done|]. unfold flush, join. simpl. by rewrite app_nil_r.
Qed.

(** Reading back a closed cluster in front of a character that closes
    clusters gives the cluster again. *)
Lemma reparse_flush (cur : list (list Z)) (s : list Z) :
  wf_cluster cur → flushes s →
  join (cluster_loop (join (flush cur []) ++ s) [] [])
  = join (flush cur []) ++ join (cluster_loop s [] []).
Proof.
  intros Hwf Hs. destruct (decide (cur = [])) as [->|Hne]; [done|].
  rewrite join_flush, parse_cluster by done.
  destruct s as [|c s']; simpl.
  - rewrite flush_sorted_cluster, join_flush. by rewrite app_nil_r.
  - destruct Hs as [-> | ->].
    + rewrite flush_sorted_cluster, cluster_loop_app, join_app_units, join_flush. done.
    + rewrite flush_sorted_cluster, cluster_loop_app, join_app_units.
      rewrite (cluster_loop_app s' [] [[c]]).
      rewrite !join_app_units, join_flush. by rewrite <-app_assoc.
Qed.

(** The output of an open cluster starts with the cluster's head. *)
Lemma cluster_loop_head (text : list Z) :
  ∀ h ms, ∃ T, join (cluster_loop text (h :: ms) []) = h ++ T.
Proof.
  induction text as [text IH] using list_length_ind.
  intros h ms. destruct text as [|c rest]; simpl.
  - eexists. unfold join. simpl. rewrite <-app_assoc. reflexivity.
  - destruct (_get_char_type c).
    + rewrite cluster_loop_app, join_app_units. unfold join at 1. simpl.
      rewrite <-!app_assoc. eauto.
    + destruct rest as [|d rest']; [|destruct (is_base d)]; apply IH; simpl; lia.
    + apply IH; simpl; lia.
    + apply IH; simpl; lia.
    + apply IH; simpl; lia.
    + rewrite cluster_loop_app, join_app_units. unfold join at 1. simpl.
      rewrite <-!app_assoc. eauto.
Qed.

Lemma wf_cluster_snoc (cur : list (list Z)) (u : list Z) :
  wf_cluster cur → cur ≠ [] → mod_unit u = true → wf_cluster (cur ++ [u]).
Proof.
  destruct cur as [|h ms]; [done|]. intros [Hh Hms] _ Hu. simpl. split; [done|].
  apply Forall_app. split; [done|]. by constructor.
Qed.

(** The cluster pass reads its own output back unchanged, when no coeng
    of the input is stray. *)
Lemma cluster_loop_reparse (text : list Z) :
  stray_coeng text = false →
  ∀ cur, wf_cluster cur →
    join (cluster_loop (join (cluster_loop text cur [])) [] [])
    = join (cluster_loop text cur []).
Proof.
  induction text as [text IH] using list_length_ind.
  intros Hstray cur Hwf. destruct text as [|c rest].
  - simpl. rewrite <-(app_nil_r (join (flush cur []))) at 1.
    rewrite reparse_flush by done. simpl. by rewrite app_nil_r.
  - simpl in Hstray. simpl.
    destruct (_get_char_type c) eqn:Hc.
    + assert ((c =? COENG) = false) as Hnc.
      { apply Z.eqb_neq. intros ->. by rewrite char_type_coeng in Hc. }
      rewrite Hnc in Hstray.
      rewrite (cluster_loop_app rest [[c]] (flush cur [])), join_app_units.
      destruct (cluster_loop_head rest [c] []) as [T HT].
      rewrite reparse_flush; [|done|rewrite HT; simpl; by left].
      f_equal. apply IH; [simpl; lia|done|]. simpl. split; [|done].
      by apply is_base_type.
    + apply char_type_coeng_inv in Hc as ->. rewrite Z.eqb_refl in Hstray.
      destruct rest as [|d rest']; [done|].
      destruct (is_base d) eqn:Hd; [|done].
      apply IH; [simpl; lia|done|].
      destruct cur as [|h ms].
      * simpl. by rewrite Hd.
      * apply wf_cluster_snoc; [done|done|]. simpl. by rewrite Hd.
    + assert ((c =? COENG) = false) as Hnc.
      { apply Z.eqb_neq. intros ->. by rewrite char_type_coeng in Hc. }
      rewrite Hnc in Hstray. destruct cur as [|h ms].
      * rewrite (cluster_loop_app rest [] [[c]]), join_app_units.
        change (join [[c]]) with [c]. simpl. rewrite Hc.
        rewrite (cluster_loop_app _ [] [[c]]), join_app_units.
        change (join [[c]]) with [c].
        simpl. f_equal. apply IH; [simpl; lia|done|done].
      * apply IH; [simpl; lia|done|]. apply wf_cluster_snoc; [done|done|].
        simpl. by rewrite Hc.
    + assert ((c =? COENG) = false) as Hnc.
      { apply Z.eqb_neq. intros ->. by rewrite char_type_coeng in Hc. }
      rewrite Hnc in Hstray. destruct cur as [|h ms].
      * rewrite (cluster_loop_app rest [] [[c]]), join_app_units.
        change (join [[c]]) with [c]. simpl. rewrite Hc.
        rewrite (cluster_loop_app _ [] [[c]]), join_app_units.
        change (join [[c]]) with [c].
        simpl. f_equal. apply IH; [simpl; lia|done|done].
      * apply IH; [simpl; lia|done|]. apply wf_cluster_snoc; [done|done|].
        simpl. by rewrite Hc.
    + assert ((c =? COENG) = false) as Hnc.
      { apply Z.eqb_neq. intros ->. by rewrite char_type_coeng in Hc. }
      rewrite Hnc in Hstray. destruct cur as [|h ms].
      * rewrite (cluster_loop_app rest [] [[c]]), join_app_units.
        change (join [[c]]) with [c]. simpl. rewrite Hc.
        rewrite (cluster_loop_app _ [] [[c]]), join_app_units.
        change (join [[c]]) with [c].
        simpl. f_equal. apply IH; [simpl; lia|done|done].
      * apply IH; [simpl; lia|done|]. apply wf_cluster_snoc; [done|done|].
        simpl. by rewrite Hc.
    + assert ((c =? COENG) = false) as Hnc.
      { apply Z.eqb_neq. intros ->. by rewrite char_type_coeng in Hc. }
      rewrite Hnc in Hstray.
      rewrite (cluster_loop_app rest [] (flush cur [] ++ [[c]])), !join_app_units.
      change (join [[c]]) with [c]. rewrite <-app_assoc.
      rewrite reparse_flush; [|done|simpl; by right].
      f_equal. simpl. rewrite Hc.
      rewrite (cluster_loop_app _ [] [[c]]), join_app_units.
      change (join [[c]]) with [c].
      simpl. f_equal. apply IH; [simpl; lia|done|done].
Qed.
End Reparse.

Section NormalizeTheorems.
Import KhmerNormalizer.

Lemma replace_first_cons (pat rep : list Z) (c : Z) (s : list Z) :
  replace_first pat rep (c :: s)
  = if starts_with pat (c :: s) then rep ++ drop (length pat) (c :: s)
    else c :: replace_first pat rep s.
Proof. reflexivity. Qed.

Lemma replace_first_Forall (P : Z → Prop) (pat rep s : list Z) :
  Forall P rep → Forall P s → Forall P (replace_first pat rep s).
Proof.
  intros Hrep. induction s as [|c s IH]; intros Hs.
  - simpl. destruct (starts_with pat []); [|done].
    apply Forall_app. split; [done|]. by apply Forall_drop.
  - rewrite replace_first_cons. destruct (starts_with pat (c :: s)).
    + apply Forall_app. split; [done|]. by apply Forall_drop.
    + apply Forall_cons_1 in Hs as [? ?]. constructor; auto.
Qed.

(** Replacing a pair of characters that are neither coeng nor base by
    such a character moves no coeng next to, or away from, a base. *)
Lemma stray_coeng_replace_first (a b r : Z) (s : list Z) :
  (a =? COENG) = false → (b =? COENG) = false → (r =? COENG) = false →
  is_base a = false → is_base r = false →
  stray_coeng (replace_first [a; b] [r] s) = stray_coeng s.
Proof.
  intros Ha Hb Hr Hba Hbr.
  induction s as [s IH] using list_length_ind.
  destruct s as [|c rest]; [done|].
  rewrite replace_first_cons. destruct (starts_with [a; b] (c :: rest)) eqn:Hsw.
  - apply starts_with_spec in Hsw as [s' Heq]. simplify_eq/=.
    by rewrite Ha, Hb, Hr.
  - cbn [stray_coeng]. destruct (c =? COENG); [|apply IH; simpl; lia].
    destruct rest as [|d rest']; [done|].
    rewrite replace_first_cons. destruct (starts_with [a; b] (d :: rest')) eqn:Hsw'.
    + apply starts_with_spec in Hsw' as [s' Heq]. simplify_eq/=.
      by rewrite Hba, Hbr.
    + destruct (is_base d); [|done]. apply IH. simpl. lia.
Qed.

Lemma stray_coeng_fix_composites (s : list Z) :
  stray_coeng (fix_composites s) = stray_coeng s.
Proof.
  unfold fix_composites. by rewrite !stray_coeng_replace_first.
Qed.

Lemma zero_width_free_Forall (s : list Z) :
  zero_width_free s = true ↔ Forall (λ c, is_zero_width c = false) s.
Proof.
  unfold zero_width_free. rewrite forallb_forall, Forall_forall.
  setoid_rewrite <-list_elem_of_In. setoid_rewrite negb_true_iff. done.
Qed.

Lemma strip_zero_width_Forall (s : list Z) :
  Forall (λ c, is_zero_width c = false) (strip_zero_width s).
Proof.
  apply Forall_forall. intros c Hc. unfold strip_zero_width in Hc.
  by apply list_elem_of_filter in Hc as [? _].
Qed.

Lemma strip_zero_width_id (s : list Z) :
  Forall (λ c, is_zero_width c = false) s → strip_zero_width s = s.
Proof.
  unfold strip_zero_width. induction 1 as [|c s Hc _ IH]; [done|].
  rewrite filter_cons_True by done. by rewrite IH.
Qed.

(** The output of [normalize] has no zero-width character. *)
Lemma normalize_zero_width_free (x : list Z) : zero_width_free (normalize x) = true.
Proof.
  apply zero_width_free_Forall. destruct x as [|c x]; [done|]. unfold normalize.
  rewrite cluster_loop_perm. simpl.
  unfold fix_composites. do 2 (apply replace_first_Forall; [by repeat constructor|]).
  apply strip_zero_width_Forall.
Qed.

Lemma fix_composites_id (s : list Z) :
  split_vowel_free s = true → fix_composites s = s.
Proof.
  unfold split_vowel_free, fix_composites.
  intros [H1%negb_true_iff H2%negb_true_iff]%andb_true_iff.
  by rewrite (replace_first_absent _ _ s H1), replace_first_absent.
Qed.

Lemma normalize_unfold (s : list Z) :
  normalize s = join (cluster_loop (fix_composites (strip_zero_width s)) [] []).
Proof. by destruct s. Qed.

(** C4 (as amended): [normalize] is idempotent on every input in which,
    once the zero-width characters are removed, each coeng U+17D2 is
    immediately followed by a base character, and whose normal form
    contains neither split vowel U+17C1 U+17B8 nor U+17C1 U+17B6. *)
Theorem normalize_idempotent_without_strays (x : list Z) :
  stray_coeng (strip_zero_width x) = false →
  split_vowel_free (normalize x) = true →
  normalize (normalize x) = normalize x.
Proof.
  intros Hstray Hsplit.
  rewrite (normalize_unfold (normalize x)).
  rewrite strip_zero_width_id
    by (apply zero_width_free_Forall, normalize_zero_width_free).
  rewrite fix_composites_id by done.
  rewrite (normalize_unfold x). apply cluster_loop_reparse; [|done].
  by rewrite stray_coeng_fix_composites.
Qed.

Lemma normalize_idempotent_without_strays_witness :
  let x := [0x1780; 0x17C6; 0x200B; 0x17B6; 0x17D2; 0x179A; 0x17D2; 0x1780; 0x20] in
  stray_coeng (strip_zero_width x) = false
  ∧ split_vowel_free (normalize x) = true
  ∧ normalize x = [0x1780; 0x17D2; 0x1780; 0x17D2; 0x179A; 0x17B6; 0x17C6; 0x20]
  ∧ normalize (normalize x) = normalize x.
Proof.
  split; [reflexivity|]. split; [reflexivity|]. split; [reflexivity|].
  apply (normalize_idempotent_without_strays
           [0x1780; 0x17C6; 0x200B; 0x17B6; 0x17D2; 0x179A; 0x17D2; 0x1780; 0x20]);
    reflexivity.
Defined.

(** C4 (as stated) fails: the stable sort puts the vowels U+17C1 and
    U+17B8 next to each other, and a second pass fuses them. *)
Lemma normalize_not_idempotent :
  let x := [0x1780; 0x17C1; 0x17C6; 0x17B8] in
  normalize x = [0x1780; 0x17C1; 0x17B8; 0x17C6]
  ∧ normalize (normalize x) = [0x1780; 0x17BE; 0x17C6]
  ∧ normalize (normalize x) ≠ normalize x.
Proof. split; [reflexivity|]. split; [reflexivity|]. discriminate. Qed.

(** A stray coeng also breaks idempotence: on re-reading, the coeng that
    was sorted to the end of its cluster takes the next base as its
    subscript. *)
Lemma normalize_stray_coeng_not_idempotent :
  let x := [0x1780; 0x17D2; 0x17D2; 0x17D2; 0x1781; 0x1782] in
  stray_coeng x = true
  ∧ split_vowel_free (normalize x) = true
  ∧ normalize x = [0x1780; 0x17D2; 0x1781; 0x17D2; 0x17D2; 0x1782]
  ∧ normalize (normalize x) = [0x1780; 0x17D2; 0x1781; 0x17D2; 0x1782; 0x17D2].
Proof. repeat split; reflexivity. Qed.

(** C5: on an input with two split vowels the composite step rewrites
    only the first, and the normal form still contains U+17C1 U+17B8
    (likewise for U+17C1 U+17B6). *)
Theorem normalize_second_split_vowel_kept :
  normalize [0x17C1; 0x17B8; 0x17C1; 0x17B8] = [0x17BE; 0x17C1; 0x17B8]
  ∧ includes [0x17C1; 0x17B8] (normalize [0x17C1; 0x17B8; 0x17C1; 0x17B8]) = true
  ∧ normalize [0x17C1; 0x17B6; 0x17C1; 0x17B6] = [0x17C4; 0x17C1; 0x17B6]
  ∧ includes [0x17C1; 0x17B6] (normalize [0x17C1; 0x17B6; 0x17C1; 0x17B6]) = true.
Proof. repeat split; reflexivity. Qed.
End NormalizeTheorems.

(** ** Rule engine *)

Section RuleEngineFacts.
Import RuleBasedEngine.
Context `{RegExpEngine}.

Lemma compile_loop_app (rules : list rule_entry) (acc : list rule) :
  compile_loop rules acc = (λ out, acc ++ out) <$> compile_loop rules [].
Proof.
  revert acc. induction rules as [|[r|p] rules IH]; intros acc; cbn [compile_loop].
  - cbn. by rewrite app_nil_r.
  - assert (∀ x, compile_loop rules (acc ++ [x])
                 = (λ out, acc ++ out) <$> compile_loop rules ([] ++ [x])) as Hpush.
    { intros x. rewrite (IH (acc ++ [x])), (IH ([] ++ [x])).
      destruct (compile_loop rules []) as [out|]; cbn; [|done].
      by rewrite <-app_assoc. }
    destruct (String.eqb _ _); [|apply Hpush].
    destruct (compile_pattern _); [apply Hpush|apply IH].
  - done.
Qed.

Lemma compile_loop_push (rules : list rule_entry) (x : rule) (out : list rule) :
  compile_loop rules [x] = Some out →
  ∃ out', compile_loop rules [] = Some out' ∧ out = x :: out'.
Proof.
  rewrite compile_loop_app. destruct (compile_loop rules []) as [out'|]; [|done].
  intros [= <-]. by exists out'.
Qed.

(** An entry without a trigger makes the loop raise, whatever comes
    before it. *)
Lemma compile_loop_raises (rules : list rule_entry) :
  (∃ e, e ∈ rules ∧ has_trigger e = false) → ∀ acc, compile_loop rules acc = None.
Proof.
  induction rules as [|[r|p] rules IH]; intros (e & Hin & He) acc; cbn [compile_loop].
  - by apply elem_of_nil in Hin.
  - apply elem_of_cons in Hin as [->|Hin]; [done|].
    assert (∀ acc', compile_loop rules acc' = None) as Hrest by (apply IH; by exists e).
    destruct (String.eqb _ _); [|apply Hrest].
    destruct (compile_pattern _); apply Hrest.
  - done.
Qed.

Lemma compile_loop_total (rules : list rule_entry) :
  (∀ e, e ∈ rules → has_trigger e = true) → ∀ acc, is_Some (compile_loop rules acc).
Proof.
  induction rules as [|[r|p] rules IH]; intros Hall acc; cbn [compile_loop].
  - done.
  - assert (∀ acc', is_Some (compile_loop rules acc')) as Hrest.
    { apply IH. intros e He. apply Hall. by right. }
    destruct (String.eqb _ _); [|apply Hrest].
    destruct (compile_pattern _); apply Hrest.
  - specialize (Hall (NoTrigger p) ltac:(by left)). done.
Qed.

Lemma compile_loop_keeps (rules : list rule_entry) (r : rule) :
  ∀ out, compile_loop rules [] = Some out →
    WithTrigger r ∈ rules → t_type (r_trigger r) ≠ "regex" → r ∈ out.
Proof.
  induction rules as [|[r'|p] rules IH]; intros out Hout Hin Hty.
  - by apply elem_of_nil in Hin.
  - cbn [compile_loop app] in Hout. apply elem_of_cons in Hin as [[= <-]|Hin].
    + apply String.eqb_neq in Hty. rewrite Hty in Hout.
      apply compile_loop_push in Hout as (out' & _ & ->). by left.
    + destruct (String.eqb _ _); [destruct (compile_pattern _)|].
      * apply compile_loop_push in Hout as (out' & Hout' & ->). right. by eapply IH.
      * by eapply IH.
      * apply compile_loop_push in Hout as (out' & Hout' & ->). right. by eapply IH.
  - done.
Qed.

Lemma compile_loop_regex (rules : list rule_entry) (r : rule) (re : list Z → bool) :
  ∀ out, compile_loop rules [] = Some out →
    WithTrigger r ∈ rules → t_type (r_trigger r) = "regex" →
    compile_pattern (r_trigger r) = Some re →
    with_regex r re ∈ out.
Proof.
  induction rules as [|[r'|p] rules IH]; intros out Hout Hin Hty Hre.
  - by apply elem_of_nil in Hin.
  - cbn [compile_loop app] in Hout. apply elem_of_cons in Hin as [[= <-]|Hin].
    + rewrite Hty in Hout. cbn in Hout. rewrite Hre in Hout.
      apply compile_loop_push in Hout as (out' & _ & ->). by left.
    + destruct (String.eqb _ _); [destruct (compile_pattern (r_trigger r'))|].
      * apply compile_loop_push in Hout as (out' & Hout' & ->). right. by eapply IH.
      * by eapply IH.
      * apply compile_loop_push in Hout as (out' & Hout' & ->). right. by eapply IH.
  - done.
Qed.

Lemma compile_loop_origin (rules : list rule_entry) (r : rule) :
  ∀ out, compile_loop rules [] = Some out → r ∈ out →
    ∃ r0, WithTrigger r0 ∈ rules ∧
      ((t_type (r_trigger r0) ≠ "regex" ∧ r = r0)
       ∨ (t_type (r_trigger r0) = "regex"
          ∧ ∃ re, compile_pattern (r_trigger r0) = Some re ∧ r = with_regex r0 re)).
Proof.
  induction rules as [|[r'|p] rules IH]; intros out Hout Hr.
  - injection Hout as <-. by apply elem_of_nil in Hr.
  - cbn [compile_loop app] in Hout.
    assert (∀ out', compile_loop rules [] = Some out' → r ∈ out' →
              ∃ r0, WithTrigger r0 ∈ WithTrigger r' :: rules ∧
                ((t_type (r_trigger r0) ≠ "regex" ∧ r = r0)
                 ∨ (t_type (r_trigger r0) = "regex"
                    ∧ ∃ re, compile_pattern (r_trigger r0) = Some re
                            ∧ r = with_regex r0 re))) as Hrest.
    { intros out' Hout' Hr'. destruct (IH _ Hout' Hr') as (r0 & ? & ?).
      exists r0. split; [by right|done]. }
    destruct (String.eqb _ _) eqn:Hty.
    + apply String.eqb_eq in Hty. destruct (compile_pattern _) as [re|] eqn:Hre.
      * apply compile_loop_push in Hout as (out' & Hout' & ->).
        apply elem_of_cons in Hr as [->|Hr]; [|by eapply Hrest].
        exists r'. split; [by left|]. right. eauto.
      * by eapply Hrest.
    + apply String.eqb_neq in Hty.
      apply compile_loop_push in Hout as (out' & Hout' & ->).
      apply elem_of_cons in Hr as [->|Hr]; [|by eapply Hrest].
      exists r'. split; [by left|]. by left.
  - done.
Qed.

(** C8 (as amended): when every entry of the rule list has a trigger,
    [_compileRules] drops exactly the rules with trigger type [regex]
    whose pattern does not compile.  Every rule with another trigger
    type, whether the engine interprets that type or not, is in the
    compiled list unchanged; a [regex] rule whose pattern compiles is
    there with its compiled pattern; nothing else is there.  When some
    entry has no trigger, the exception is caught and the compiled list
    is empty.  A rule whose trigger type the engine does not interpret
    never matches a segment. *)
Theorem compileRules_keeps_unknown_trigger_types (rules : list rule_entry) :
  ((∀ e, e ∈ rules → has_trigger e = true) →
   (∀ r, WithTrigger r ∈ rules → t_type (r_trigger r) ≠ "regex" →
         r ∈ _compileRules rules)
   ∧ (∀ r re, WithTrigger r ∈ rules → t_type (r_trigger r) = "regex" →
              compile_pattern (r_trigger r) = Some re →
              with_regex r re ∈ _compileRules rules)
   ∧ (∀ r, r ∈ _compileRules rules →
           ∃ r0, WithTrigger r0 ∈ rules ∧
             ((t_type (r_trigger r0) ≠ "regex" ∧ r = r0)
              ∨ (t_type (r_trigger r0) = "regex"
                 ∧ ∃ re, compile_pattern (r_trigger r0) = Some re
                         ∧ r = with_regex r0 re))))
  ∧ ((∃ e, e ∈ rules ∧ has_trigger e = false) → _compileRules rules = [])
  ∧ (∀ f t seg, known_trigger_type (t_type t) = false → trigger_match f t seg = false).
Proof.
  unfold _compileRules. split_and!.
  - intros Hall.
    destruct (compile_loop_total (stable_sort (λ e, - entry_priority e) rules))
      with (acc := @nil rule) as [out Hout].
    { intros e He. apply Hall. by rewrite stable_sort_perm in He. }
    rewrite Hout. cbn [default]. split_and!.
    + intros r Hr Hty. eapply compile_loop_keeps; [exact Hout| |done].
      by rewrite stable_sort_perm.
    + intros r re Hr Hty Hre. eapply compile_loop_regex; [exact Hout| |done..].
      by rewrite stable_sort_perm.
    + intros r Hr. destruct (compile_loop_origin _ _ _ Hout Hr) as (r0 & Hr0 & Hcase).
      exists r0. split; [|done]. by rewrite stable_sort_perm in Hr0.
  - intros (e & He & Hno). rewrite compile_loop_raises; [done|].
    exists e. split; [|done]. by rewrite stable_sort_perm.
  - intros f t seg Hty. unfold known_trigger_type in Hty.
    apply orb_false_iff in Hty as [[H1 H2]%orb_false_iff H3].
    unfold trigger_match. by rewrite H1, H2, H3.
Qed.
End RuleEngineFacts.

Section CompileExamples.
Import RuleBasedEngine IdealCost.

Lemma compileRules_keeps_unknown_trigger_types_witness :
  (∀ e, e ∈ [WithTrigger rule_fuzzy] → has_trigger e = true)
  ∧ rule_fuzzy ∈ _compileRules [WithTrigger rule_fuzzy]
  ∧ _compileRules [WithTrigger rule_fuzzy; entry_without_trigger] = [].
Proof.
  assert (∀ e, e ∈ [WithTrigger rule_fuzzy] → has_trigger e = true) as Hall.
  { intros e [->|Hin]%elem_of_cons; [done|by apply elem_of_nil in Hin]. }
  destruct (compileRules_keeps_unknown_trigger_types [WithTrigger rule_fuzzy])
    as (Hkept & _).
  destruct (compileRules_keeps_unknown_trigger_types
              [WithTrigger rule_fuzzy; entry_without_trigger]) as (_ & Hraise & _).
  split; [exact Hall|]. split.
  - apply (proj1 (Hkept Hall)); [by left|discriminate].
  - apply Hraise. exists entry_without_trigger. split; [by right; left|reflexivity].
Defined.

(** C8 (as stated) fails: a rule with the trigger type [fuzzy_match] is
    in the compiled list. *)
Lemma compileRules_unknown_trigger_type_kept :
  ∃ r, r ∈ _compileRules [WithTrigger rule_merge_invalid_single; WithTrigger rule_fuzzy]
       ∧ known_trigger_type (t_type (r_trigger r)) = false.
Proof. exists rule_fuzzy. split; [|reflexivity]. apply list_elem_of_In. right. by left. Qed.
End CompileExamples.

Section ApplyRulesFacts.
Import RuleBasedEngine.
Context (checkInvalidSingle isSeparator : list Z → bool) (rules : list rule).

(** What a rule can do at position [i]: merge with the next token, merge
    with the previous one, or keep. *)
Lemma rule_loop_cases (rs : list rule) (segments : list (list Z)) (i : nat)
    (seg : list Z) (st' : list (list Z) * nat) :
  rule_loop checkInvalidSingle isSeparator rs segments i seg = Some st' →
  (∃ next, segments !! S i = Some next
           ∧ st' = (delete (S i) (<[i := seg ++ next]> segments), i))
  ∨ (∃ j prev, i = S j ∧ segments !! j = Some prev
               ∧ st' = (delete i (<[j := prev ++ seg]> segments), j))
  ∨ st' = (segments, S i).
Proof.
  induction rs as [|rule rs IH]; simpl; [done|].
  destruct (negb (trigger_match _ _ _)); [done|].
  destruct (negb (conditions_met _ _ _ _)); [done|].
  replace (i + 1)%nat with (S i) by lia.
  destruct (String.eqb (r_action rule) "merge_next").
  { destruct (segments !! S i) as [next|] eqn:Hn; [|done].
    intros [= <-]. left. eauto. }
  destruct (String.eqb (r_action rule) "merge_prev").
  { destruct i as [|j]; simpl; [done|]. rewrite Nat.sub_0_r.
    destruct (segments !! j) as [prev|] eqn:Hp; [|done].
    intros [= <-]. right. left. eauto. }
  destruct (String.eqb (r_action rule) "keep"); [|done].
  intros [= <-]. by do 2 right.
Qed.

(** Shape of a token list around two adjacent tokens, before and after
    they are merged in place. *)
Lemma merge_adjacent (l : list (list Z)) (i : nat) (a b : list Z) :
  l !! i = Some a → l !! S i = Some b →
  ∃ pre post, l = pre ++ a :: b :: post ∧ length pre = i
    ∧ delete (S i) (<[i := a ++ b]> l) = pre ++ (a ++ b) :: post.
Proof.
  revert l. induction i as [|i IH]; intros [|x l] Ha Hb; simplify_eq/=.
  - destruct l as [|y l]; simplify_eq/=. by exists [], l.
  - destruct (IH l Ha Hb) as (pre & post & -> & <- & Hd).
    exists (x :: pre), post. simpl. split_and!; [done..|]. by rewrite Hd.
Qed.

(** The three cases of one loop iteration, on the token list as a whole. *)
Lemma apply_step_cases (segments : list (list Z)) (i : nat) (st' : list (list Z) * nat) :
  apply_step checkInvalidSingle isSeparator rules (segments, i) = Some st' →
  (i < length segments)%nat
  ∧ ((∃ pre a b post, segments = pre ++ a :: b :: post
        ∧ st'.1 = pre ++ (a ++ b) :: post
        ∧ (st'.2 = i ∧ length pre = i ∨ S st'.2 = i ∧ length pre = st'.2))
     ∨ st' = (segments, S i)).
Proof.
  unfold apply_step. destruct (segments !! i) as [seg|] eqn:Hseg; simpl; [|done].
  intros [= <-]. split; [by eapply lookup_lt_Some|].
  destruct (rule_loop _ _ _ _ _ _) as [st'|] eqn:Hrl; simpl;
    [|right; f_equal; lia].
  apply rule_loop_cases in Hrl as [(next & Hn & ->) | [(j & prev & -> & Hp & ->) | ->]].
  - destruct (merge_adjacent _ _ _ _ Hseg Hn) as (pre & post & Heq & Hlen & Hd).
    left. exists pre, seg, next, post. simpl. by eauto.
  - destruct (merge_adjacent _ _ _ _ Hp Hseg) as (pre & post & Heq & Hlen & Hd).
    left. exists pre, prev, seg, post. simpl. by eauto.
  - by right.
Qed.

(** Each merge shortens the token list; every other iteration advances
    [i]; so [2 * length - i] decreases, and [i] stays within bounds. *)
Lemma apply_step_measure (st st' : list (list Z) * nat) :
  apply_step checkInvalidSingle isSeparator rules st = Some st' →
  (st'.2 ≤ length st'.1)%nat ∧ (apply_measure st' < apply_measure st)%nat
  ∧ ((length st'.1 < length st.1)%nat ∨ (st'.1 = st.1 ∧ st'.2 = S st.2)).
Proof.
  destruct st as [segments i]. intros Hstep.
  apply apply_step_cases in Hstep as [Hi [(pre & a & b & post & -> & Hs & Hidx) | ->]].
  - unfold apply_measure. rewrite Hs. simpl. rewrite !length_app in *. simpl in *.
    split_and!; [lia|lia|left; lia].
  - unfold apply_measure. simpl. split_and!; [lia|lia|by right].
Qed.

Lemma apply_loop_terminates (fuel : nat) :
  ∀ st, (st.2 ≤ length st.1)%nat → (apply_measure st ≤ fuel)%nat →
    is_Some (apply_loop checkInvalidSingle isSeparator rules fuel st).
Proof.
  induction fuel as [|fuel IH]; intros st Hb Hm; cbn [apply_loop].
  - destruct (apply_step _ _ _ st) as [st'|] eqn:Hstep; [|done].
    apply apply_step_measure in Hstep. lia.
  - destruct (apply_step _ _ _ st) as [st'|] eqn:Hstep; [|done].
    apply apply_step_measure in Hstep as (? & ? & _). apply IH; [done|lia].
Qed.

(** C9: [applyRules] terminates on every token list and every rule set.
    An iteration of its loop either merges two tokens, which shortens the
    list, or leaves the list alone and advances [i] by one; and after at
    most twice as many iterations as there are tokens the loop has ended
    and returned a token list. *)
Theorem applyRules_terminates (segments : list (list Z)) (extra : nat) :
  (∀ st,
     from_option
       (λ st', (length st'.1 < length st.1)%nat ∨ (st'.1 = st.1 ∧ st'.2 = S st.2))
       True (apply_step checkInvalidSingle isSeparator rules st))
  ∧ ∃ out, applyRules checkInvalidSingle isSeparator rules
             (2 * length segments + extra) segments = Some out.
Proof.
  split.
  - intros st. destruct (apply_step _ _ _ st) as [st'|] eqn:Hstep; [|done].
    simpl. by apply apply_step_measure in Hstep as (_ & _ & ?).
  - apply apply_loop_terminates; [simpl; lia|]. unfold apply_measure. simpl. lia.
Qed.
End ApplyRulesFacts.

(** ** Known and unknown tokens *)

Section IsUnknown.
Import KhmerSegmenter.
Context `{CostArith, UnicodeTables}.

(** C7 (as amended): [isUnknown(w)] is true if and only if [w] is not the
    empty string and none of the known-token conditions holds; on the
    empty string it is false. *)
Theorem isUnknown_iff_nonempty_and_not_known (sg : t) (w : list Z) :
  isUnknown sg w = negb (bool_decide (w = [])) && negb (spec_known sg w).
Proof.
  destruct w as [|c w']; [done|]. unfold isUnknown, spec_known.
  cbn [head from_option].
  assert (match c :: w' with [c'] => _isValidSingleBaseChar c' | _ => false end
          = (length (c :: w') =? 1)%nat && _isValidSingleBaseChar c) as ->
    by (by destruct w').
  rewrite (bool_decide_eq_false_2 (c :: w' = [])) by done.
  generalize (bool_decide (c :: w' ∈ words sg)) (_isDigit c) (_isSeparator (c :: w'))
    ((length (c :: w') =? 1)%nat && _isValidSingleBaseChar c)
    (includes (units ".") (c :: w') && (2 <=? length (c :: w'))%nat).
  by intros [] [] [] [] [].
Qed.
End IsUnknown.

Section IsUnknownExample.
Import KhmerSegmenter IdealCost.

(** C7 (as stated) fails on the empty string: none of the known-token
    conditions holds for it, and [isUnknown] is false. *)
Lemma isUnknown_empty_string :
  let sg := without_dictionary None [] in
  spec_known sg [] = false ∧ isUnknown sg [] = false
  ∧ ¬ (isUnknown sg [] = true ↔ spec_known sg [] = false).
Proof.
  split; [reflexivity|]. split; [reflexivity|]. intros [_ Hr].
  discriminate Hr. reflexivity.
Qed.
End IsUnknownExample.

(** ** Cost table *)

Section LoadFrequencies.
Import KhmerSegmenter.
Context `{CostArith, UnicodeTables}.

Lemma freq_loop_total (entries : list (list Z * Z)) :
  ∀ ec total, (freq_loop entries ec total).2 = total + sum_eff entries.
Proof.
  induction entries as [|[w c] entries IH]; intros ec total; simpl; [lia|].
  rewrite IH. lia.
Qed.

Lemma sum_eff_pos (entries : list (list Z * Z)) : entries ≠ [] → 0 < sum_eff entries.
Proof.
  assert (∀ l, 0 <= sum_eff l) as Hnn.
  { induction l as [|e l IH]; simpl; lia. }
  destruct entries as [|e l]; [done|]. intros _. simpl. specialize (Hnn l). lia.
Qed.

Lemma obj_set_lookup {V : Type} (k : list Z) (v : V) (m : gmap (list Z) V)
    (w : list Z) (e : V) :
  obj_set k v m !! w = Some e → (w = k ∧ e = v) ∨ m !! w = Some e.
Proof.
  unfold obj_set. case_bool_decide; [by right|].
  rewrite lookup_insert. case_decide as Heq; [|by right].
  intros [= <-]. by left.
Qed.

Lemma variants_fold_source (vs : list (list Z)) (eff : Z) (P : list Z → Z → Prop) :
  ∀ ec : gmap (list Z) Z,
    (∀ w e, ec !! w = Some e → P w e) →
    (∀ v, v ∈ vs → P v eff) →
    ∀ w e,
      foldl (λ ec v, if obj_has v ec then ec else obj_set v eff ec) ec vs !! w = Some e →
      P w e.
Proof.
  induction vs as [|v vs IH]; intros ec Hec Hvs w e; simpl; [by apply Hec|].
  apply IH.
  - intros w' e'. destruct (obj_has v ec); [by apply Hec|].
    intros [[-> ->]|?]%obj_set_lookup; [|by apply Hec]. apply Hvs. by left.
  - intros v' Hv'. apply Hvs. by right.
Qed.

Lemma freq_loop_source (entries : list (list Z * Z)) :
  ∀ all ec total,
    entries ⊆ all →
    (∀ w e, ec !! w = Some e → eff_source all w e) →
    ∀ w e, (freq_loop entries ec total).1 !! w = Some e → eff_source all w e.
Proof.
  induction entries as [|[w0 c0] entries IH]; intros all ec total Hsub Hec w e; simpl;
    [by apply Hec|].
  apply IH; [set_solver|].
  apply variants_fold_source.
  - intros w' e'. intros [[-> ->]|?]%obj_set_lookup; [|by apply Hec].
    exists w0, c0. split_and!; [set_solver|done|by left].
  - intros v Hv. exists w0, c0. split_and!; [set_solver|done|by right].
Qed.

Lemma prob_pos (e total : Z) : 0 < e → 0 < total → (0 < prob e total)%Q.
Proof.
  intros He Ht. unfold prob. apply Qlt_shift_div_l.
  - replace 0%Q with (inject_Z 0) by done. by rewrite <-Zlt_Qlt.
  - rewrite Qmult_0_l. replace 0%Q with (inject_Z 0) by done. by rewrite <-Zlt_Qlt.
Qed.

(** C6 (as amended): for a non-empty frequency map, the normalizing total
    [T] is the sum of [eff = max(count, 5)] over the entries of the map
    itself; the generated variants get the [eff] of the word they come
    from but add nothing to [T].  Every entry [w] of the table, variant
    or not, has [eff(w) >= 5] taken from an entry of the map and cost
    [-log10(eff(w) / T)]; [defaultCost = -log10(5 / T)] and
    [unknownCost = defaultCost + 5]. *)
Theorem loadFrequencies_costs (entries : list (list Z * Z)) (sg : t) :
  entries ≠ [] →
  let table := (freq_loop entries ∅ 0).1 in
  let T := (freq_loop entries ∅ 0).2 in
  let sg' := _loadFrequencies (Some entries) sg in
  T = sum_eff entries
  ∧ defaultCost sg' = neg_log10 (prob 5 T)
  ∧ unknownCost sg' = cadd (neg_log10 (prob 5 T)) (clit 5)
  ∧ ∀ w eff, table !! w = Some eff →
      eff_source entries w eff ∧ 5 <= eff
      ∧ wordCosts sg' !! w = Some (neg_log10 (prob eff T)).
Proof.
  intros Hne. cbv zeta.
  pose proof (freq_loop_total entries ∅ 0) as HT.
  pose proof (freq_loop_source entries entries ∅ 0) as Hsource.
  unfold _loadFrequencies.
  destruct (freq_loop entries ∅ 0) as [table T] eqn:Hfl. simpl in *.
  assert (T = sum_eff entries) as HT' by lia.
  assert (0 < T) as HTpos by (rewrite HT'; by apply sum_eff_pos).
  replace (0 <? T) with true by (symmetry; by apply Z.ltb_lt).
  simpl. split_and!; [done..|].
  intros w eff Hw.
  assert (eff_source entries w eff) as Hsrc.
  { eapply Hsource; [done| |exact Hw]. intros ??. by rewrite lookup_empty. }
  assert (5 <= eff) as Heff by (destruct Hsrc as (? & ? & _ & -> & _); lia).
  split_and!; [done..|].
  apply lookup_union_Some_l. rewrite lookup_omap, Hw. simpl.
  destruct (Qlt_le_dec 0 (prob eff T)) as [|Hle]; [done|].
  exfalso. eapply Qlt_not_le; [|exact Hle]. apply prob_pos; lia.
Qed.
End LoadFrequencies.

Section LoadFrequenciesExample.
Import KhmerSegmenter IdealCost.

Lemma loadFrequencies_costs_witness :
  freq_example ≠ []
  ∧ (freq_loop freq_example ∅ 0).2 = sum_eff freq_example
  ∧ defaultCost (_loadFrequencies (Some freq_example) (without_dictionary None []))
    = neg_log10 (prob 5 (freq_loop freq_example ∅ 0).2).
Proof.
  split; [discriminate|].
  pose proof (loadFrequencies_costs freq_example (without_dictionary None [])) as Hw.
  simpl in Hw. destruct Hw as (HT & Hd & _); [discriminate|]. split; [exact HT|exact Hd].
Defined.

(** C6 (as stated) fails: the table has two entries of effective count
    10, the word and its variant, so the sum over the table is 20, while
    the total [T] that the costs are derived from is 10. *)
Lemma loadFrequencies_total_excludes_variants :
  (freq_loop freq_example ∅ 0).1 !! [0x1780; 0x17D2; 0x178F] = Some 10
  ∧ (freq_loop freq_example ∅ 0).1 !! [0x1780; 0x17D2; 0x178A] = Some 10
  ∧ table_sum (freq_loop freq_example ∅ 0).1 = 20
  ∧ (freq_loop freq_example ∅ 0).2 = 10
  ∧ (freq_loop freq_example ∅ 0).2 ≠ table_sum (freq_loop freq_example ∅ 0).1.
Proof. split_and!; [vm_compute; reflexivity..|]. vm_compute. discriminate. Qed.
End LoadFrequenciesExample.

(** ** Scanners: lengths stay within the text *)

Section Scanners.
Import KhmerSegmenter.

Lemma cluster_tail_le (s : list Z) : (cluster_tail s ≤ length s)%nat.
Proof.
  induction s as [s IH] using list_length_ind.
  destruct s as [|c rest]; simpl; [lia|].
  destruct (c =? 0x17D2).
  - destruct rest as [|d rest']; simpl; [lia|].
    destruct (_ && _); [|lia]. specialize (IH rest'). simpl in IH. lia.
  - destruct (_ || _ || _); [|lia]. specialize (IH rest). simpl in IH. lia.
Qed.

Lemma number_tail_le (s : list Z) : (number_tail s ≤ length s)%nat.
Proof.
  induction s as [s IH] using list_length_ind.
  destruct s as [|c rest]; simpl; [lia|].
  destruct (_isDigit c); [specialize (IH rest); simpl in IH; lia|].
  destruct (_ || _); [|lia].
  destruct rest as [|d rest']; simpl; [lia|].
  destruct (_isDigit d); [|lia]. specialize (IH rest'). simpl in IH. lia.
Qed.

Lemma drop_lookup (text : list Z) (i : nat) (c : Z) :
  text !! i = Some c →
  drop i text = c :: drop (S i) text ∧ (length (drop (S i) text) = length text - S i)%nat.
Proof. intros Hc. split; [by apply drop_S|]. by rewrite length_drop. Qed.

Lemma cluster_length_bounds (text : list Z) (i : nat) :
  (i < length text)%nat →
  (1 ≤ _getKhmerClusterLength text i ≤ length text - i)%nat.
Proof.
  intros Hi. destruct (lookup_lt_is_Some_2 text i Hi) as [c Hc].
  destruct (drop_lookup _ _ _ Hc) as [Hd Hl].
  unfold _getKhmerClusterLength. rewrite Hd.
  destruct (negb _); [lia|]. pose proof (cluster_tail_le (drop (S i) text)). lia.
Qed.

Lemma number_length_bounds (text : list Z) (i : nat) (c : Z) :
  text !! i = Some c → _isDigit c = true →
  ∃ len, _getNumberLength text i = Some len ∧ (1 ≤ len ≤ length text - i)%nat.
Proof.
  intros Hc Hdig. pose proof (lookup_lt_Some _ _ _ Hc) as Hi.
  destruct (drop_lookup _ _ _ Hc) as [Hd Hl].
  unfold _getNumberLength. rewrite Hd, Hdig. simpl. eexists. split; [done|].
  pose proof (number_tail_le (drop (S i) text)). lia.
Qed.

Lemma acronym_loop_bounds (text : list Z) (fuel : nat) :
  ∀ i, (i ≤ acronym_loop fuel text i ≤ i `max` length text)%nat.
Proof.
  induction fuel as [|fuel IH]; intros i; simpl; [lia|].
  destruct (text !! i) as [code|]; [|lia].
  destruct (negb _); [lia|]. destruct (0 <? _)%nat; [|lia].
  case_bool_decide as Hdot; [|lia].
  apply lookup_lt_Some in Hdot. specialize (IH (S (i + _getKhmerClusterLength text i))). lia.
Qed.

Lemma acronym_length_bounds (text : list Z) (i : nat) :
  _isAcronymStart text i = true →
  (1 ≤ _getAcronymLength text i ≤ length text - i)%nat.
Proof.
  unfold _isAcronymStart, _getAcronymLength.
  destruct (length text <=? i + 1)%nat eqn:Hlen; [done|].
  apply Nat.leb_gt in Hlen.
  destruct (text !! i) as [code|] eqn:Hc; [|done].
  destruct (negb (is_cluster_base code)) eqn:Hb; [done|].
  destruct (_getKhmerClusterLength text i =? 0)%nat eqn:Hz; [done|].
  apply Nat.eqb_neq in Hz. intros Hdot.
  destruct (length text) as [|fuel] eqn:Hn; [lia|]. simpl.
  rewrite Hc, Hb. replace (0 <? _)%nat with true by (symmetry; apply Nat.ltb_lt; lia).
  rewrite Hdot.
  pose proof (acronym_loop_bounds text fuel (S (i + _getKhmerClusterLength text i))) as Hb'.
  apply bool_decide_eq_true in Hdot. apply lookup_lt_Some in Hdot. lia.
Qed.
End Scanners.

(** ** The DP table: shape *)

Section DPShape.
Import KhmerSegmenter.
Context `{CostArith, UnicodeTables} (sg : t) (text : list Z).

Lemma bind_Some {A B : Type} (x : A) (f : A → option B) : Some x ≫= f = f x.
Proof. done. Qed.

Lemma relax_all_app (dp : list (cost * Z)) (i : nat) (l1 l2 : list (nat * (cost → cost))) :
  relax_all dp i (l1 ++ l2) = relax_all dp i l1 ≫= λ dp', relax_all dp' i l2.
Proof.
  revert dp. induction l1 as [|[j f] l1 IH]; intros dp; simpl; [done|].
  destruct (relax dp i j f); simpl; [apply IH|done].
Qed.

Lemma relax_all_single (dp : list (cost * Z)) (i j : nat) (f : cost → cost) :
  relax_all dp i [(j, f)] = relax dp i j f.
Proof. simpl. by destruct (relax dp i j f). Qed.

Lemma relax_length (dp dp' : list (cost * Z)) (i j : nat) (f : cost → cost) :
  relax dp i j f = Some dp' → length dp' = length dp.
Proof.
  unfold relax. destruct (dp !! i) as [ci|]; [|done].
  destruct (dp !! j) as [old|]; [|done]. cbn. intros [= <-].
  destruct (clt _ _); [by rewrite length_insert|done].
Qed.

Lemma relax_all_length (i : nat) (props : list (nat * (cost → cost))) :
  ∀ dp dp', relax_all dp i props = Some dp' → length dp' = length dp.
Proof.
  induction props as [|[j f] props IH]; intros dp dp'; cbn [relax_all].
  - by intros [= <-].
  - destruct (relax dp i j f) as [dp1|] eqn:Hr; [|done]. rewrite bind_Some.
    intros ->%IH. by eapply relax_length.
Qed.

(** The dictionary loop relaxes the words whose cost is a number; for
    the others it only reads cells, which exist. *)
Lemma dict_loop_proposals (i : nat) (js : list nat) :
  ∀ dp, (i < length dp)%nat → Forall (λ j, (j < length dp)%nat) js →
    dict_loop sg text i js dp = relax_all dp i (dict_proposals sg text i js).
Proof.
  induction js as [|j js IH]; intros dp Hi Hjs; [done|].
  apply Forall_cons_1 in Hjs as [Hj Hjs]. cbn [dict_loop dict_proposals omap list_omap].
  cbv zeta. destruct (bool_decide (slice text i j ∈ words sg)); [|by apply IH].
  destruct (getWordCost sg (slice text i j)) as [wordCost|].
  - cbn [relax_all]. destruct (relax dp i j _) as [dp1|] eqn:Hr; [|done].
    rewrite !bind_Some. apply relax_length in Hr. apply IH; by rewrite Hr.
  - destruct (lookup_lt_is_Some_2 dp i Hi) as [ci ->].
    destruct (lookup_lt_is_Some_2 dp j Hj) as [cj ->]. rewrite !bind_Some.
    by apply IH.
Qed.

Lemma proposals_in_range (i : nat) (cur : Z) :
  text !! i = Some cur →
  Forall (λ p, (i < p.1 ≤ length text)%nat) (proposals sg text i cur).
Proof.
  intros Hcur. pose proof (lookup_lt_Some _ _ _ Hcur) as Hi.
  unfold proposals. destruct (force_repair text i cur).
  { repeat constructor; simpl; lia. }
  repeat apply Forall_app_2.
  - destruct (_isDigit cur) eqn:Hd.
    + destruct (number_length_bounds _ _ _ Hcur Hd) as (len & -> & ?).
      repeat constructor; simpl; lia.
    + destruct (_isSeparator [cur]); repeat constructor; simpl; lia.
  - destruct (_isAcronymStart text i) eqn:Ha; [|constructor].
    apply acronym_length_bounds in Ha. repeat constructor; simpl; lia.
  - unfold dict_proposals. apply Forall_forall. intros [j f] Hin.
    apply list_elem_of_omap in Hin as (j' & Hj' & Hsome).
    apply elem_of_seq in Hj'. case_bool_decide; [|done].
    destruct (getWordCost sg _); simplify_eq/=. lia.
  - constructor; [|constructor]. unfold unknown_proposal.
    pose proof (cluster_length_bounds text i Hi).
    destruct (_isKhmerChar cur); simpl; lia.
Qed.

(** The loop body is the relaxation of the proposed transitions, unless
    the position is unreachable. *)
Lemma segment_step_proposals (i : nat) (cur : Z) (dp : list (cost * Z)) (ci : cost * Z) :
  text !! i = Some cur → dp !! i = Some ci → length dp = S (length text) →
  segment_step sg text i dp
  = if is_inf ci.1 then Some dp else relax_all dp i (proposals sg text i cur).
Proof.
  intros Hcur Hci Hlen. pose proof (lookup_lt_Some _ _ _ Hcur) as Hi.
  pose proof (proposals_in_range i cur Hcur) as Hrange.
  unfold segment_step. rewrite Hci, bind_Some. destruct (is_inf ci.1); [done|].
  rewrite Hcur, bind_Some. unfold proposals in *.
  destruct (force_repair text i cur).
  { rewrite relax_all_single. unfold relax_guarded.
    by replace (i + 1 <=? length text)%nat with true by (symmetry; apply Nat.leb_le; lia). }
  rewrite relax_all_app.
  assert ((if _isDigit cur
           then _getNumberLength text i ≫= λ numLen,
                  relax dp i (i + numLen)%nat (λ c, cadd c (clit 1))
           else if _isSeparator [cur]
                then relax dp i (i + 1)%nat (λ c, cadd c (clit 0.1)) else Some dp)
          = relax_all dp i
              (if _isDigit cur
               then [((i + default O (_getNumberLength text i))%nat, λ c, cadd c (clit 1))]
               else if _isSeparator [cur]
                    then [((i + 1)%nat, λ c, cadd c (clit 0.1))] else [])) as ->.
  { destruct (_isDigit cur) eqn:Hd.
    - destruct (number_length_bounds _ _ _ Hcur Hd) as (len & -> & ?).
      rewrite bind_Some. by rewrite relax_all_single.
    - destruct (_isSeparator [cur]); [|done]. by rewrite relax_all_single. }
  destruct (relax_all dp i _) as [dp1|] eqn:Hdp1; [|done]. rewrite !bind_Some.
  apply relax_all_length in Hdp1.
  rewrite relax_all_app.
  assert ((if _isAcronymStart text i
           then relax dp1 i (i + _getAcronymLength text i)%nat (λ c, cadd c (defaultCost sg))
           else Some dp1)
          = relax_all dp1 i
              (if _isAcronymStart text i
               then [((i + _getAcronymLength text i)%nat, λ c, cadd c (defaultCost sg))]
               else [])) as ->.
  { destruct (_isAcronymStart text i); [|done]. by rewrite relax_all_single. }
  destruct (relax_all dp1 i _) as [dp2|] eqn:Hdp2; [|done]. rewrite !bind_Some.
  apply relax_all_length in Hdp2.
  rewrite relax_all_app, dict_loop_proposals.
  2:{ lia. }
  2:{ apply Forall_forall. intros j Hj%elem_of_seq. lia. }
  destruct (relax_all dp2 i _) as [dp3|]; [|done]. rewrite !bind_Some.
  pose proof (cluster_length_bounds text i Hi) as Hcl.
  unfold unknown_proposal. destruct (_isKhmerChar cur).
  - rewrite relax_all_single. unfold relax_guarded.
    by replace (_ <=? length text)%nat with true by (symmetry; apply Nat.leb_le; lia).
  - rewrite relax_all_single. unfold relax_guarded.
    by replace (_ <=? length text)%nat with true by (symmetry; apply Nat.leb_le; lia).
Qed.

(** Relaxing transitions to targets in [(i, n]] always succeeds; it leaves
    the cells up to [i] alone, and a cell it changes gets [prev = i]. *)
Lemma relax_all_shape (i : nat) (ci : cost * Z) (props : list (nat * (cost → cost))) :
  Forall (λ p, (i < p.1 ≤ length text)%nat) props →
  ∀ dp, length dp = S (length text) → dp !! i = Some ci →
    ∃ dp', relax_all dp i props = Some dp'
      ∧ length dp' = S (length text)
      ∧ (∀ k, (k ≤ i)%nat → dp' !! k = dp !! k)
      ∧ (∀ k cell', dp' !! k = Some cell' →
           dp !! k = Some cell'
           ∨ ∃ f, (k, f) ∈ props ∧ cell' = (f ci.1, Z.of_nat i)).
Proof.
  induction 1 as [|[j f] props Hj _ IH]; intros dp Hlen Hci; simpl in *.
  { exists dp. split_and!; [done..|]. by left. }
  destruct (lookup_lt_is_Some_2 dp j) as [old Hold]; [lia|].
  unfold relax. rewrite Hci, Hold. simpl.
  set (dp1 := if clt (f ci.1) old.1 then <[j := (f ci.1, Z.of_nat i)]> dp else dp).
  assert (length dp1 = S (length text)) as Hlen1.
  { unfold dp1. destruct (clt _ _); [by rewrite length_insert|done]. }
  assert (∀ k, k ≠ j → dp1 !! k = dp !! k) as Hframe.
  { intros k Hk. unfold dp1. destruct (clt _ _); [|done].
    by rewrite list_lookup_insert_ne. }
  assert (∀ cell, dp1 !! j = Some cell → cell = old ∨ cell = (f ci.1, Z.of_nat i)) as Hj1.
  { intros cell. unfold dp1. destruct (clt _ _).
    - rewrite list_lookup_insert_eq by lia. intros [= <-]. by right.
    - rewrite Hold. intros [= <-]. by left. }
  destruct (IH dp1 Hlen1) as (dp' & Hdp' & Hlen' & Hlow & Hcells).
  { rewrite Hframe by lia. done. }
  exists dp'. split_and!; [done..| |].
  - intros k Hk. rewrite Hlow by done. apply Hframe. lia.
  - intros k cell' Hk. destruct (Hcells k cell' Hk) as [Hk1 | (f' & Hin & ->)].
    + destruct (decide (k = j)) as [->|Hne].
      * destruct (Hj1 _ Hk1) as [-> | ->]; [by left|]. right. exists f. split; [|done].
        set_solver.
      * left. by rewrite <-Hframe.
    + right. exists f'. split; [set_solver|done].
Qed.

Lemma segment_step_shape (i : nat) (dp : list (cost * Z)) :
  (i < length text)%nat → wf_dp text dp →
  ∃ dp', segment_step sg text i dp = Some dp' ∧ wf_dp text dp'
    ∧ (∀ k, (k ≤ i)%nat → dp' !! k = dp !! k).
Proof.
  intros Hi [Hlen Hprev].
  destruct (lookup_lt_is_Some_2 text i Hi) as [cur Hcur].
  destruct (lookup_lt_is_Some_2 dp i) as [ci Hci]; [lia|].
  rewrite (segment_step_proposals i cur dp ci) by done.
  destruct (is_inf ci.1). { exists dp. by repeat split. }
  pose proof (proposals_in_range i cur Hcur) as Hrange.
  destruct (relax_all_shape i ci _ Hrange dp Hlen Hci) as (dp' & -> & Hlen' & Hlow & Hcells).
  exists dp'. split_and!; [done| |done]. split; [done|].
  intros k cell' Hk. destruct (Hcells k cell' Hk) as [Hk0 | (f & Hin & ->)].
  - by eapply Hprev.
  - rewrite Forall_forall in Hrange. apply Hrange in Hin. simpl in *. lia.
Qed.

Lemma dp_loop_shape (m : nat) :
  ∀ a dp, (a + m ≤ length text)%nat → wf_dp text dp →
    ∃ dp', dp_loop sg text (seq a m) dp = Some dp' ∧ wf_dp text dp'.
Proof.
  induction m as [|m IH]; intros a dp Ham Hwf; simpl; [by exists dp|].
  destruct (segment_step_shape a dp) as (dp1 & -> & Hwf1 & _); [lia|done|].
  simpl. apply IH; [lia|done].
Qed.

Lemma dp_init_wf : wf_dp text (dp_init (length text)).
Proof.
  unfold dp_init. split.
  - rewrite length_insert, length_replicate. lia.
  - intros k cell. destruct k as [|k]; simpl.
    + rewrite Nat.add_1_r. simpl. intros [= <-]. by left.
    + rewrite Nat.add_1_r. simpl. intros Hk%lookup_replicate_1. destruct Hk as [-> _].
      by left.
Qed.

Lemma dp_table_shape : ∃ dp, dp_table sg text = Some dp ∧ wf_dp text dp.
Proof. apply dp_loop_shape; [simpl; lia|apply dp_init_wf]. Qed.
End DPShape.

(** ** Backtrack, rule engine and grouper preserve the text *)

Section Cover.
Import RuleBasedEngine KhmerSegmenter.
Context `{CostArith, UnicodeTables} (sg : t).

Lemma take_slice (text : list Z) (p curr : nat) :
  (p ≤ curr)%nat → take p text ++ slice text p curr = take curr text.
Proof.
  intros Hp. unfold slice. rewrite take_take_drop. f_equal. lia.
Qed.

Lemma slice_nonempty (text : list Z) (p curr : nat) :
  (p < curr ≤ length text)%nat → slice text p curr ≠ [].
Proof.
  intros Hp Hnil. apply (f_equal length) in Hnil. unfold slice in Hnil.
  rewrite length_take, length_drop in Hnil. simpl in Hnil. lia.
Qed.

Lemma join_nonempty_length (l : list (list Z)) :
  all_nonempty l → (length l ≤ length (join l))%nat.
Proof.
  induction 1 as [|s l Hs _ IH]; simpl; [lia|].
  change (join (s :: l)) with (s ++ join l). rewrite length_app.
  destruct s; [done|]. simpl. lia.
Qed.

Lemma join_nonempty (l : list (list Z)) : all_nonempty l → l ≠ [] → join l ≠ [].
Proof.
  destruct 1 as [|s l Hs _]; [done|]. intros _.
  change (join (s :: l)) with (s ++ join l). by destruct s.
Qed.

(** The backtrack returns, in reverse, an exact cover of [text[0..curr)]
    by non-empty slices. *)
Lemma backtrack_cover (text : list Z) (dp : list (cost * Z)) :
  wf_dp text dp →
  ∀ fuel curr acc, (curr ≤ fuel)%nat → (curr ≤ length text)%nat →
    ∃ segs, backtrack fuel text dp curr acc = Some (acc ++ segs)
      ∧ join (reverse segs) = take curr text ∧ all_nonempty segs.
Proof.
  intros [Hlen Hprev]. induction fuel as [|fuel IH]; intros curr acc Hfuel Hcurr.
  { assert (curr = O) as -> by lia. exists []. simpl. rewrite app_nil_r.
    split_and!; [done|done|constructor]. }
  destruct curr as [|c].
  { exists []. simpl. rewrite app_nil_r. split_and!; [done|done|constructor]. }
  simpl. destruct (lookup_lt_is_Some_2 dp (S c)) as [cell Hcell]; [lia|].
  rewrite Hcell. simpl. rewrite Nat.sub_0_r.
  destruct (Hprev _ _ Hcell) as [Hm | Hp].
  - rewrite Hm. simpl.
    destruct (IH c (acc ++ [slice text c (S c)])) as (segs & -> & Hjoin & Hne); [lia..|].
    exists (slice text c (S c) :: segs). split_and!.
    + by rewrite <-app_assoc.
    + rewrite reverse_cons. unfold join in *. rewrite join_app, Hjoin. simpl.
      rewrite app_nil_r. apply take_slice. lia.
    + constructor; [|done]. apply slice_nonempty. lia.
  - replace (cell.2 =? -1) with false by (symmetry; apply Z.eqb_neq; lia).
    destruct (IH (Z.to_nat cell.2) (acc ++ [slice text (Z.to_nat cell.2) (S c)]))
      as (segs & -> & Hjoin & Hne); [lia..|].
    exists (slice text (Z.to_nat cell.2) (S c) :: segs). split_and!.
    + by rewrite <-app_assoc.
    + rewrite reverse_cons. unfold join in *. rewrite join_app, Hjoin. simpl.
      rewrite app_nil_r. apply take_slice. lia.
    + constructor; [|done]. apply slice_nonempty. lia.
Qed.

(** The rule engine's loop keeps the concatenation of the tokens, and
    keeps every token non-empty. *)
Lemma apply_loop_preserves (f g : list Z → bool) (rs : list rule) (fuel : nat) :
  ∀ st out, apply_loop f g rs fuel st = Some out →
    join out = join st.1 ∧ (all_nonempty st.1 → all_nonempty out).
Proof.
  induction fuel as [|fuel IH]; intros [segments i] out; cbn [apply_loop].
  - destruct (apply_step f g rs (segments, i)); [done|]. by intros [= <-].
  - destruct (apply_step f g rs (segments, i)) as [st'|] eqn:Hstep;
      [|by intros [= <-]].
    intros Hout. destruct (IH _ _ Hout) as [Hj Hne].
    apply apply_step_cases in Hstep as [_ [(pre & a & b & post & -> & Hs & _) | ->]];
      [|done].
    rewrite Hj, Hs. cbn [fst]. split.
    + unfold join. rewrite !join_app. simpl. by rewrite <-app_assoc.
    + intros Hall. apply Hne. rewrite Hs.
      apply Forall_app in Hall as [Hpre Hrest].
      apply Forall_cons_1 in Hrest as [Ha Hrest].
      apply Forall_cons_1 in Hrest as [Hb Hpost].
      apply Forall_app. split; [done|]. constructor; [|done]. by destruct a.
Qed.

Lemma flush_unknown_join (final buf : list (list Z)) :
  join (flush_unknown final buf) = join final ++ join buf.
Proof.
  destruct buf as [|b buf]; simpl; [by rewrite app_nil_r|].
  unfold join. rewrite join_app. simpl. by rewrite app_nil_r.
Qed.

Lemma flush_unknown_nonempty (final buf : list (list Z)) :
  all_nonempty final → all_nonempty buf → all_nonempty (flush_unknown final buf).
Proof.
  intros Hf Hb. destruct buf as [|b buf]; [done|]. simpl.
  apply Forall_app. split; [done|]. constructor; [|constructor].
  by apply join_nonempty.
Qed.

(** The grouper never meets an empty token, keeps the concatenation, and
    returns non-empty tokens. *)
Lemma group_loop_preserves (segs : list (list Z)) :
  all_nonempty segs →
  ∀ final buf, all_nonempty buf →
    ∃ out, group_loop sg segs final buf = Some out
      ∧ join out = join final ++ join buf ++ join segs
      ∧ (all_nonempty final → all_nonempty out).
Proof.
  induction 1 as [|seg rest Hseg _ IH]; intros final buf Hbuf; simpl.
  { eexists. split; [done|]. rewrite flush_unknown_join. split.
    - by rewrite app_nil_r.
    - intros ?. by apply flush_unknown_nonempty. }
  destruct seg as [|c seg']; [done|]. simpl.
  destruct (is_known sg (c :: seg') c).
  - destruct (IH (flush_unknown final buf ++ [c :: seg']) []) as (out & -> & Hj & Hne);
      [constructor|].
    exists out. split; [done|]. split.
    + rewrite Hj. unfold join. rewrite join_app. fold (join (flush_unknown final buf)).
      rewrite flush_unknown_join. simpl. by rewrite app_nil_r, <-!app_assoc.
    + intros Hf. apply Hne. apply Forall_app. split.
      * by apply flush_unknown_nonempty.
      * by repeat constructor.
  - destruct (last buf) as [lastSeg|] eqn:Hlast.
    + assert (lastSeg ≠ []) as HlastSeg.
      { apply last_Some in Hlast as [buf' ->]. apply Forall_app in Hbuf as [_ Hl].
        by apply Forall_cons_1 in Hl as [? _]. }
      destruct lastSeg as [|lc lastSeg']; [done|]. simpl.
      destruct (negb _).
      * destruct (IH (final ++ [join buf]) [c :: seg']) as (out & -> & Hj & Hne);
          [by repeat constructor|].
        exists out. split; [done|]. split.
        -- rewrite Hj. unfold join. rewrite join_app. simpl.
           by rewrite !app_nil_r, <-!app_assoc.
        -- intros Hf. apply Hne. apply Forall_app. split; [done|].
           constructor; [|constructor]. apply join_nonempty; [done|].
           intros ->. done.
      * destruct (IH final (buf ++ [c :: seg'])) as (out & -> & Hj & Hne).
        { apply Forall_app. split; [done|]. by repeat constructor. }
        exists out. split; [done|]. split; [|done].
        rewrite Hj. unfold join. rewrite join_app. simpl.
        by rewrite !app_nil_r, <-!app_assoc.
    + apply last_None in Hlast as ->.
      destruct (IH final [c :: seg']) as (out & -> & Hj & Hne);
        [by repeat constructor|].
      exists out. split; [done|]. split; [|done].
      rewrite Hj. unfold join. simpl. by rewrite !app_nil_r.
Qed.

(** The raw segmentation: the DP table exists, and the backtrack covers
    the normalized text with non-empty slices. *)
Lemma raw_segments_cover (text : list Z) (fuel : nat) :
  (length text ≤ fuel)%nat →
  ∃ dp segs, dp_table sg text = Some dp ∧ wf_dp text dp
    ∧ backtrack fuel text dp (length text) [] = Some segs
    ∧ join (reverse segs) = text ∧ all_nonempty (reverse segs).
Proof.
  intros Hfuel. destruct (dp_table_shape sg text) as (dp & Hdp & Hwf).
  destruct (backtrack_cover text dp Hwf fuel (length text) []) as (segs & Hb & Hj & Hne);
    [lia..|].
  exists dp, segs. split_and!; [done..| |].
  - by rewrite Hj, firstn_all.
  - unfold all_nonempty. by rewrite Forall_reverse.
Qed.

(** [segment] returns tokens, they concatenate to the normalized text,
    and none of them is empty. *)
Lemma segment_cover (x : list Z) (disablePostProcessing : bool) (extra : nat) :
  ∃ toks,
    segment sg (2 * length (KhmerNormalizer.normalize x) + extra) x disablePostProcessing
    = Some toks
    ∧ join toks = KhmerNormalizer.normalize x ∧ all_nonempty toks.
Proof.
  unfold segment. set (text := KhmerNormalizer.normalize x).
  set (fuel := (2 * length text + extra)%nat).
  destruct (length text =? 0)%nat eqn:Hn.
  { apply Nat.eqb_eq, nil_length_inv in Hn. exists []. rewrite Hn.
    split_and!; [done|done|constructor]. }
  destruct (raw_segments_cover text fuel) as (dp & segs & Hdp & _ & Hbt & Hj & Hne);
    [lia|].
  rewrite Hdp, bind_Some, Hbt, bind_Some.
  destruct disablePostProcessing; [by exists (reverse segs)|].
  destruct (apply_loop_terminates (_isInvalidSingle sg) _isSeparator (rules sg) fuel
              (reverse segs, O)) as [pass2 Hp2].
  { simpl. lia. }
  { unfold apply_measure. simpl. pose proof (join_nonempty_length _ Hne) as Hl.
    rewrite Hj in Hl. lia. }
  unfold applyRules. rewrite Hp2, bind_Some.
  apply apply_loop_preserves in Hp2 as [Hj2 Hne2]. cbn [fst] in *.
  destruct (group_loop_preserves pass2 (Hne2 Hne) [] []) as (out & -> & Hjo & Hneo);
    [constructor|].
  exists out. split; [done|]. split.
  - rewrite Hjo. simpl. congruence.
  - apply Hneo. constructor.
Qed.

(** C1: with post-processing enabled, [segment(x)] returns a token list
    whose concatenation is [normalize(x)]. *)
Theorem segment_concat_is_normalize (x : list Z) (extra : nat) :
  ∃ toks,
    segment sg (2 * length (KhmerNormalizer.normalize x) + extra) x false = Some toks
    ∧ join toks = KhmerNormalizer.normalize x.
Proof.
  destruct (segment_cover x false extra) as (toks & ? & ? & _). by exists toks.
Qed.

(** C10: for both settings of [disablePostProcessing], [segment] returns
    a token list (no access to the first character of a token is out of
    bounds) and every token in it is a non-empty string. *)
Theorem segment_tokens_nonempty (x : list Z) (disablePostProcessing : bool) (extra : nat) :
  ∃ toks,
    segment sg (2 * length (KhmerNormalizer.normalize x) + extra) x disablePostProcessing
    = Some toks
    ∧ all_nonempty toks.
Proof.
  destruct (segment_cover x disablePostProcessing extra) as (toks & ? & _ & ?).
  by exists toks.
Qed.
End Cover.

(** ** The DP table: order and finiteness *)

Section CostOrder.
Context `{CostArith} `{!CostLaws}.

Lemma clt_irrefl (a : cost) : clt a a = false.
Proof. destruct (clt a a) eqn:Ha; [|done]. by rewrite (clt_asym _ _ Ha) in Ha. Qed.

Lemma clt_trans (a b c : cost) : clt a b = true → clt b c = true → clt a c = true.
Proof.
  intros Hab Hbc. destruct (clt a c) eqn:Hac; [done|].
  pose proof (clt_negtrans _ _ _ Hac (clt_asym _ _ Hbc)) as Hn. congruence.
Qed.

(** [b <= a] and [a] finite give [b] finite. *)
Lemma finite_below (a b : cost) : clt a b = false → finite a → finite b.
Proof.
  unfold finite. intros Hab Ha. destruct (clt b cinf) eqn:Hb; [done|].
  pose proof (clt_negtrans _ _ _ Hab Hb). congruence.
Qed.

Lemma finite_not_inf (a : cost) : finite a → is_inf a = false.
Proof.
  unfold finite. intros Ha. destruct (is_inf a) eqn:Hi; [|done].
  apply is_inf_cinf in Hi as ->. by rewrite cinf_top in Ha.
Qed.

Lemma is_inf_top (a b : cost) : is_inf a = true → clt a b = false.
Proof. intros ->%is_inf_cinf. apply cinf_top.
Qed.
End CostOrder.

Section DPOrder.
Import KhmerSegmenter.
Context `{CostArith, UnicodeTables} `{!CostLaws} (sg : t) (text : list Z).

(** Relaxation only lowers cells, and leaves every proposed target at
    most as costly as the proposal. *)
Lemma relax_all_order (i : nat) (ci : cost * Z) (props : list (nat * (cost → cost))) :
  Forall (λ p, (i < p.1 ≤ length text)%nat) props →
  ∀ dp dp', length dp = S (length text) → dp !! i = Some ci →
    relax_all dp i props = Some dp' →
    length dp' = S (length text)
    ∧ (∀ k old new, dp !! k = Some old → dp' !! k = Some new → clt old.1 new.1 = false)
    ∧ (∀ j f, (j, f) ∈ props → ∃ new, dp' !! j = Some new ∧ clt (f ci.1) new.1 = false).
Proof.
  induction 1 as [|[j f] props Hj _ IH]; intros dp dp' Hlen Hci; simpl in *.
  { intros [= <-]. split_and!; [done| |by intros ?? ?%elem_of_nil].
    intros k old new Ho Hn. simplify_eq. apply clt_irrefl. }
  destruct (lookup_lt_is_Some_2 dp j) as [old Hold]; [lia|].
  unfold relax. rewrite Hci, Hold, !bind_Some.
  set (dp1 := if clt (f ci.1) old.1 then <[j := (f ci.1, Z.of_nat i)]> dp else dp).
  intros Hdp'.
  assert (length dp1 = S (length text)) as Hlen1.
  { unfold dp1. destruct (clt _ _); [by rewrite length_insert|done]. }
  assert (dp1 !! i = Some ci) as Hci1.
  { unfold dp1. destruct (clt _ _); [|done]. rewrite list_lookup_insert_ne by lia. done. }
  assert (∀ k o n1, dp !! k = Some o → dp1 !! k = Some n1 → clt o.1 n1.1 = false) as Hm1.
  { intros k o n1 Ho. unfold dp1. destruct (clt (f ci.1) old.1) eqn:Hlt.
    - destruct (decide (k = j)) as [->|Hne].
      + rewrite list_lookup_insert_eq by lia. intros [= <-]. simplify_eq. simpl.
        by apply clt_asym.
      + rewrite list_lookup_insert_ne by done. intros ?. simplify_eq. apply clt_irrefl.
    - intros ?. simplify_eq. apply clt_irrefl. }
  assert (∃ n1, dp1 !! j = Some n1 ∧ clt (f ci.1) n1.1 = false) as (n1 & Hn1 & Hopt1).
  { unfold dp1. destruct (clt (f ci.1) old.1) eqn:Hlt.
    - eexists. rewrite list_lookup_insert_eq by lia. split; [done|]. apply clt_irrefl.
    - by exists old. }
  destruct (IH dp1 dp' Hlen1 Hci1 Hdp') as (Hlen' & Hm & Hopt).
  split_and!; [done| |].
  - intros k o n' Ho Hn'.
    destruct (lookup_lt_is_Some_2 dp1 k) as [n1' Hn1'].
    { apply lookup_lt_Some in Ho. lia. }
    eapply clt_negtrans; [by eapply Hm1|by eapply Hm].
  - intros j' f' [[= -> ->]|Hin]%elem_of_cons; [|by apply Hopt].
    destruct (lookup_lt_is_Some_2 dp' j) as [n' Hn']; [lia|].
    exists n'. split; [done|]. eapply clt_negtrans; [exact Hopt1|by eapply Hm].
Qed.

(** From a reachable position the loop body proposes a forward
    transition of finite cost: the forced repair, or else the unknown
    fallback. *)
Lemma proposals_finite (i : nat) (cur : Z) (c : cost) :
  finite (unknownCost sg) → finite c →
  ∃ j f, (j, f) ∈ proposals sg text i cur ∧ finite (f c).
Proof.
  intros Hu Hc. unfold proposals. destruct (force_repair text i cur).
  - eexists _, _. split; [by left|]. simpl.
    repeat apply cadd_finite; auto using clit_finite.
  - destruct (unknown_proposal sg text i cur) as [j f] eqn:Hup. exists j, f. split.
    + rewrite !elem_of_app. do 3 right. by left.
    + unfold unknown_proposal in Hup.
      destruct (_isKhmerChar cur); simplify_eq; [|by apply cadd_finite].
      apply cadd_finite; [done|].
      destruct (_ && _); [|done]. apply cadd_finite; auto using clit_finite.
Qed.

Lemma segment_step_finite (i : nat) (dp dp' : list (cost * Z)) :
  finite (unknownCost sg) →
  (i < length text)%nat → wf_dp text dp →
  finite_ahead (length text) i dp →
  segment_step sg text i dp = Some dp' →
  finite_ahead (length text) (S i) dp'.
Proof.
  intros Hu Hi [Hlen _] (j & cell & Hj & Hcell & Hfin) Hstep.
  destruct (lookup_lt_is_Some_2 text i Hi) as [cur Hcur].
  destruct (lookup_lt_is_Some_2 dp i) as [ci Hci]; [lia|].
  rewrite (segment_step_proposals sg text i cur dp ci) in Hstep by done.
  pose proof (proposals_in_range sg text i cur Hcur) as Hrange.
  destruct (decide (j = i)) as [->|Hne].
  - assert (ci = cell) as -> by congruence.
    rewrite (finite_not_inf _ Hfin) in Hstep.
    destruct (relax_all_order i cell _ Hrange dp dp' Hlen Hci Hstep) as (Hlen' & _ & Hopt).
    destruct (proposals_finite i cur cell.1 Hu Hfin) as (ju & fu & Hin & Hfu).
    destruct (Hopt ju fu Hin) as (new & Hnew & Hle).
    rewrite Forall_forall in Hrange. apply Hrange in Hin. simpl in Hin.
    exists ju, new. split_and!; [lia..|done|]. by eapply finite_below.
  - destruct (is_inf ci.1).
    { simplify_eq. exists j, cell. split_and!; [lia..|done|done]. }
    destruct (relax_all_order i ci _ Hrange dp dp' Hlen Hci Hstep) as (Hlen' & Hm & _).
    destruct (lookup_lt_is_Some_2 dp' j) as [new Hnew]; [lia|].
    exists j, new. split_and!; [lia..|done|]. eapply finite_below; [|exact Hfin].
    by eapply Hm.
Qed.

Lemma dp_loop_finite (m : nat) :
  finite (unknownCost sg) →
  ∀ a dp dp', (a + m ≤ length text)%nat → wf_dp text dp →
    finite_ahead (length text) a dp →
    dp_loop sg text (seq a m) dp = Some dp' →
    finite_ahead (length text) (a + m) dp'.
Proof.
  intros Hu. induction m as [|m IH]; intros a dp dp' Ham Hwf Hfin; simpl.
  { intros [= <-]. by rewrite Nat.add_0_r. }
  destruct (segment_step_shape sg text a dp) as (dp1 & Hstep & Hwf1 & _); [lia|done|].
  rewrite Hstep, bind_Some. intros Hloop.
  replace (a + S m)%nat with (S a + m)%nat by lia.
  eapply IH; [lia|exact Hwf1| |exact Hloop].
  eapply segment_step_finite; [done|lia|exact Hwf|exact Hfin|exact Hstep].
Qed.

(** The cost of the last cell of the table is finite. *)
Lemma dp_table_finite (dp : list (cost * Z)) :
  finite (unknownCost sg) → dp_table sg text = Some dp →
  ∃ cell, dp !! length text = Some cell ∧ finite cell.1.
Proof.
  intros Hu Hdp.
  destruct (dp_loop_finite (length text) Hu O (dp_init (length text)) dp)
    as (j & cell & Hj & Hcell & Hfin); [simpl; lia|apply dp_init_wf| |exact Hdp|].
  - exists O, (clit 0, -1). split_and!; [lia..| |apply clit_finite].
    unfold dp_init. rewrite Nat.add_1_r. done.
  - simpl in Hj. assert (j = length text) as -> by lia. eauto.
Qed.

End DPOrder.

Section NeverFails.
Import KhmerSegmenter.
Context `{CostArith, UnicodeTables} (sg : t).

(** C2 (as amended): segmentation never raises.  For every state of
    the segmenter and every input, [segment] returns a token list: the
    empty list when the normalized text is empty; otherwise the DP loop
    completes, the backtrack terminates and the list is returned.  The
    cost in [dp[n]] is finite when [unknownCost] is finite and the
    numbers obey the laws of [CostLaws]. *)
Theorem segment_never_fails (x : list Z) (disablePostProcessing : bool) (extra : nat) :
  let normalized := KhmerNormalizer.normalize x in
  let fuel := (2 * length normalized + extra)%nat in
  (normalized = [] → segment sg fuel x disablePostProcessing = Some [])
  ∧ (normalized ≠ [] →
     ∃ dp cell segments toks,
       dp_table sg normalized = Some dp
       ∧ dp !! length normalized = Some cell
       ∧ backtrack fuel normalized dp (length normalized) [] = Some segments
       ∧ segment sg fuel x disablePostProcessing = Some toks
       ∧ (CostLaws → finite (unknownCost sg) → finite cell.1)).
Proof.
  intros normalized fuel. split.
  - intros Hnil. unfold segment. fold normalized. by rewrite Hnil.
  - intros _.
    destruct (raw_segments_cover sg normalized fuel)
      as (dp & segs & Hdp & [Hlen _] & Hbt & _); [unfold fuel; lia|].
    destruct (lookup_lt_is_Some_2 dp (length normalized)) as [cell Hcell]; [lia|].
    destruct (segment_cover sg x disablePostProcessing extra) as (toks & Hseg & _).
    exists dp, cell, segs, toks. split_and!; [done..|].
    intros Hlaws Hu.
    destruct (dp_table_finite sg normalized dp Hu Hdp) as (cell' & Hcell' & Hfin).
    by assert (cell' = cell) as <- by congruence.
Qed.
End NeverFails.

(** ** The exact cost instance obeys the laws *)

Section IdealCostLaws.
Import IdealCost.

#[export] Instance ideal_laws : CostLaws.
Proof.
  split.
  - intros [x|] [y|]; simpl; try done.
    rewrite negb_true_iff, negb_false_iff. intros Hyx.
    apply Qle_bool_iff, Qlt_le_weak, Qnot_le_lt. intros Hle.
    apply Qle_bool_iff in Hle. congruence.
  - intros [x|] [y|] [z|]; simpl; try done.
    rewrite !negb_false_iff, !Qle_bool_iff. intros Hyx Hzy.
    eapply Qle_trans; [exact Hzy|exact Hyx].
  - done.
  - intros [x|]; simpl; split; done.
  - intros [x|] [y|] [z|]; simpl; try done.
    rewrite !negb_false_iff, !Qle_bool_iff. intros ?.
    apply Qplus_le_compat; [done|apply Qle_refl].
  - done.
  - by intros [x|] [y|].
  - done.
Qed.
End IdealCostLaws.

Section NeverFailsExample.
Import KhmerSegmenter IdealCost.

(** Scenario S3 of the specification, run on the model. *)
Example segment_digit_grouping :
  segment (without_dictionary None []) 14 (units "1,234.5") false = Some [units "1,234.5"].
Proof. vm_compute. reflexivity. Qed.

(** Scenario S4: an acronym chain is one token. *)
Example segment_acronym_chain :
  segment (without_dictionary None []) 12
    [0x1780; 0x2E; 0x1794; 0x2E; 0x179F; 0x2E] false
  = Some [[0x1780; 0x2E; 0x1794; 0x2E; 0x179F; 0x2E]].
Proof. vm_compute. reflexivity. Qed.

(** Scenario S6: unknown Latin letters are grouped, and kept apart from
    the Khmer token that follows. *)
Example segment_unknown_grouping :
  segment (without_dictionary None []) 12 [0x58; 0x59; 0x17C6; 0x17C6] false
  = Some [[0x58; 0x59]; [0x17C6; 0x17C6]].
Proof. vm_compute. reflexivity. Qed.

Lemma segment_never_fails_witness :
  let sg := new_segmenter example_dictionary (Some freq_example_pair)
              [RuleBasedEngine.WithTrigger rule_merge_invalid_single] in
  let x := [0x1780; 0x17D2; 0x20; 0x17B6; 0x31] in
  finite (unknownCost sg)
  ∧ KhmerNormalizer.normalize x ≠ []
  ∧ ∃ dp cell segments toks,
      dp_table sg (KhmerNormalizer.normalize x) = Some dp
      ∧ dp !! length (KhmerNormalizer.normalize x) = Some cell ∧ finite cell.1
      ∧ backtrack (2 * length (KhmerNormalizer.normalize x) + 0)
          (KhmerNormalizer.normalize x) dp (length (KhmerNormalizer.normalize x)) []
        = Some segments
      ∧ segment sg (2 * length (KhmerNormalizer.normalize x) + 0) x false = Some toks.
Proof.
  intros sg x.
  assert (finite (unknownCost sg)) as Hu by (vm_compute; reflexivity).
  assert (KhmerNormalizer.normalize x ≠ []) as Hne by (vm_compute; discriminate).
  split; [exact Hu|]. split; [exact Hne|].
  destruct (proj2 (segment_never_fails sg x false 0) Hne)
    as (dp & cell & segments & toks & Hdp & Hcell & Hbt & Hseg & Hfin).
  exists dp, cell, segments, toks.
  split_and!; [exact Hdp|exact Hcell|exact (Hfin ideal_laws Hu)|exact Hbt|exact Hseg].
Defined.

(** C2 (as stated) fails: with the costs that the constructor computes
    from a frequency total that is not finite ([defaultCost] and
    [unknownCost] are [Infinity]), no relaxation succeeds, [dp[n]] keeps
    the cost [Infinity], and the one-character escape of the backtrack
    builds the result. *)
Lemma segment_infinite_unknown_cost :
  let sg := segmenter_without_finite_costs in
  let x := units "ab" in
  ∃ dp cell,
    dp_table sg (KhmerNormalizer.normalize x) = Some dp
    ∧ dp !! length (KhmerNormalizer.normalize x) = Some cell
    ∧ ¬ finite cell.1
    ∧ segment sg (2 * length (KhmerNormalizer.normalize x) + 0) x false
      = Some [units "ab"].
Proof.
  intros sg x. eexists _, _. split_and!.
  - vm_compute. reflexivity.
  - vm_compute. reflexivity.
  - simpl. discriminate.
  - vm_compute. reflexivity.
Qed.
End NeverFailsExample.

(** ** The DP table: optimality *)

Section Optimality.
Import KhmerSegmenter.
Context `{CostArith, UnicodeTables} `{!CostLaws} (sg : t) (text : list Z).

(** The loop body proposes exactly the transitions of the table. *)
Lemma proposed_transition (i : nat) (cur : Z) (j : nat) (f : cost → cost) :
  text !! i = Some cur → (j, f) ∈ proposals sg text i cur → transition sg text i j f.
Proof.
  intros Hcur. unfold proposals. destruct (force_repair text i cur) eqn:Hfr.
  { intros [= -> ->]%list_elem_of_singleton. by eapply T_forced_repair. }
  rewrite !elem_of_app. intros [Hin | [Hin | [Hin | Hin]]].
  - destruct (_isDigit cur) eqn:Hd.
    + apply list_elem_of_singleton in Hin as [= -> ->].
      destruct (number_length_bounds _ _ _ Hcur Hd) as (len & Hlen & _).
      rewrite Hlen. simpl. by eapply T_digit_run.
    + destruct (_isSeparator [cur]) eqn:Hs; [|by apply elem_of_nil in Hin].
      apply list_elem_of_singleton in Hin as [= -> ->]. by eapply T_separator.
  - destruct (_isAcronymStart text i) eqn:Ha; [|by apply elem_of_nil in Hin].
    apply list_elem_of_singleton in Hin as [= -> ->]. by eapply T_acronym.
  - unfold dict_proposals in Hin. apply list_elem_of_omap in Hin as (j' & Hj' & Hsome).
    apply elem_of_seq in Hj'. case_bool_decide as Hw; [|done].
    destruct (getWordCost sg (slice text i j')) as [wordCost|] eqn:Hcost; [|done].
    injection Hsome as -> <-. eapply T_dictionary; [done|done|lia|lia|done|done].
  - apply list_elem_of_singleton in Hin. unfold unknown_proposal in Hin.
    destruct (_isKhmerChar cur) eqn:Hk; injection Hin as -> ->.
    + by eapply T_unknown_cluster.
    + by eapply T_unknown_char.
Qed.

Lemma transition_proposed (i j : nat) (f : cost → cost) :
  transition sg text i j f →
  ∃ cur, text !! i = Some cur ∧ (j, f) ∈ proposals sg text i cur.
Proof.
  destruct 1 as [cur Hcur Hfr | cur len Hcur Hfr Hd Hlen | cur Hcur Hfr Hd Hs
                | cur Hcur Hfr Ha | cur j wordCost Hcur Hfr Hj Hmax Hw Hcost
                | cur Hcur Hfr Hk | cur Hcur Hfr Hk];
    exists cur; (split; [done|]); unfold proposals; rewrite Hfr.
  - by left.
  - rewrite !elem_of_app. left. rewrite Hd, Hlen. by left.
  - rewrite !elem_of_app. left. rewrite Hd, Hs. by left.
  - rewrite !elem_of_app. right. left. rewrite Ha. by left.
  - rewrite !elem_of_app. do 2 right. left. unfold dict_proposals.
    apply list_elem_of_omap. exists j. split; [apply elem_of_seq; lia|].
    rewrite bool_decide_eq_true_2 by done. by rewrite Hcost.
  - rewrite !elem_of_app. do 3 right. apply list_elem_of_singleton.
    unfold unknown_proposal. by rewrite Hk.
  - rewrite !elem_of_app. do 3 right. apply list_elem_of_singleton.
    unfold unknown_proposal. by rewrite Hk.
Qed.

Lemma transition_range (i j : nat) (f : cost → cost) :
  transition sg text i j f → (i < j ≤ length text)%nat.
Proof.
  intros (cur & Hcur & Hin)%transition_proposed.
  pose proof (proposals_in_range sg text i cur Hcur) as Hrange.
  rewrite Forall_forall in Hrange. by apply Hrange in Hin.
Qed.

(** Every transition maps a larger cost to a larger cost, and the cost
    [Infinity] to a cost that nothing exceeds. *)
Lemma transition_mono (i j : nat) (f : cost → cost) (a b : cost) :
  transition sg text i j f → clt b a = false → clt (f b) (f a) = false.
Proof. destruct 1; intros Hab; repeat apply cadd_mono; done. Qed.

Lemma transition_inf (i j : nat) (f : cost → cost) (a : cost) :
  transition sg text i j f → clt (f cinf) a = false.
Proof.
  destruct 1; try apply cadd_inf.
  eapply clt_negtrans; [|apply (cadd_inf (clit 50))].
  apply cadd_mono, cadd_inf.
Qed.

Lemma dp_init_inv : dp_inv sg text O (dp_init (length text)).
Proof.
  assert (∀ k cell, dp_init (length text) !! k = Some cell →
            cell = (clit 0, -1) ∧ k = O ∨ cell = (cinf, -1)) as Hcells.
  { intros k cell. unfold dp_init. rewrite Nat.add_1_r. destruct k as [|k]; simpl.
    - intros [= <-]. by left.
    - intros [-> _]%lookup_replicate_1. by right. }
  split.
  - apply dp_init_wf.
  - unfold dp_init. by rewrite Nat.add_1_r.
  - intros k cell Hk _. destruct (Hcells k cell Hk) as [[_ ->] | ->]; [by left|by right].
  - intros k cell Hk Hp. by destruct (Hcells k cell Hk) as [[-> _] | ->].
  - intros i j f ci Hi. lia.
Qed.

Lemma segment_step_inv (a : nat) (dp dp' : list (cost * Z)) :
  (a < length text)%nat → dp_inv sg text a dp →
  segment_step sg text a dp = Some dp' → dp_inv sg text (S a) dp'.
Proof.
  intros Ha [Hwf Horig Hun Hwit Hrel] Hstep.
  destruct (segment_step_shape sg text a dp Ha Hwf) as (dp'' & Hstep' & Hwf' & Hlow).
  assert (dp'' = dp') as -> by congruence. clear Hstep'.
  destruct (lookup_lt_is_Some_2 text a Ha) as [cur Hcur].
  destruct Hwf as [Hlen Hprev].
  destruct (lookup_lt_is_Some_2 dp a) as [ca Hca]; [lia|].
  rewrite (segment_step_proposals sg text a cur dp ca) in Hstep by done.
  pose proof (proposals_in_range sg text a cur Hcur) as Hrange.
  destruct (is_inf ca.1) eqn:Hinf.
  { injection Hstep as <-. split; try done.
    - intros k cell Hk Hp.
      destruct (Hwit k cell Hk Hp) as (i & ci & f & ? & ? & ? & ? & ? & ?).
      exists i, ci, f. split_and!; [done|lia|done..].
    - intros i j f ci Hi Htr Hci. destruct (decide (i = a)) as [->|Hne].
      + pose proof (transition_range _ _ _ Htr) as Hj.
        destruct (lookup_lt_is_Some_2 dp j) as [cj Hcj]; [lia|].
        exists cj. split; [done|]. left. congruence.
      + apply (Hrel i j f ci); [lia|done..]. }
  destruct (relax_all_shape text a ca _ Hrange dp Hlen Hca)
    as (dp'' & Hrelax & Hlen' & _ & Hcells).
  assert (dp'' = dp') as -> by congruence.
  destruct (relax_all_order text a ca _ Hrange dp dp' Hlen Hca Hstep) as (_ & Hmono & Hopt).
  split.
  - done.
  - by rewrite Hlow by lia.
  - intros k cell Hk Hp. destruct (Hcells k cell Hk) as [Hk0 | (f & _ & ->)].
    + by eapply Hun.
    + simpl in Hp. lia.
  - intros k cell Hk Hp. destruct (Hcells k cell Hk) as [Hk0 | (f & Hin & ->)].
    + destruct (Hwit k cell Hk0 Hp) as (i & ci & f & Hi & Hlt & Hci & ? & ? & ?).
      exists i, ci, f. split_and!; [done|lia| |done..]. by rewrite Hlow by lia.
    + exists a, ca, f. split_and!; [done|lia| |done| |done].
      * by rewrite Hlow by lia.
      * by eapply proposed_transition.
  - intros i j f ci Hi Htr Hci. destruct (decide (i = a)) as [->|Hne].
    + rewrite Hlow in Hci by lia. assert (ci = ca) as -> by congruence.
      destruct (transition_proposed _ _ _ Htr) as (cur' & Hcur' & Hin).
      assert (cur' = cur) as -> by congruence.
      destruct (Hopt j f Hin) as (new & Hnew & Hle). exists new. split; [done|by right].
    + rewrite Hlow in Hci by lia.
      destruct (Hrel i j f ci) as (cj & Hcj & Hcase); [lia|done..|].
      pose proof (transition_range _ _ _ Htr) as Hj.
      destruct (lookup_lt_is_Some_2 dp' j) as [cj' Hcj']; [lia|].
      exists cj'. split; [done|]. destruct Hcase as [?|Hle]; [by left|right].
      eapply clt_negtrans; [exact Hle|by eapply Hmono].
Qed.

Lemma dp_loop_inv (m : nat) :
  ∀ a dp dp', (a + m ≤ length text)%nat → dp_inv sg text a dp →
    dp_loop sg text (seq a m) dp = Some dp' → dp_inv sg text (a + m) dp'.
Proof.
  induction m as [|m IH]; intros a dp dp' Ham Hinv; simpl.
  { intros [= <-]. by rewrite Nat.add_0_r. }
  destruct (segment_step sg text a dp) as [dp1|] eqn:Hstep; [|done].
  rewrite bind_Some. intros Hloop. replace (a + S m)%nat with (S a + m)%nat by lia.
  eapply IH; [lia| |exact Hloop]. eapply segment_step_inv; [lia|done..].
Qed.

Lemma dp_table_inv (dp : list (cost * Z)) :
  dp_table sg text = Some dp → dp_inv sg text (length text) dp.
Proof.
  intros Hdp. eapply (dp_loop_inv (length text) O); [simpl; lia|apply dp_init_inv|done].
Qed.

(** No cover composed from the table costs less than the cell it ends
    in. *)
Lemma cover_not_below (dp : list (cost * Z)) :
  dp_inv sg text (length text) dp →
  ∀ k c segs, cover_to sg text k c segs →
    ∃ cell, dp !! k = Some cell ∧ clt c cell.1 = false.
Proof.
  intros [Hwf Horig Hun Hwit Hrel]. induction 1 as [|i j f c segs _ IH Htr].
  - eexists. split; [done|]. apply clt_irrefl.
  - destruct IH as (ci & Hci & Hle).
    pose proof (transition_range _ _ _ Htr) as Hj.
    destruct (Hrel i j f ci) as (cj & Hcj & Hcase); [lia|done..|].
    exists cj. split; [done|].
    pose proof (transition_mono i j f ci.1 c Htr Hle) as Hf.
    destruct Hcase as [Hinf | Hopt].
    + apply is_inf_cinf in Hinf. rewrite Hinf in Hf.
      eapply clt_negtrans; [exact Hf|]. by eapply transition_inf.
    + eapply clt_negtrans; [exact Hf|exact Hopt].
Qed.

(** From a cell that was reached, the backtrack recovers a cover
    composed from the table whose cost is the cost of the cell. *)
Lemma backtrack_is_cover (dp : list (cost * Z)) :
  dp_inv sg text (length text) dp →
  ∀ fuel curr acc cell, (curr ≤ fuel)%nat →
    dp !! curr = Some cell → (curr = O ∨ cell.2 ≠ -1) →
    ∃ segs, backtrack fuel text dp curr acc = Some (acc ++ segs)
      ∧ cover_to sg text curr cell.1 (reverse segs).
Proof.
  intros [Hwf Horig Hun Hwit Hrel]. induction fuel as [|fuel IH];
    intros curr acc cell Hfuel Hcell Hreached.
  { assert (curr = O) as -> by lia. exists []. simpl. rewrite app_nil_r.
    split; [done|]. assert (cell = (clit 0, -1)) as -> by congruence. constructor. }
  destruct curr as [|c].
  { exists []. simpl. rewrite app_nil_r.
    split; [done|]. assert (cell = (clit 0, -1)) as -> by congruence. constructor. }
  destruct Hreached as [|Hp]; [done|].
  destruct (Hwit _ _ Hcell Hp) as (i & ci & f & Hi & _ & Hci & Hinf & Htr & Hcost).
  pose proof (transition_range _ _ _ Htr) as Hrange.
  cbn [backtrack]. rewrite Hcell, bind_Some.
  replace (cell.2 =? -1) with false by (symmetry; by apply Z.eqb_neq).
  rewrite Hi, Nat2Z.id.
  destruct (IH i (acc ++ [slice text i (S c)]) ci) as (segs & -> & Hcover); [lia|done| |].
  { destruct (decide (i = O)) as [|Hne]; [by left|right]. intros Hm.
    destruct (Hun _ _ Hci Hm) as [|Hc]; [done|].
    apply is_inf_cinf in Hc. congruence. }
  exists (slice text i (S c) :: segs). split; [by rewrite <-app_assoc|].
  rewrite reverse_cons, Hcost. by econstructor.
Qed.
End Optimality.

Section OptimalCover.
Import KhmerSegmenter.
Context `{CostArith, UnicodeTables} `{!CostLaws} (sg : t).

(** X30: the cover of the normalized text that the backtrack recovers
    (the result of [segment] without post-processing) is composed from
    the transition table that the code relaxes, its total cost is
    [dp[n].cost], and no cover of [text[0..n)] composed from that table
    has a strictly lower total cost.  In that table a dictionary word has
    a transition when [getWordCost] reads a number for it.  The numbers
    are assumed to obey the laws of [CostLaws] and [unknownCost] to be
    finite. *)
Theorem backtrack_cover_is_optimal (x : list Z) (extra : nat) :
  finite (unknownCost sg) →
  let normalized := KhmerNormalizer.normalize x in
  let n := length normalized in
  ∃ dp cell raw,
    dp_table sg normalized = Some dp
    ∧ dp !! n = Some cell
    ∧ segment sg (2 * n + extra) x true = Some raw
    ∧ cover_to sg normalized n cell.1 raw
    ∧ ∀ c segs, cover_to sg normalized n c segs → clt c cell.1 = false.
Proof.
  intros Hu normalized n.
  destruct (dp_table_shape sg normalized) as (dp & Hdp & Hwf).
  pose proof (dp_table_inv sg normalized dp Hdp) as Hinv.
  destruct (dp_table_finite sg normalized dp Hu Hdp) as (cell & Hcell & Hfin).
  assert (n = O ∨ cell.2 ≠ -1) as Hreached.
  { destruct (decide (cell.2 = -1)) as [Hm|]; [|by right].
    destruct (inv_unreached _ _ _ _ Hinv _ _ Hcell Hm) as [|Hc]; [by left|].
    unfold finite in Hfin. by rewrite Hc, cinf_top in Hfin. }
  destruct (backtrack_is_cover sg normalized dp Hinv (2 * n + extra) n [] cell)
    as (segs & Hbt & Hcover); [lia|done..|].
  exists dp, cell, (reverse segs). split_and!; [done|done| |done|].
  - unfold segment. fold normalized. fold n. destruct (n =? 0)%nat eqn:Hn.
    + apply Nat.eqb_eq in Hn. rewrite Hn in Hbt.
      destruct (2 * 0 + extra)%nat; simpl in Hbt; by injection Hbt as <-.
    + by rewrite Hdp, bind_Some, Hbt, bind_Some.
  - intros c segs' Hc.
    destruct (cover_not_below sg normalized dp Hinv _ _ _ Hc) as (cell' & Hcell' & Hle).
    unfold n in Hcell'. by assert (cell' = cell) as -> by congruence.
Qed.
End OptimalCover.

Section OptimalCoverExample.
Import KhmerSegmenter IdealCost.

(** The dictionary word wins over the unknown cluster (cost 10 against
    20), twice. *)
Example segment_dictionary_word :
  segment example_segmenter 8 [0x1780; 0x17B6; 0x1780; 0x17B6] true
  = Some [[0x1780; 0x17B6]; [0x1780; 0x17B6]].
Proof. vm_compute. reflexivity. Qed.

(** Scenario S5: the stranded sign is merged into the previous token by
    the rule engine. *)
Example segment_merge_prev :
  segment example_segmenter 4 [0x61; 0x17C6] true = Some [[0x61]; [0x17C6]]
  ∧ segment example_segmenter 4 [0x61; 0x17C6] false = Some [[0x61; 0x17C6]].
Proof. split; vm_compute; reflexivity. Qed.

(** C3: a dictionary word named like a property of [Object.prototype]
    that has no frequency of its own is never matched.  With the
    one-word dictionary [constructor] and no frequencies, the word is in
    the dictionary, within [maxWordLength], and [defaultCost] is 10; but
    [getWordCost] reads the inherited function, the relaxation never
    fires, and the text [constructor] is cut into eleven characters of
    total cost 220.  The word [constructive], with the same dictionary
    role, is one token of cost 10. *)
Theorem segment_prototype_named_word :
  let sg := new_segmenter (units "constructor") (Some []) [] in
  let text := units "constructor" in
  let sg' := new_segmenter (units "constructive") (Some []) [] in
  KhmerNormalizer.normalize text = text
  ∧ text ∈ words sg ∧ (length text ≤ maxWordLength sg)%nat
  ∧ defaultCost sg = clit 10
  ∧ getWordCost sg text = Inherited
  ∧ segment sg (2 * length text + 0) text true = Some ((λ c, [c]) <$> text)
  ∧ (∃ dp, dp_table sg text = Some dp ∧ dp !! length text = Some (clit 220, 10))
  ∧ clt (cadd (clit 0) (clit 10)) (clit 220) = true
  ∧ getWordCost sg' (units "constructive") = Number (clit 10)
  ∧ segment sg' (2 * 12 + 0) (units "constructive") true = Some [units "constructive"]
  ∧ ∃ dp, dp_table sg' (units "constructive") = Some dp
          ∧ dp !! 12%nat = Some (cadd (clit 0) (clit 10), 0).
Proof.
  intros sg text sg'. split_and!.
  - vm_compute. reflexivity.
  - apply (bool_decide_unpack _). vm_compute. exact I.
  - vm_compute. lia.
  - vm_compute. reflexivity.
  - vm_compute. reflexivity.
  - vm_compute. reflexivity.
  - eexists. split; vm_compute; reflexivity.
  - vm_compute. reflexivity.
  - vm_compute. reflexivity.
  - vm_compute. reflexivity.
  - eexists. split; vm_compute; reflexivity.
Qed.

Lemma backtrack_cover_is_optimal_witness :
  let x := [0x1780; 0x17B6; 0x20; 0x17B6; 0x31; 0x32] in
  finite (unknownCost example_segmenter)
  ∧ ∃ dp cell raw,
      dp_table example_segmenter (KhmerNormalizer.normalize x) = Some dp
      ∧ dp !! length (KhmerNormalizer.normalize x) = Some cell
      ∧ segment example_segmenter (2 * length (KhmerNormalizer.normalize x) + 0) x true
        = Some raw
      ∧ cover_to example_segmenter (KhmerNormalizer.normalize x)
          (length (KhmerNormalizer.normalize x)) cell.1 raw
      ∧ ∀ c segs,
          cover_to example_segmenter (KhmerNormalizer.normalize x)
            (length (KhmerNormalizer.normalize x)) c segs →
          clt c cell.1 = false.
Proof.
  intros x. split; [reflexivity|].
  apply (backtrack_cover_is_optimal example_segmenter x 0). reflexivity.
Defined.
End OptimalCoverExample.

(** ** Adequacy of the iteration bounds *)

Section Fuel.
Import RuleBasedEngine KhmerSegmenter.

(** The acronym scanner leaves its loop before the bound [length text] is
    used up: any two bounds that cover the rest of the text agree. *)
Lemma acronym_loop_fuel (text : list Z) (fuel : nat) :
  ∀ fuel' i, (length text - i ≤ fuel)%nat → (length text - i ≤ fuel')%nat →
    acronym_loop fuel text i = acronym_loop fuel' text i.
Proof.
  induction fuel as [|fuel IH]; intros fuel' i Hf Hf'.
  - assert (text !! i = None) as Hnone by (apply lookup_ge_None; lia).
    destruct fuel'; simpl; [done|]. by rewrite Hnone.
  - destruct fuel' as [|fuel'].
    + assert (text !! i = None) as Hnone by (apply lookup_ge_None; lia).
      simpl. by rewrite Hnone.
    + simpl. destruct (text !! i) as [code|]; [|done].
      destruct (negb _); [done|]. destruct (0 <? _)%nat eqn:Hpos; [|done].
      case_bool_decide; [|done]. apply Nat.ltb_lt in Hpos. apply IH; lia.
Qed.

(** More iterations than needed do not change the result of the backtrack
    or of the rule engine. *)
Lemma backtrack_fuel `{CostArith} (text : list Z) (dp : list (cost * Z)) (fuel : nat) :
  ∀ curr acc out,
    backtrack fuel text dp curr acc = Some out →
    backtrack (S fuel) text dp curr acc = Some out.
Proof.
  induction fuel as [|fuel IH]; intros curr acc out.
  - destruct curr; simpl; [|done]. done.
  - destruct curr as [|c]; [done|]. cbn [backtrack].
    destruct (dp !! S c) as [cell|]; [|done]. rewrite !bind_Some.
    destruct (cell.2 =? -1); apply IH.
Qed.

Lemma apply_loop_fuel (f g : list Z → bool) (rs : list rule) (fuel : nat) :
  ∀ st out,
    apply_loop f g rs fuel st = Some out → apply_loop f g rs (S fuel) st = Some out.
Proof.
  induction fuel as [|fuel IH]; intros st out; cbn [apply_loop].
  - by destruct (apply_step f g rs st).
  - destruct (apply_step f g rs st) as [st'|]; [|done]. apply IH.
Qed.

Lemma segment_fuel `{CostArith, UnicodeTables} (sg : t) (fuel : nat) (x : list Z)
    (disablePostProcessing : bool) (toks : list (list Z)) :
  segment sg fuel x disablePostProcessing = Some toks →
  segment sg (S fuel) x disablePostProcessing = Some toks.
Proof.
  unfold segment. destruct (_ =? 0)%nat; [done|].
  destruct (dp_table sg _) as [dp|]; [|done]. rewrite !bind_Some.
  destruct (backtrack fuel _ dp _ []) as [segs|] eqn:Hbt; [|done].
  rewrite (backtrack_fuel _ _ _ _ _ _ Hbt), !bind_Some.
  destruct disablePostProcessing; [done|]. unfold applyRules.
  destruct (apply_loop _ _ _ fuel _) as [pass2|] eqn:Hp2; [|done].
  by rewrite (apply_loop_fuel _ _ _ _ _ _ Hp2).
Qed.
End Fuel.

(** ** Scenarios of the specification, run on the model *)

Section Scenarios.
Import RuleBasedEngine KhmerSegmenter IdealCost.

Example normalize_composite : KhmerNormalizer.normalize [0x17C1; 0x17B8] = [0x17BE].
Proof. reflexivity. Qed.

Example normalize_reorder :
  KhmerNormalizer.normalize [0x1780; 0x17C6; 0x17B6] = [0x1780; 0x17B6; 0x17C6].
Proof. reflexivity. Qed.

Example normalize_strips_zero_width :
  KhmerNormalizer.normalize [0x61; 0x200B; 0x62] = [0x61; 0x62].
Proof. reflexivity. Qed.

(** Coeng-ta and coeng-da are interchanged, and a coeng-Ro is swapped with
    the subscript next to it. *)
Example generateVariants_ta_da :
  _generateVariants [0x1780; 0x17D2; 0x178F] = [[0x1780; 0x17D2; 0x178A]].
Proof. vm_compute. reflexivity. Qed.

Example generateVariants_ro_swap :
  _generateVariants [0x1780; 0x17D2; 0x179A; 0x17D2; 0x1780]
  = [[0x1780; 0x17D2; 0x1780; 0x17D2; 0x179A]].
Proof. vm_compute. reflexivity. Qed.

(** Rules are ordered by descending priority, and a regex trigger gets its
    compiled pattern. *)
Example compileRules_order :
  r_name <$> _compileRules (WithTrigger <$> [rule_fuzzy; rule_merge_next_x; rule_merge_invalid_single])
  = ["invalid_single"; "x_next"; "fuzzy"]%string.
Proof. reflexivity. Qed.

Example applyRules_merge_next :
  applyRules (λ _, false) (λ _, false)
    (_compileRules (WithTrigger <$> [rule_fuzzy; rule_merge_next_x])) 6 [units "x"; units "y"; units "z"]
  = Some [units "xyz"].
Proof. vm_compute. reflexivity. Qed.
End Scenarios.

(** * Further properties *)

(** ** Normalizer *)

Section NormalizerExtras.
Import KhmerNormalizer.

Lemma replace_first_length (pat rep s : list Z) :
  (length rep ≤ length pat)%nat → (length (replace_first pat rep s) ≤ length s)%nat.
Proof.
  intros Hlen. induction s as [|c s IH].
  - simpl. destruct (starts_with pat []) eqn:Hsw; [|done].
    apply starts_with_spec in Hsw as [s' Heq].
    symmetry in Heq. apply app_eq_nil in Heq as [-> ->]. simpl in *.
    rewrite app_nil_r. lia.
  - rewrite replace_first_cons. destruct (starts_with pat (c :: s)) eqn:Hsw.
    + apply starts_with_spec in Hsw as [s' Heq]. rewrite Heq.
      rewrite drop_app_length, !length_app. lia.
    + simpl. lia.
Qed.

(** X1: [normalize] only removes the zero-width marks, fuses the first
    split vowel of each kind, and reorders what is left: its output is a
    permutation of the stripped and fused text, and is never longer than
    the input. *)
Theorem normalize_permutation_of_fused (x : list Z) :
  normalize x ≡ₚ fix_composites (strip_zero_width x)
  ∧ (length (normalize x) ≤ length x)%nat.
Proof.
  assert (normalize x ≡ₚ fix_composites (strip_zero_width x)) as Hperm.
  { rewrite normalize_unfold, cluster_loop_perm. done. }
  split; [done|]. rewrite Hperm. unfold fix_composites.
  etrans; [apply replace_first_length; simpl; lia|].
  etrans; [apply replace_first_length; simpl; lia|].
  unfold strip_zero_width. apply length_filter.
Qed.

Lemma includes_head_elem (p : Z) (pat s : list Z) :
  includes (p :: pat) s = true → p ∈ s.
Proof.
  induction s as [|c s IH]; simpl.
  - done.
  - intros [Hsw|Hin]%orb_true_iff.
    + apply andb_true_iff in Hsw as [->%Z.eqb_eq _]. by left.
    + right. by apply IH.
Qed.

Lemma cluster_loop_plain (x : list Z) :
  Forall (λ c, is_plain c = true) x →
  ∀ res, cluster_loop x [] res = res ++ ((λ c, [c]) <$> x).
Proof.
  induction 1 as [|c x Hc _ IH]; intros res; simpl.
  - by rewrite app_nil_r.
  - unfold is_plain in Hc. destruct (_get_char_type c); try done.
    rewrite IH. by rewrite <-app_assoc.
Qed.

Lemma join_singletons (x : list Z) : join ((λ c, [c]) <$> x) = x.
Proof. induction x as [|c x IH]; [done|]. unfold join in *. simpl. by f_equal. Qed.

(** X2: text made only of characters outside the normalizer's Khmer
    classes (Latin letters, digits, spaces, punctuation), without
    zero-width marks, is returned unchanged. *)
Theorem normalize_plain_text_unchanged (x : list Z) :
  Forall (λ c, is_plain c = true) x → normalize x = x.
Proof.
  intros Hplain. rewrite normalize_unfold.
  assert (Forall (λ c, is_zero_width c = false) x) as Hzw.
  { eapply Forall_impl; [exact Hplain|]. intros c. unfold is_plain.
    destruct (_get_char_type c); try done. by intros ?%negb_true_iff. }
  rewrite strip_zero_width_id by done.
  assert (0x17C1 ∉ x) as Hno.
  { intros Hin. rewrite Forall_forall in Hplain. by apply Hplain in Hin. }
  rewrite fix_composites_id.
  - rewrite cluster_loop_plain by done. apply join_singletons.
  - unfold split_vowel_free.
    destruct (includes [0x17C1; 0x17B8] x) eqn:H1;
      [by apply includes_head_elem in H1|].
    destruct (includes [0x17C1; 0x17B6] x) eqn:H2;
      [by apply includes_head_elem in H2|done].
Qed.

Lemma normalize_plain_text_unchanged_witness :
  Forall (λ c, is_plain c = true) (units "ab, c d.")
  ∧ normalize (units "ab, c d.") = units "ab, c d.".
Proof.
  assert (Forall (λ c, is_plain c = true) (units "ab, c d.")) as Hp
    by (repeat constructor).
  split; [exact Hp|]. exact (normalize_plain_text_unchanged _ Hp).
Defined.

Lemma char_priority_class (c : Z) :
  is_modifier c = true →
  char_priority c = match _get_char_type c with
                    | REGISTER => 5 | VOWEL => 6 | _ => 8
                    end.
Proof.
  unfold is_modifier, char_priority, getPriority, _get_char_type.
  destruct (CONSONANTS c || INDEP_VOWELS c); [done|].
  change (c =? 0x17D2) with (c =? COENG). destruct (c =? COENG); [done|].
  destruct (REGISTERS c); [done|]. destruct (DEP_VOWELS c); [done|].
  by destruct (SIGNS c || (c =? 0x17DD)).
Qed.

Lemma cluster_loop_modifiers (ms : list Z) :
  Forall (λ c, is_modifier c = true) ms →
  ∀ h cur res,
    cluster_loop ms (h :: cur) res = flush (h :: cur ++ ((λ c, [c]) <$> ms)) res.
Proof.
  induction 1 as [|c ms Hc _ IH]; intros h cur res.
  - simpl. by rewrite app_nil_r.
  - cbn [cluster_loop]. unfold is_modifier in Hc.
    destruct (_get_char_type c); try done.
    all: rewrite (IH h (cur ++ [[c]])); by rewrite <-app_assoc.
Qed.

Lemma insert_sorted_singletons (x : Z) (l : list Z) :
  insert_sorted getPriority [x] ((λ c, [c]) <$> l)
  = (λ c, [c]) <$> insert_sorted char_priority x l.
Proof.
  induction l as [|y l IH]; [done|]. cbn [fmap list_fmap insert_sorted].
  fold (char_priority x) (char_priority y). destruct (_ <=? _); [done|].
  cbn [fmap list_fmap]. by f_equal.
Qed.

Lemma stable_sort_singletons (l : list Z) :
  stable_sort getPriority ((λ c, [c]) <$> l) = (λ c, [c]) <$> stable_sort char_priority l.
Proof.
  induction l as [|x l IH]; [done|]. cbn [fmap list_fmap stable_sort].
  fold (@fmap list _ Z (list Z) (λ c, [c]) l). by rewrite IH, insert_sorted_singletons.
Qed.

Lemma modifier_not_zero_width (c : Z) :
  is_modifier c = true ∨ is_base c = true → is_zero_width c = false.
Proof.
  unfold is_modifier, is_base, _get_char_type, is_zero_width, CONSONANTS, INDEP_VOWELS,
    REGISTERS, DEP_VOWELS, SIGNS, in_range, COENG.
  intros Hc.
  destruct (c =? 0x200B) eqn:H1; [apply Z.eqb_eq in H1; subst c; by destruct Hc|].
  destruct (c =? 0x200C) eqn:H2; [apply Z.eqb_eq in H2; subst c; by destruct Hc|].
  destruct (c =? 0x200D) eqn:H3; [apply Z.eqb_eq in H3; subst c; by destruct Hc|].
  done.
Qed.

(** X3: a cluster made of a base and single modifier characters
    (registers, dependent vowels, signs) is normalized to the base followed
    by the modifiers in a stable order of their class: registers first,
    then vowels, then signs.  The modifiers are assumed not to contain a
    split vowel, which the composite step would fuse first. *)
Theorem normalize_simple_cluster (b : Z) (ms : list Z) :
  is_base b = true →
  Forall (λ c, is_modifier c = true) ms →
  split_vowel_free ms = true →
  normalize (b :: ms) = b :: stable_sort char_priority ms
  ∧ stable_sort char_priority ms ≡ₚ ms
  ∧ key_sorted char_priority (stable_sort char_priority ms)
  ∧ Forall (λ c, char_priority c = match _get_char_type c with
                                   | REGISTER => 5 | VOWEL => 6 | _ => 8
                                   end) ms.
Proof.
  intros Hb Hms Hsplit. split_and!.
  - rewrite normalize_unfold, strip_zero_width_id.
    2:{ constructor; [apply modifier_not_zero_width; by right|].
        eapply Forall_impl; [exact Hms|]. intros c ?.
        apply modifier_not_zero_width. by left. }
    rewrite fix_composites_id.
    2:{ unfold split_vowel_free in *. cbn [includes].
        assert (∀ v, starts_with [0x17C1; v] (b :: ms) = false) as Hsw.
        { intros v. cbn [starts_with]. destruct (0x17C1 =? b) eqn:Hv; [|done].
          apply Z.eqb_eq in Hv. subst b. done. }
        by rewrite !Hsw. }
    cbn [cluster_loop]. apply is_base_type in Hb. rewrite Hb.
    rewrite (cluster_loop_modifiers ms Hms [b] []). unfold flush, join. simpl.
    rewrite stable_sort_singletons. fold (join ((λ c, [c]) <$> stable_sort char_priority ms)).
    by rewrite join_singletons, app_nil_r.
  - apply stable_sort_perm.
  - apply stable_sort_sorted.
  - eapply Forall_impl; [exact Hms|]. apply char_priority_class.
Qed.

Lemma normalize_simple_cluster_witness :
  is_base 0x1780 = true
  ∧ Forall (λ c, is_modifier c = true) [0x17C6; 0x17B6; 0x17C9]
  ∧ split_vowel_free [0x17C6; 0x17B6; 0x17C9] = true
  ∧ normalize [0x1780; 0x17C6; 0x17B6; 0x17C9]
    = 0x1780 :: stable_sort char_priority [0x17C6; 0x17B6; 0x17C9]
  ∧ stable_sort char_priority [0x17C6; 0x17B6; 0x17C9] = [0x17C9; 0x17B6; 0x17C6].
Proof.
  assert (Forall (λ c, is_modifier c = true) [0x17C6; 0x17B6; 0x17C9]) as Hms
    by (repeat constructor).
  split_and!; [reflexivity|exact Hms|reflexivity| |reflexivity].
  exact (proj1 (normalize_simple_cluster 0x1780 _ eq_refl Hms eq_refl)).
Defined.
End NormalizerExtras.

(** ** Rule engine *)

Section RuleEngineExtras.
Import RuleBasedEngine.

Lemma compile_loop_sorted `{RegExpEngine} (rules : list rule_entry) :
  ∀ out, compile_loop rules [] = Some out →
    key_sorted (λ e, - entry_priority e) rules →
    key_sorted (λ r, - r_priority r) out.
Proof.
  induction rules as [|[r|p] rules IH]; intros out Hout; [by injection Hout as <-| |done].
  intros [Hr Hrules].
  assert (∀ out', compile_loop rules [] = Some out' →
            Forall (λ y, - r_priority r <= - r_priority y) out') as Hall.
  { intros out' Hout'. apply Forall_forall. intros y Hy.
    destruct (compile_loop_origin _ _ _ Hout' Hy) as (r0 & Hr0 & Hcase).
    rewrite Forall_forall in Hr. specialize (Hr _ Hr0). cbn [entry_priority] in Hr.
    destruct Hcase as [[_ ->] | (_ & re & _ & ->)]; done. }
  cbn [compile_loop app] in Hout. destruct (String.eqb _ _).
  - destruct (compile_pattern _); [|by apply IH].
    apply compile_loop_push in Hout as (out' & Hout' & ->).
    split; [by apply Hall|by apply IH].
  - apply compile_loop_push in Hout as (out' & Hout' & ->).
    split; [by apply Hall|by apply IH].
Qed.

(** X4: the compiled rule list is ordered by non-increasing priority:
    every rule's priority is at least that of each rule after it. *)
Theorem compileRules_by_priority `{RegExpEngine} (rules : list rule_entry) :
  key_sorted (λ r, - r_priority r) (_compileRules rules).
Proof.
  unfold _compileRules.
  destruct (compile_loop _ []) as [out|] eqn:Hout; [|done].
  eapply compile_loop_sorted; [exact Hout|apply stable_sort_sorted].
Qed.

Section Inert.
Context (checkInvalidSingle isSeparator : list Z → bool).

Lemma trigger_match_unknown_type (t : trigger) (seg : list Z) :
  known_trigger_type (t_type t) = false → trigger_match checkInvalidSingle t seg = false.
Proof.
  unfold known_trigger_type. intros [[H1 H2]%orb_false_iff H3]%orb_false_iff.
  unfold trigger_match. by rewrite H1, H2, H3.
Qed.

Lemma rule_loop_inert (rules : list rule) (segments : list (list Z)) (i : nat)
    (seg : list Z) :
  Forall (λ r, inert_rule r = true) rules →
  rule_loop checkInvalidSingle isSeparator rules segments i seg = None.
Proof.
  induction 1 as [|r rules Hr _ IH]; [done|]. cbn [rule_loop].
  unfold inert_rule in Hr. apply orb_true_iff in Hr as [Hty|Hact].
  - apply negb_true_iff in Hty.
    by rewrite (trigger_match_unknown_type _ seg Hty).
  - apply negb_true_iff in Hact. unfold known_action in Hact.
    apply orb_false_iff in Hact as [[H1 H2]%orb_false_iff H3].
    rewrite H1, H2, H3. by repeat destruct (negb _).
Qed.

Lemma apply_loop_inert (rules : list rule) (segments : list (list Z)) (fuel : nat) :
  Forall (λ r, inert_rule r = true) rules →
  ∀ i, (length segments - i ≤ fuel)%nat →
    apply_loop checkInvalidSingle isSeparator rules fuel (segments, i) = Some segments.
Proof.
  intros Hinert. induction fuel as [|fuel IH]; intros i Hi; cbn [apply_loop].
  - unfold apply_step. rewrite lookup_ge_None_2 by lia. done.
  - unfold apply_step. destruct (segments !! i) as [seg|] eqn:Hseg; [|done].
    rewrite bind_Some, rule_loop_inert by done. simpl.
    apply lookup_lt_Some in Hseg. apply IH. lia.
Qed.

(** X5: rules that the engine cannot interpret are ignored.  When every
    rule has an unknown trigger type or an unknown action (in particular
    when there is no rule at all), [applyRules] returns the tokens
    unchanged. *)
Theorem applyRules_inert_rules (rules : list rule) (segments : list (list Z))
    (extra : nat) :
  Forall (λ r, inert_rule r = true) rules →
  applyRules checkInvalidSingle isSeparator rules (length segments + extra) segments
  = Some segments.
Proof. intros Hinert. apply apply_loop_inert; [done|lia]. Qed.

Lemma apply_loop_length (rules : list rule) (fuel : nat) :
  ∀ st out, apply_loop checkInvalidSingle isSeparator rules fuel st = Some out →
    (length out ≤ length st.1)%nat ∧ (st.1 ≠ [] → out ≠ []).
Proof.
  induction fuel as [|fuel IH]; intros [segments i] out; cbn [apply_loop].
  - destruct (apply_step _ _ _ (segments, i)); [done|]. by intros [= <-].
  - destruct (apply_step _ _ _ (segments, i)) as [st'|] eqn:Hstep; [|by intros [= <-]].
    intros Hout. destruct (IH _ _ Hout) as [Hlen Hne].
    apply apply_step_cases in Hstep as [_ [(pre & a & b & post & -> & Hs & _) | ->]];
      [|done].
    cbn [fst]. rewrite Hs in Hlen, Hne. rewrite !length_app in *. simpl in *. split; [lia|].
    intros _. apply Hne. by destruct pre.
Qed.

(** X6: the rule engine only merges neighbours: the list it returns is
    never longer than the list it was given, and is empty only if that
    list was empty. *)
Theorem applyRules_never_lengthens (rules : list rule) (segments : list (list Z))
    (extra : nat) :
  ∃ out, applyRules checkInvalidSingle isSeparator rules
           (2 * length segments + extra) segments = Some out
    ∧ (length out ≤ length segments)%nat
    ∧ (out = [] ↔ segments = []).
Proof.
  destruct (apply_loop_terminates checkInvalidSingle isSeparator rules
              (2 * length segments + extra) (segments, O)) as [out Hout].
  { simpl. lia. }
  { unfold apply_measure. simpl. lia. }
  exists out. split; [done|].
  destruct (apply_loop_length _ _ _ _ Hout) as [Hlen Hne]. cbn [fst] in *.
  split; [done|]. split.
  - intros ->. destruct segments; [done|]. by destruct Hne.
  - intros ->. destruct out; [done|]. simpl in Hlen. lia.
Qed.
End Inert.

Lemma applyRules_inert_rules_witness :
  Forall (λ r, inert_rule r = true) [rule_fuzzy]
  ∧ applyRules (λ _, true) (λ _, false) [rule_fuzzy] (2 + 0) [units "x"; units "y"]
    = Some [units "x"; units "y"].
Proof.
  assert (Forall (λ r, inert_rule r = true) [rule_fuzzy]) as Hin by (repeat constructor).
  split; [exact Hin|].
  exact (applyRules_inert_rules (λ _, true) (λ _, false) [rule_fuzzy]
           [units "x"; units "y"] 0 Hin).
Defined.
End RuleEngineExtras.

(** ** Character classes and the known-token tests *)

Section ClassExtras.
Import KhmerSegmenter.

(** Boolean range tests as linear arithmetic. *)
Local Ltac bool_to_Z :=
  rewrite ?orb_true_iff, ?andb_true_iff, ?Z.leb_le, ?Z.ltb_lt, ?Z.eqb_eq in *.

Lemma is_base_ranges (code : Z) :
  KhmerNormalizer.is_base code = true ↔ 0x1780 <= code <= 0x17B3.
Proof.
  unfold KhmerNormalizer.is_base, KhmerNormalizer._get_char_type.
  destruct (KhmerNormalizer.CONSONANTS code || KhmerNormalizer.INDEP_VOWELS code) eqn:Hb;
    unfold KhmerNormalizer.CONSONANTS, KhmerNormalizer.INDEP_VOWELS,
      KhmerNormalizer.in_range in Hb.
  - bool_to_Z. split; [lia|done].
  - split; [|intros Hr; exfalso; apply not_true_iff_false in Hb; apply Hb; bool_to_Z; lia].
    by repeat match goal with |- context [if ?b then _ else _] => destruct b end.
Qed.

Lemma is_modifier_range (code : Z) :
  is_modifier code = true → 0x17B6 <= code <= 0x17DD.
Proof.
  unfold is_modifier, KhmerNormalizer._get_char_type.
  destruct (_ || _); [done|]. destruct (code =? KhmerNormalizer.COENG); [done|].
  destruct (KhmerNormalizer.REGISTERS code) eqn:Hr.
  { intros _. unfold KhmerNormalizer.REGISTERS in Hr. bool_to_Z. lia. }
  destruct (KhmerNormalizer.DEP_VOWELS code) eqn:Hv.
  { intros _. unfold KhmerNormalizer.DEP_VOWELS, KhmerNormalizer.in_range in Hv.
    bool_to_Z. lia. }
  destruct (KhmerNormalizer.SIGNS code || (code =? 0x17DD)) eqn:Hs; [|done].
  intros _. unfold KhmerNormalizer.SIGNS, KhmerNormalizer.in_range in Hs. bool_to_Z. lia.
Qed.

Lemma valid_base_ranges (code : Z) :
  _isValidSingleBaseChar code = true ↔ 0x1780 <= code <= 0x17B3.
Proof. unfold _isValidSingleBaseChar. bool_to_Z. lia. Qed.

(** X7: the normalizer and the segmenter agree on what a base character
    is: the normalizer's [BASE] class, [_isValidSingleBaseChar] and the
    cluster scanner's first-character test are the same set
    U+1780..U+17B3.  Every base, coeng, register, dependent vowel and sign
    of the normalizer is a Khmer character for the segmenter, and no base
    is a digit. *)
Theorem base_classes_agree (code : Z) :
  KhmerNormalizer.is_base code = _isValidSingleBaseChar code
  ∧ is_cluster_base code = _isValidSingleBaseChar code
  ∧ (_isValidSingleBaseChar code || is_modifier code
     || (code =? KhmerNormalizer.COENG) = true → _isKhmerChar code = true)
  ∧ (_isValidSingleBaseChar code = true → _isDigit code = false).
Proof.
  split_and!.
  - apply Bool.eq_iff_eq_true. by rewrite is_base_ranges, valid_base_ranges.
  - apply Bool.eq_iff_eq_true. rewrite valid_base_ranges. unfold is_cluster_base.
    bool_to_Z. lia.
  - intros Hc. assert (0x1780 <= code <= 0x17FF) as Hr.
    { apply orb_true_iff in Hc as [Hc|Hc]; [apply orb_true_iff in Hc as [Hc|Hc]|].
      - apply valid_base_ranges in Hc. lia.
      - apply is_modifier_range in Hc. lia.
      - apply Z.eqb_eq in Hc. unfold KhmerNormalizer.COENG in Hc. lia. }
    unfold _isKhmerChar. bool_to_Z. lia.
  - intros Hc%valid_base_ranges. apply not_true_iff_false. unfold _isDigit.
    bool_to_Z. lia.
Qed.

Lemma base_classes_agree_witness :
  _isValidSingleBaseChar 0x1780 = true ∧ _isDigit 0x1780 = false
  ∧ _isKhmerChar 0x17C6 = true.
Proof.
  split_and!.
  - reflexivity.
  - exact (proj2 (proj2 (proj2 (base_classes_agree 0x1780))) eq_refl).
  - exact (proj1 (proj2 (proj2 (base_classes_agree 0x17C6))) eq_refl).
Defined.

Section WithSegmenter.
Context `{CostArith, UnicodeTables} (sg : t).

(** X8: the unknown grouper and [isUnknown] classify every non-empty
    token the same way: a token that the grouper treats as known is
    exactly one that [isUnknown] reports as not unknown. *)
Theorem grouper_known_iff_not_unknown (c : Z) (rest : list Z) :
  is_known sg (c :: rest) c = negb (isUnknown sg (c :: rest)).
Proof.
  unfold is_known, isUnknown.
  generalize (bool_decide (c :: rest ∈ words sg)) (_isDigit c) (_isSeparator (c :: rest))
    ((length (c :: rest) =? 1)%nat && _isValidSingleBaseChar c)
    (includes (units ".") (c :: rest) && (2 <=? length (c :: rest))%nat).
  by intros [] [] [] [] [].
Qed.

(** X9: a token on which the rule trigger [is_invalid_single] fires is
    always reported as unknown by [isUnknown]. *)
Theorem invalid_single_is_unknown (seg : list Z) :
  _isInvalidSingle sg seg = true → isUnknown sg seg = true.
Proof.
  destruct seg as [|c [|d rest]]; try done. unfold _isInvalidSingle, isUnknown.
  intros Hinv. repeat (apply andb_true_iff in Hinv as [Hinv ?]).
  repeat match goal with H : negb _ = true |- _ => apply negb_true_iff in H end.
  replace (bool_decide ([c] ∈ words sg)) with false by done.
  replace (_isDigit c) with false by done.
  replace (_isSeparator [c]) with false by done.
  replace (_isValidSingleBaseChar c) with false by done.
  simpl. by rewrite andb_false_r.
Qed.
End WithSegmenter.

Import IdealCost.

Lemma invalid_single_is_unknown_witness :
  _isInvalidSingle example_segmenter [0x17C6] = true
  ∧ isUnknown example_segmenter [0x17C6] = true.
Proof.
  assert (_isInvalidSingle example_segmenter [0x17C6] = true) as Hinv
    by (vm_compute; reflexivity).
  split; [exact Hinv|]. exact (invalid_single_is_unknown example_segmenter _ Hinv).
Defined.
End ClassExtras.

(** ** Scanners: the shape of number, acronym and cluster tokens *)

Section ScannerExtras.
Import KhmerSegmenter.

Lemma slice_from_drop (text : list Z) (i len : nat) (c : Z) :
  text !! i = Some c →
  slice text i (i + S len) = c :: take len (drop (S i) text).
Proof.
  intros Hc. unfold slice. replace (i + S len - i)%nat with (S len) by lia.
  by rewrite (drop_S _ _ _ Hc).
Qed.

Lemma number_tail_shape (s : list Z) :
  ∀ d0, _isDigit d0 = true →
    (∃ d, last (d0 :: take (number_tail s) s) = Some d ∧ _isDigit d = true)
    ∧ Forall (λ ch, _isDigit ch = true ∨ ch = 0x2C ∨ ch = 0x2E) (take (number_tail s) s)
    ∧ (∀ e, s !! number_tail s = Some e → _isDigit e = false).
Proof.
  induction s as [s IH] using list_length_ind. intros d0 Hd0.
  destruct s as [|c rest].
  { simpl. split_and!; [by exists d0|constructor|done]. }
  cbn [number_tail]. destruct (_isDigit c) eqn:Hc.
  { destruct (IH rest ltac:(simpl; lia) c Hc) as (Hlast & Hall & Hnext).
    split_and!; [done| |done]. constructor; [by left|done]. }
  assert ((∃ d, last (d0 :: take 0 (c :: rest)) = Some d ∧ _isDigit d = true)
          ∧ Forall (λ ch, _isDigit ch = true ∨ ch = 0x2C ∨ ch = 0x2E) (take 0 (c :: rest))
          ∧ (∀ e, (c :: rest) !! O = Some e → _isDigit e = false)) as Hstop.
  { simpl. split_and!; [by exists d0|constructor|]. by intros e [= <-]. }
  destruct ((c =? 0x2C) || (c =? 0x2E)) eqn:Hsep; [|done].
  destruct rest as [|d rest']; [done|].
  destruct (_isDigit d) eqn:Hd; [|done].
  destruct (IH rest' ltac:(simpl; lia) d Hd) as (Hlast & Hall & Hnext).
  split_and!; [done| |done].
  constructor; [|constructor; [by left|done]].
  right. apply orb_true_iff in Hsep as [?%Z.eqb_eq|?%Z.eqb_eq]; auto.
Qed.

(** X10: a number token starts at a digit, ends in a digit (a comma or
    period is taken only when a digit follows it), consists of digits,
    commas and periods only, stays within the text, and is not followed by
    a digit. *)
Theorem number_token_shape (text : list Z) (i : nat) (c : Z) :
  text !! i = Some c → _isDigit c = true →
  ∃ numLen d,
    _getNumberLength text i = Some numLen
    ∧ (1 ≤ numLen ≤ length text - i)%nat
    ∧ head (slice text i (i + numLen)) = Some c
    ∧ last (slice text i (i + numLen)) = Some d ∧ _isDigit d = true
    ∧ Forall (λ ch, _isDigit ch = true ∨ ch = 0x2C ∨ ch = 0x2E) (slice text i (i + numLen))
    ∧ ∀ e, text !! (i + numLen)%nat = Some e → _isDigit e = false.
Proof.
  intros Hc Hdig.
  destruct (number_length_bounds text i c Hc Hdig) as (len & Hlen & Hbounds).
  pose proof Hlen as Hlen'. unfold _getNumberLength in Hlen'.
  rewrite (drop_S _ _ _ Hc), Hdig in Hlen'. simpl in Hlen'. injection Hlen' as <-.
  destruct (number_tail_shape (drop (S i) text) c Hdig) as ((d & Hlast & Hd) & Hall & Hnext).
  exists (S (number_tail (drop (S i) text))), d.
  rewrite (slice_from_drop _ _ _ _ Hc).
  split_and!; [done|lia..|done|done|done| |].
  - constructor; [by left|done].
  - intros e He. apply Hnext. rewrite lookup_drop. rewrite <-He. f_equal. lia.
Qed.

Lemma number_token_shape_witness :
  units "a1,234.5." !! 1%nat = Some 0x31 ∧ _isDigit 0x31 = true
  ∧ ∃ numLen d,
      _getNumberLength (units "a1,234.5.") 1 = Some numLen
      ∧ (1 ≤ numLen ≤ length (units "a1,234.5.") - 1)%nat
      ∧ head (slice (units "a1,234.5.") 1 (1 + numLen)) = Some 0x31
      ∧ last (slice (units "a1,234.5.") 1 (1 + numLen)) = Some d ∧ _isDigit d = true
      ∧ Forall (λ ch, _isDigit ch = true ∨ ch = 0x2C ∨ ch = 0x2E)
          (slice (units "a1,234.5.") 1 (1 + numLen))
      ∧ ∀ e, units "a1,234.5." !! (1 + numLen)%nat = Some e → _isDigit e = false.
Proof.
  split; [reflexivity|]. split; [reflexivity|].
  exact (number_token_shape (units "a1,234.5.") 1 0x31 eq_refl eq_refl).
Defined.

Lemma last_slice (text : list Z) (i j : nat) :
  (i < j ≤ length text)%nat → last (slice text i j) = text !! (j - 1)%nat.
Proof.
  intros Hij. rewrite last_lookup. unfold slice.
  rewrite length_take, length_drop.
  replace (Init.Nat.pred ((j - i) `min` (length text - i)))%nat with (j - i - 1)%nat by lia.
  rewrite lookup_take_lt by lia. rewrite lookup_drop. f_equal. lia.
Qed.

Lemma acronym_loop_ends_in_dot (text : list Z) (fuel : nat) :
  ∀ i, acronym_loop fuel text i = i
       ∨ ((i + 2 ≤ acronym_loop fuel text i)%nat
          ∧ text !! (acronym_loop fuel text i - 1)%nat = Some 0x2E).
Proof.
  induction fuel as [|fuel IH]; intros i; cbn [acronym_loop]; [by left|].
  destruct (text !! i) as [code|] eqn:Hc; [|by left].
  destruct (negb _); [by left|]. destruct (0 <? _)%nat eqn:Hpos; [|by left].
  apply Nat.ltb_lt in Hpos.
  case_bool_decide as Hdot; [|by left]. right.
  destruct (IH (S (i + _getKhmerClusterLength text i))) as [-> | [Hge Hlast]].
  - split; [lia|]. rewrite <-Hdot. f_equal. lia.
  - split; [lia|done].
Qed.

(** X11: an acronym token starts at a base character, has at least two
    characters, ends in a period and stays within the text. *)
Theorem acronym_token_shape (text : list Z) (i : nat) :
  _isAcronymStart text i = true →
  let acrLen := _getAcronymLength text i in
  (2 ≤ acrLen ≤ length text - i)%nat
  ∧ (∃ code, head (slice text i (i + acrLen)) = Some code ∧ is_cluster_base code = true)
  ∧ last (slice text i (i + acrLen)) = Some 0x2E.
Proof.
  intros Hstart acrLen.
  pose proof (acronym_length_bounds text i Hstart) as Hbounds. fold acrLen in Hbounds.
  pose proof (acronym_loop_ends_in_dot text (length text) i) as Hdot.
  unfold acrLen, _getAcronymLength in *.
  destruct Hdot as [Heq | [Hge Hlast]]; [lia|].
  replace (i + (acronym_loop (length text) text i - i))%nat
    with (acronym_loop (length text) text i) by lia.
  split_and!; [lia|lia| |].
  - unfold _isAcronymStart in Hstart.
    destruct (length text <=? i + 1)%nat; [done|].
    destruct (text !! i) as [code|] eqn:Hc; [|done].
    destruct (is_cluster_base code) eqn:Hb; [|done].
    exists code. split; [|done]. unfold slice. rewrite (drop_S _ _ _ Hc).
    destruct (acronym_loop (length text) text i - i)%nat eqn:Hz; [lia|done].
  - rewrite last_slice by lia. done.
Qed.

Lemma acronym_token_shape_witness :
  let text := [0x61; 0x1780; 0x17B6; 0x2E; 0x1794; 0x2E; 0x62] in
  _isAcronymStart text 1 = true
  ∧ _getAcronymLength text 1 = 5%nat
  ∧ last (slice text 1 (1 + _getAcronymLength text 1)) = Some 0x2E.
Proof.
  split; [reflexivity|]. split; [reflexivity|].
  exact (proj2 (proj2 (acronym_token_shape
                         [0x61; 0x1780; 0x17B6; 0x2E; 0x1794; 0x2E; 0x62] 1 eq_refl))).
Defined.

Lemma cluster_tail_shape (s : list Z) :
  ∀ d0, d0 ≠ 0x17D2 →
    ∃ d, last (d0 :: take (cluster_tail s) s) = Some d ∧ d ≠ 0x17D2.
Proof.
  induction s as [s IH] using list_length_ind. intros d0 Hd0.
  destruct s as [|c rest]; [by eauto|]. cbn [cluster_tail].
  destruct (c =? 0x17D2) eqn:Hc.
  - destruct rest as [|sub rest']; [by eauto|].
    destruct ((0x1780 <=? sub) && (sub <=? 0x17A2)) eqn:Hsub; [|by eauto].
    destruct (IH rest' ltac:(simpl; lia) sub) as (d & Hlast & Hd).
    { apply andb_true_iff in Hsub as [_ ?%Z.leb_le]. lia. }
    by exists d.
  - destruct (_ || _ || _); [|by eauto]. apply Z.eqb_neq in Hc.
    destruct (IH rest ltac:(simpl; lia) c Hc) as (d & Hlast & Hd). by exists d.
Qed.

(** X12: the cluster scanner returns at least one character and stays
    within the text; from a character that is not a base it returns
    exactly one; and a cluster that starts at a base never ends in a coeng
    U+17D2 (a coeng is taken only together with the consonant after it). *)
Theorem cluster_token_shape (text : list Z) (i : nat) (code : Z) :
  text !! i = Some code →
  let clusterLen := _getKhmerClusterLength text i in
  (1 ≤ clusterLen ≤ length text - i)%nat
  ∧ (is_cluster_base code = false → clusterLen = 1%nat)
  ∧ (is_cluster_base code = true →
     ∃ d, last (slice text i (i + clusterLen)) = Some d ∧ d ≠ 0x17D2).
Proof.
  intros Hc clusterLen. pose proof (lookup_lt_Some _ _ _ Hc) as Hi.
  pose proof (cluster_length_bounds text i Hi) as Hbounds.
  unfold clusterLen, _getKhmerClusterLength in *. rewrite (drop_S _ _ _ Hc) in *.
  split_and!; [lia..| |].
  - by intros ->.
  - intros Hb. rewrite Hb. simpl. rewrite (slice_from_drop _ _ _ _ Hc).
    apply cluster_tail_shape. intros ->. done.
Qed.

Lemma cluster_token_shape_witness :
  let text := [0x1780; 0x17D2; 0x1781; 0x17B6; 0x17D2; 0x20] in
  text !! 0%nat = Some 0x1780
  ∧ _getKhmerClusterLength text 0 = 4%nat
  ∧ ∃ d, last (slice text 0 (0 + _getKhmerClusterLength text 0)) = Some d ∧ d ≠ 0x17D2.
Proof.
  split; [reflexivity|]. split; [reflexivity|].
  exact (proj2 (proj2 (cluster_token_shape
                         [0x1780; 0x17D2; 0x1781; 0x17B6; 0x17D2; 0x20] 0 0x1780 eq_refl))
           eq_refl).
Defined.
End ScannerExtras.

(** ** Variants *)

Section VariantExtras.
Import KhmerSegmenter.

Lemma elem_of_set_add (x y : list Z) (s : list (list Z)) :
  x ∈ set_add y s ↔ x = y ∨ x ∈ s.
Proof.
  unfold set_add. case_bool_decide as Hy.
  - split; [by right|]. by intros [->|?].
  - rewrite elem_of_app, list_elem_of_singleton. tauto.
Qed.

Lemma base_set_elem (init l : list (list Z)) (x : list Z) :
  x ∈ foldl (λ s v, set_add v s) init l → x ∈ init ∨ x ∈ l.
Proof.
  revert init. induction l as [|v l IH]; intros init; simpl; [by left|].
  intros [Hin|Hin]%IH; [|right; by right].
  apply elem_of_set_add in Hin as [->|Hin]; [right; by left|by left].
Qed.

Lemma swap_fold_elem (l acc : list (list Z)) (x : list Z) :
  x ∈ foldl (λ finalVariants w,
               let finalVariants := if regex_test p1_at w
                                    then set_add (regex_swap p1_at w) finalVariants
                                    else finalVariants in
               if regex_test p2_at w
               then set_add (regex_swap p2_at w) finalVariants
               else finalVariants) acc l →
  x ∈ acc
  ∨ ∃ w, w ∈ l ∧ ((regex_test p1_at w = true ∧ x = regex_swap p1_at w)
                  ∨ (regex_test p2_at w = true ∧ x = regex_swap p2_at w)).
Proof.
  revert acc. induction l as [|w l IH]; intros acc; simpl; [by left|].
  intros [Hin|(w' & Hw' & Hcase)]%IH.
  - destruct (regex_test p2_at w) eqn:H2.
    + apply elem_of_set_add in Hin as [->|Hin].
      { right. exists w. split; [by left|]. by right. }
      destruct (regex_test p1_at w) eqn:H1; [|by left].
      apply elem_of_set_add in Hin as [->|Hin]; [|by left].
      right. exists w. split; [by left|]. by left.
    + destruct (regex_test p1_at w) eqn:H1; [|by left].
      apply elem_of_set_add in Hin as [->|Hin]; [|by left].
      right. exists w. split; [by left|]. by left.
  - right. exists w'. split; [by right|done].
Qed.

(** Where the elements of [_generateVariants word] come from. *)
Lemma generateVariants_elem (word x : list Z) :
  x ∈ _generateVariants word →
  (includes [0x17D2; 0x178F] word = true ∧ x = ta_to_da word)
  ∨ (includes [0x17D2; 0x178A] word = true ∧ x = da_to_ta word)
  ∨ ∃ w, variant_base word w
         ∧ ((regex_test p1_at w = true ∧ x = regex_swap p1_at w)
            ∨ (regex_test p2_at w = true ∧ x = regex_swap p2_at w)).
Proof.
  unfold _generateVariants. cbv zeta.
  set (v1 := if includes [0x17D2; 0x178F] word
             then set_add (replace_all2 0x17D2 0x178F [0x17D2; 0x178A] word) []
             else []).
  set (v2 := if includes [0x17D2; 0x178A] word
             then set_add (replace_all2 0x17D2 0x178A [0x17D2; 0x178F] word) v1
             else v1).
  assert (∀ y, y ∈ v1 → includes [0x17D2; 0x178F] word = true ∧ y = ta_to_da word) as Hv1.
  { intros y. unfold v1. destruct (includes [0x17D2; 0x178F] word); [|by intros ?%elem_of_nil].
    intros [->|?%elem_of_nil]%elem_of_set_add; done. }
  assert (∀ y, y ∈ v2 →
            (includes [0x17D2; 0x178F] word = true ∧ y = ta_to_da word)
            ∨ (includes [0x17D2; 0x178A] word = true ∧ y = da_to_ta word)) as Hv2.
  { intros y. unfold v2. destruct (includes [0x17D2; 0x178A] word).
    - intros [->|Hy]%elem_of_set_add; [by right|left; by apply Hv1].
    - intros Hy. left. by apply Hv1. }
  intros [Hin|(w & Hw & Hcase)]%swap_fold_elem.
  - destruct (Hv2 x Hin) as [?|?]; [by left|right; by left].
  - do 2 right. exists w. split; [|done].
    apply base_set_elem in Hw as [Hw|Hw].
    + apply list_elem_of_singleton in Hw. by left.
    + destruct (Hv2 w Hw) as [?|?]; [right; by left|by do 2 right].
Qed.

Lemma replace_all2_step (a b : Z) (rep : list Z) (x y : Z) (rest : list Z) :
  replace_all2 a b rep (x :: y :: rest)
  = if (x =? a) && (y =? b) then rep ++ replace_all2 a b rep rest
    else x :: replace_all2 a b rep (y :: rest).
Proof. reflexivity. Qed.

Lemma regex_swap_step (at_ : Z → Z → Z → Z → bool) (a b c d : Z) (rest : list Z) :
  regex_swap at_ (a :: b :: c :: d :: rest)
  = if at_ a b c d then c :: d :: a :: b :: regex_swap at_ rest
    else a :: regex_swap at_ (b :: c :: d :: rest).
Proof. reflexivity. Qed.

Lemma regex_test_step (at_ : Z → Z → Z → Z → bool) (a b c d : Z) (rest : list Z) :
  regex_test at_ (a :: b :: c :: d :: rest)
  = at_ a b c d || regex_test at_ (b :: c :: d :: rest).
Proof. reflexivity. Qed.

Lemma regex_swap_short (at_ : Z → Z → Z → Z → bool) (s : list Z) :
  (length s < 4)%nat → regex_swap at_ s = s ∧ regex_test at_ s = false.
Proof. destruct s as [|a [|b [|c [|d rest]]]]; simpl; by (done || lia). Qed.

Lemma replace_all2_length (a b a' b' : Z) (s : list Z) :
  length (replace_all2 a b [a'; b'] s) = length s.
Proof.
  induction s as [s IH] using list_length_ind.
  destruct s as [|x [|y rest]]; [done..|]. rewrite replace_all2_step.
  destruct ((x =? a) && (y =? b)).
  - cbn [app length]. rewrite (IH rest) by (simpl; lia). done.
  - cbn [length]. rewrite (IH (y :: rest)) by (simpl; lia). done.
Qed.

Lemma regex_swap_perm (at_ : Z → Z → Z → Z → bool) (s : list Z) :
  regex_swap at_ s ≡ₚ s.
Proof.
  induction s as [s IH] using list_length_ind.
  destruct (decide (length s < 4)%nat) as [Hshort|Hlong].
  { by rewrite (proj1 (regex_swap_short at_ s Hshort)). }
  destruct s as [|a [|b [|c [|d rest]]]]; try (simpl in Hlong; lia).
  rewrite regex_swap_step. destruct (at_ a b c d).
  - rewrite (IH rest) by (simpl; lia).
    change (c :: d :: a :: b :: rest) with ([c; d] ++ [a; b] ++ rest).
    change (a :: b :: c :: d :: rest) with ([a; b] ++ [c; d] ++ rest).
    rewrite !app_assoc. apply Permutation_app_tail, Permutation_app_comm.
  - apply perm_skip. apply IH. simpl. lia.
Qed.

(** X13: every variant that [_generateVariants] returns has the same
    length as the word, so variants of a non-empty word are non-empty. *)
Theorem generateVariants_same_length (word v : list Z) :
  v ∈ _generateVariants word → length v = length word.
Proof.
  assert (∀ w, variant_base word w → length w = length word) as Hbase.
  { intros w [->|[[_ ->]|[_ ->]]]; [done|apply replace_all2_length..]. }
  intros [[_ ->]|[[_ ->]|(w & Hw & [[_ ->]|[_ ->]])]]%generateVariants_elem.
  - apply replace_all2_length.
  - apply replace_all2_length.
  - rewrite (Permutation_length (regex_swap_perm _ _)). by apply Hbase.
  - rewrite (Permutation_length (regex_swap_perm _ _)). by apply Hbase.
Qed.

Lemma generateVariants_same_length_witness :
  [0x1780; 0x17D2; 0x179A; 0x17D2; 0x178A]
    ∈ _generateVariants [0x1780; 0x17D2; 0x178F; 0x17D2; 0x179A]
  ∧ length [0x1780; 0x17D2; 0x179A; 0x17D2; 0x178A]
    = length [0x1780; 0x17D2; 0x178F; 0x17D2; 0x179A].
Proof.
  assert ([0x1780; 0x17D2; 0x179A; 0x17D2; 0x178A]
            ∈ _generateVariants [0x1780; 0x17D2; 0x178F; 0x17D2; 0x179A]) as Hin.
  { vm_compute. do 2 right. left. }
  split; [exact Hin|]. exact (generateVariants_same_length _ _ Hin).
Defined.

Lemma regex_test_coeng (at_ : Z → Z → Z → Z → bool) (s : list Z) :
  (∀ a b c d, at_ a b c d = true → a = 0x17D2) →
  regex_test at_ s = true → 0x17D2 ∈ s.
Proof.
  intros Hat. induction s as [|a s IH]; [done|].
  destruct s as [|b [|c [|d rest]]]; [done..|]. rewrite regex_test_step.
  intros [Hm|Hin]%orb_true_iff.
  - apply Hat in Hm as ->. by left.
  - right. by apply IH.
Qed.

Lemma p1_at_coeng (a b c d : Z) : p1_at a b c d = true → a = 0x17D2.
Proof. unfold p1_at. by intros [[[?%Z.eqb_eq _]%andb_true_iff _]%andb_true_iff _]%andb_true_iff. Qed.

Lemma p2_at_coeng (a b c d : Z) : p2_at a b c d = true → a = 0x17D2.
Proof. unfold p2_at. by intros [[[?%Z.eqb_eq _]%andb_true_iff _]%andb_true_iff _]%andb_true_iff. Qed.

(** X14: a word without a coeng U+17D2 has no variants. *)
Theorem generateVariants_without_coeng (word : list Z) :
  0x17D2 ∉ word → _generateVariants word = [].
Proof.
  intros Hno. unfold _generateVariants. cbv zeta.
  destruct (includes [0x17D2; 0x178F] word) eqn:H1;
    [by apply includes_head_elem in H1|].
  destruct (includes [0x17D2; 0x178A] word) eqn:H2;
    [by apply includes_head_elem in H2|].
  cbn [foldl].
  destruct (regex_test p1_at word) eqn:H3;
    [by apply (regex_test_coeng _ _ p1_at_coeng) in H3|].
  destruct (regex_test p2_at word) eqn:H4;
    [by apply (regex_test_coeng _ _ p2_at_coeng) in H4|].
  done.
Qed.

Lemma generateVariants_without_coeng_witness :
  0x17D2 ∉ [0x1780; 0x17B6; 0x1780] ∧ _generateVariants [0x1780; 0x17B6; 0x1780] = [].
Proof.
  assert (0x17D2 ∉ [0x1780; 0x17B6; 0x1780]) as Hno.
  { intros Hin. repeat (apply elem_of_cons in Hin as [Hin|Hin]; [discriminate Hin|]).
    by apply elem_of_nil in Hin. }
  split; [exact Hno|]. exact (generateVariants_without_coeng _ Hno).
Defined.

Lemma generateVariants_short (word : list Z) :
  (length word < 2)%nat → _generateVariants word = [].
Proof.
  destruct word as [|c [|d rest]]; [done| |simpl; lia]. intros _.
  unfold _generateVariants. cbv zeta. cbn [includes starts_with].
  rewrite !andb_false_r. cbn [orb foldl set_add]. done.
Qed.

Lemma occurrences_cons (code x : Z) (s : list Z) :
  occurrences code (x :: s)
  = ((if decide (x = code) then 1 else 0) + occurrences code s)%nat.
Proof. unfold occurrences. rewrite filter_cons. by destruct (decide (x = code)). Qed.

Lemma occurrences_perm (code : Z) (s1 s2 : list Z) :
  s1 ≡ₚ s2 → occurrences code s1 = occurrences code s2.
Proof. intros Hp. unfold occurrences. by rewrite Hp. Qed.

(** Replacing every [a b] by [a b'] removes occurrences of [b], at least
    one when the pair occurs. *)
Lemma occurrences_replace_all2 (a b b' : Z) (s : list Z) :
  a ≠ b → b' ≠ b →
  (occurrences b (replace_all2 a b [a; b'] s) ≤ occurrences b s)%nat
  ∧ (includes [a; b] s = true →
     (occurrences b (replace_all2 a b [a; b'] s) < occurrences b s)%nat).
Proof.
  intros Hab Hb'. induction s as [s IH] using list_length_ind.
  destruct s as [|x [|y rest]]; [split; [done|done]|..].
  { split; [done|]. cbn [includes starts_with]. by rewrite andb_false_r. }
  rewrite replace_all2_step.
  destruct (IH rest ltac:(simpl; lia)) as [Hle1 _].
  destruct (IH (y :: rest) ltac:(simpl; lia)) as [Hle2 Hlt2].
  destruct ((x =? a) && (y =? b)) eqn:Hm.
  - apply andb_true_iff in Hm as [->%Z.eqb_eq ->%Z.eqb_eq].
    cbn [app]. rewrite !occurrences_cons.
    rewrite !decide_False by done. rewrite decide_True by done.
    split; [lia|]. intros _. lia.
  - rewrite !(occurrences_cons b x). split; [lia|].
    change (includes [a; b] (x :: y :: rest))
      with (starts_with [a; b] (x :: y :: rest) || includes [a; b] (y :: rest)).
    cbn [starts_with]. rewrite andb_true_r.
    replace ((a =? x) && (b =? y)) with false.
    2:{ symmetry. rewrite <-Hm. by rewrite (Z.eqb_sym a x), (Z.eqb_sym b y). }
    intros Hinc%Hlt2. lia.
Qed.

Lemma regex_swap_changes (at_ : Z → Z → Z → Z → bool) (s : list Z) :
  (∀ a b c d, at_ a b c d = true → d ≠ b) →
  regex_test at_ s = true → regex_swap at_ s ≠ s.
Proof.
  intros Hat. induction s as [s IH] using list_length_ind.
  destruct (decide (length s < 4)%nat) as [Hshort|Hlong].
  { by rewrite (proj2 (regex_swap_short at_ s Hshort)). }
  destruct s as [|a [|b [|c [|d rest]]]]; try (simpl in Hlong; lia).
  rewrite regex_test_step, regex_swap_step. destruct (at_ a b c d) eqn:Hm.
  - intros _ [= -> Hdb _]. by apply (Hat _ _ _ _ Hm).
  - simpl. intros Ht [= Heq]. by apply (IH (b :: c :: d :: rest) ltac:(simpl; lia)).
Qed.

Lemma p1_at_changes (a b c d : Z) : p1_at a b c d = true → d ≠ b.
Proof.
  unfold p1_at.
  intros [[[_ ?%Z.eqb_eq]%andb_true_iff _]%andb_true_iff
            ?%negb_true_iff%Z.eqb_neq]%andb_true_iff. congruence.
Qed.

Lemma p2_at_changes (a b c d : Z) : p2_at a b c d = true → d ≠ b.
Proof.
  unfold p2_at.
  intros [[[_ ?%negb_true_iff%Z.eqb_neq]%andb_true_iff _]%andb_true_iff
            ?%Z.eqb_eq]%andb_true_iff. congruence.
Qed.

(** X15: the word itself is never among its variants: the coeng-ta and
    coeng-da replacements change the number of U+178F or U+178A
    characters, and a swap of subscripts changes the string. *)
Theorem generateVariants_excludes_word (word : list Z) :
  word ∉ _generateVariants word.
Proof.
  assert (includes [0x17D2; 0x178F] word = true →
          (occurrences 0x178F (ta_to_da word) < occurrences 0x178F word)%nat) as Hta.
  { apply occurrences_replace_all2; done. }
  assert (includes [0x17D2; 0x178A] word = true →
          (occurrences 0x178A (da_to_ta word) < occurrences 0x178A word)%nat) as Hda.
  { apply occurrences_replace_all2; done. }
  intros [[Hi Heq]|[[Hi Heq]|(w & Hw & Hcase)]]%generateVariants_elem.
  - apply Hta in Hi. rewrite <-Heq in Hi. lia.
  - apply Hda in Hi. rewrite <-Heq in Hi. lia.
  - assert (∀ at_, (∀ a b c d, at_ a b c d = true → d ≠ b) →
              regex_test at_ w = true → word ≠ regex_swap at_ w) as Hswap.
    { intros at_ Hat Ht Heq. destruct Hw as [->|[[Hi ->]|[Hi ->]]].
      - by apply (regex_swap_changes at_ word Hat Ht).
      - apply Hta in Hi. rewrite Heq in Hi at 2.
        rewrite (occurrences_perm _ _ _ (regex_swap_perm at_ _)) in Hi. lia.
      - apply Hda in Hi. rewrite Heq in Hi at 2.
        rewrite (occurrences_perm _ _ _ (regex_swap_perm at_ _)) in Hi. lia. }
    destruct Hcase as [[Ht Heq]|[Ht Heq]].
    + by apply (Hswap p1_at p1_at_changes Ht).
    + by apply (Hswap p2_at p2_at_changes Ht).
Qed.
End VariantExtras.

(** ** Post-processing only merges tokens *)

Section MergeExtras.
Import RuleBasedEngine KhmerSegmenter.

Lemma merges_cons (seg : list Z) (rest out : list (list Z)) :
  merges rest out → merges (seg :: rest) (seg :: out).
Proof.
  intros Hm. pose proof (merges_group [seg] rest out ltac:(done) Hm) as Hg.
  replace (join [seg]) with seg in Hg; [done|].
  unfold join. simpl. by rewrite app_nil_r.
Qed.

Lemma merges_refl (l : list (list Z)) : merges l l.
Proof. induction l; [constructor|by apply merges_cons]. Qed.

Lemma merges_app (a b c d : list (list Z)) :
  merges a b → merges c d → merges (a ++ c) (b ++ d).
Proof.
  induction 1 as [|g rest out Hg _ IH]; intros Hcd; [done|].
  rewrite <-app_assoc. cbn [app]. constructor; [done|]. by apply IH.
Qed.

Lemma merges_join (a b : list (list Z)) : merges a b → join a = join b.
Proof.
  induction 1 as [|g rest out _ _ IH]; [done|].
  unfold join in *. rewrite join_app. simpl. by rewrite IH.
Qed.

Lemma merges_length (a b : list (list Z)) : merges a b → (length b ≤ length a)%nat.
Proof.
  induction 1 as [|g rest out Hg _ IH]; [done|].
  rewrite length_app. destruct g; [done|]. simpl. lia.
Qed.

Lemma merges_app_inv (b1 b2 : list (list Z)) :
  ∀ a, merges a (b1 ++ b2) →
    ∃ a1 a2, a = a1 ++ a2 ∧ merges a1 b1 ∧ merges a2 b2.
Proof.
  induction b1 as [|x b1 IH]; intros a Hm.
  { exists [], a. split_and!; [done|constructor|done]. }
  cbn [app] in Hm. inversion Hm as [|g rest out Hg Hrest]; subst.
  destruct (IH _ Hrest) as (r1 & r2 & -> & Hm1 & Hm2).
  exists (g ++ r1), r2. split_and!; [by rewrite app_assoc| by constructor|done].
Qed.

Lemma merges_nil_l (b : list (list Z)) : merges [] b → b = [].
Proof.
  intros Hm. remember [] as a eqn:Ha. destruct Hm as [|g rest out Hg _]; [done|].
  apply app_eq_nil in Ha as [-> _]. done.
Qed.

Lemma merges_trans (a b c : list (list Z)) : merges a b → merges b c → merges a c.
Proof.
  intros Hab Hbc. revert a Hab.
  induction Hbc as [|g rest out Hg _ IH]; intros a Hab.
  { inversion Hab. constructor. }
  apply merges_app_inv in Hab as (a1 & a2 & -> & Hm1 & Hm2).
  rewrite <-(merges_join _ _ Hm1). constructor; [|by apply IH].
  intros ->. apply merges_nil_l in Hm1. done.
Qed.

Lemma merges_pair (pre post : list (list Z)) (a b : list Z) :
  merges (pre ++ a :: b :: post) (pre ++ (a ++ b) :: post).
Proof.
  apply merges_app; [apply merges_refl|].
  pose proof (merges_group [a; b] post post ltac:(done) (merges_refl post)) as Hg.
  replace (join [a; b]) with (a ++ b) in Hg; [done|].
  unfold join. simpl. by rewrite app_nil_r.
Qed.

Section Engine.
Context (checkInvalidSingle isSeparator : list Z → bool) (rules : list rule).

Lemma apply_loop_merges (fuel : nat) :
  ∀ st out, apply_loop checkInvalidSingle isSeparator rules fuel st = Some out →
    merges st.1 out.
Proof.
  induction fuel as [|fuel IH]; intros [segments i] out; cbn [apply_loop].
  - destruct (apply_step _ _ _ (segments, i)); [done|]. intros [= <-]. apply merges_refl.
  - destruct (apply_step _ _ _ (segments, i)) as [st'|] eqn:Hstep;
      [|intros [= <-]; apply merges_refl].
    intros Hout. pose proof (IH _ _ Hout) as Hm.
    apply apply_step_cases in Hstep as [_ [(pre & a & b & post & -> & Hs & _) | ->]];
      [|done].
    cbn [fst]. rewrite Hs in Hm. eapply merges_trans; [apply merges_pair|exact Hm].
Qed.

(** X16: the list that [applyRules] returns is the list it was given
    with runs of neighbouring segments concatenated: the engine never
    splits a segment, reorders segments or changes their text. *)
Theorem applyRules_merges_neighbours (segments : list (list Z)) (extra : nat) :
  ∃ out, applyRules checkInvalidSingle isSeparator rules
           (2 * length segments + extra) segments = Some out
    ∧ merges segments out.
Proof.
  destruct (apply_loop_terminates checkInvalidSingle isSeparator rules
              (2 * length segments + extra) (segments, O)) as [out Hout].
  { simpl. lia. }
  { unfold apply_measure. simpl. lia. }
  exists out. split; [done|]. exact (apply_loop_merges _ _ _ Hout).
Qed.
End Engine.

Section Grouper.
Context `{CostArith, UnicodeTables} (sg : t).

Lemma group_loop_merges (segs : list (list Z)) :
  ∀ final buf out, group_loop sg segs final buf = Some out →
    ∃ out', out = final ++ out' ∧ merges (buf ++ segs) out'.
Proof.
  induction segs as [|seg rest IH]; intros final buf out; cbn [group_loop].
  { intros [= <-]. destruct buf as [|b buf].
    - exists []. split; [by rewrite app_nil_r|constructor].
    - exists [join (b :: buf)]. split; [done|].
      rewrite app_nil_r. rewrite <-(app_nil_r (b :: buf)) at 1.
      by repeat constructor. }
  destruct (head seg) as [c|]; [|done]. rewrite bind_Some.
  destruct (is_known sg seg c).
  { intros (out' & -> & Hm)%IH. cbn [app] in Hm. destruct buf as [|b buf].
    - exists (seg :: out'). split; [by rewrite <-app_assoc|].
      by apply merges_cons.
    - exists (join (b :: buf) :: seg :: out'). split.
      { cbn [flush_unknown]. by rewrite <-!app_assoc. }
      constructor; [done|]. by apply merges_cons. }
  destruct (last buf) as [lastSeg|] eqn:Hlast.
  - destruct (head lastSeg) as [lc|]; [|done]. rewrite bind_Some.
    destruct (negb _).
    + intros (out' & -> & Hm)%IH. exists (join buf :: out').
      split; [by rewrite <-app_assoc|].
      constructor; [|done]. intros ->. done.
    + intros (out' & -> & Hm)%IH. exists out'. split; [done|].
      by rewrite <-app_assoc in Hm.
  - apply last_None in Hlast as ->. intros (out' & -> & Hm)%IH. by exists out'.
Qed.

(** X17: the unknown grouper fails exactly on a list with an empty
    segment (the first character of an empty string is [undefined]);
    otherwise its result is the list with runs of neighbouring segments
    concatenated. *)
Theorem grouper_merges_neighbours (segs : list (list Z)) :
  (is_Some (group_loop sg segs [] []) ↔ all_nonempty segs)
  ∧ ∀ out, group_loop sg segs [] [] = Some out → merges segs out.
Proof.
  split; [split|].
  - assert (∀ final buf, is_Some (group_loop sg segs final buf) → all_nonempty segs)
      as Hgen; [|apply Hgen].
    induction segs as [|seg rest IH]; intros final buf; [constructor|].
    cbn [group_loop]. destruct seg as [|c seg']; [by intros [? ?]|].
    cbn [head]. rewrite bind_Some. intros Hs. constructor; [done|].
    destruct (is_known sg (c :: seg') c); [by eapply IH|].
    destruct (last buf) as [lastSeg|]; [|by eapply IH].
    destruct (head lastSeg); [|by destruct Hs]. rewrite bind_Some in Hs.
    destruct (negb _); by eapply IH.
  - intros Hne. destruct (group_loop_preserves sg segs Hne [] []) as (out & -> & _);
      [constructor|done].
  - intros out (out' & -> & Hm)%group_loop_merges. done.
Qed.

(** X18: on a list whose segments all pass the known-token test, the
    grouper returns the list unchanged. *)
Theorem grouper_keeps_known_segments (segs : list (list Z)) :
  Forall (λ seg, ∃ c, head seg = Some c ∧ is_known sg seg c = true) segs →
  group_loop sg segs [] [] = Some segs.
Proof.
  assert (∀ final,
    Forall (λ seg, ∃ c, head seg = Some c ∧ is_known sg seg c = true) segs →
    group_loop sg segs final [] = Some (final ++ segs)) as Hgen; [|apply (Hgen [])].
  induction segs as [|seg rest IH]; intros final Hall; cbn [group_loop].
  { cbn [flush_unknown]. by rewrite app_nil_r. }
  apply Forall_cons_1 in Hall as [(c & Hc & Hk) Hrest]. rewrite Hc, bind_Some, Hk.
  cbn [flush_unknown]. rewrite (IH _ Hrest). by rewrite <-app_assoc.
Qed.

(** X19: the post-processing of [segment] only removes boundaries: the
    tokens returned by default are the raw tokens of the DP with runs of
    neighbours concatenated, so there are at most as many of them, and
    the raw tokens are at most as many as the characters of the
    normalized text. *)
Theorem postprocessing_merges_raw_tokens (x : list Z) (extra : nat) :
  let fuel := (2 * length (KhmerNormalizer.normalize x) + extra)%nat in
  ∃ raw toks,
    segment sg fuel x true = Some raw
    ∧ segment sg fuel x false = Some toks
    ∧ merges raw toks
    ∧ (length toks ≤ length raw ≤ length (KhmerNormalizer.normalize x))%nat.
Proof.
  cbv zeta.
  destruct (segment_cover sg x true extra) as (raw & Hraw & Hjr & Hner).
  destruct (segment_cover sg x false extra) as (toks & Htoks & _).
  exists raw, toks. split; [done|]. split; [done|].
  assert (merges raw toks) as Hm.
  { revert Hraw Htoks. unfold segment.
    destruct (length (KhmerNormalizer.normalize x) =? 0)%nat.
    { intros [= <-] [= <-]. constructor. }
    destruct (dp_table sg _) as [dp|]; [|done]. rewrite !bind_Some.
    destruct (backtrack _ _ dp _ []) as [segments|]; [|done]. rewrite !bind_Some.
    intros [= <-]. unfold applyRules.
    destruct (apply_loop _ _ _ _ _) as [pass2|] eqn:Hp2; [|done]. rewrite bind_Some.
    intros (out' & -> & Hg)%group_loop_merges.
    apply apply_loop_merges in Hp2. cbn [fst app] in *.
    by eapply merges_trans. }
  split; [done|]. split; [by apply merges_length|].
  rewrite <-Hjr. by apply join_nonempty_length.
Qed.
End Grouper.

Lemma grouper_keeps_known_segments_witness :
  Forall (λ seg, ∃ c, head seg = Some c
                      ∧ is_known (H := IdealCost.arith) (H0 := IdealCost.ascii_tables)
                          example_segmenter seg c = true)
         [[0x1780; 0x17B6]; [0x31]; [0x20]]
  ∧ group_loop (H := IdealCost.arith) (H0 := IdealCost.ascii_tables)
      example_segmenter [[0x1780; 0x17B6]; [0x31]; [0x20]] [] []
    = Some [[0x1780; 0x17B6]; [0x31]; [0x20]].
Proof.
  assert (Forall (λ seg, ∃ c, head seg = Some c
                      ∧ is_known (H := IdealCost.arith) (H0 := IdealCost.ascii_tables)
                          example_segmenter seg c = true)
         [[0x1780; 0x17B6]; [0x31]; [0x20]]) as Hall.
  { repeat constructor.
    - exists 0x1780. split; [reflexivity|vm_compute; reflexivity].
    - exists 0x31. split; [reflexivity|vm_compute; reflexivity].
    - exists 0x20. split; [reflexivity|vm_compute; reflexivity]. }
  split; [exact Hall|].
  exact (grouper_keeps_known_segments example_segmenter _ Hall).
Defined.
End MergeExtras.

(** ** The raw tokens of the DP *)

Section RawTokenExtras.
Import KhmerSegmenter.

Lemma normalize_zero_width_only (x : list Z) :
  Forall (λ c, KhmerNormalizer.is_zero_width c = true) x → KhmerNormalizer.normalize x = [].
Proof.
  intros Hall. rewrite normalize_unfold.
  assert (KhmerNormalizer.strip_zero_width x = []) as ->; [|done].
  unfold KhmerNormalizer.strip_zero_width.
  induction Hall as [|c x Hc _ IH]; [done|].
  rewrite filter_cons. destruct (decide (KhmerNormalizer.is_zero_width c = false));
    [congruence|done].
Qed.

Section WithSegmenter.
Context `{CostArith, UnicodeTables} (sg : t).

(** X20: on a text made only of the zero-width marks U+200B, U+200C and
    U+200D, [segment] returns the empty list, with or without
    post-processing, without entering any of its loops. *)
Theorem segment_zero_width_only (x : list Z) (disablePostProcessing : bool) (fuel : nat) :
  Forall (λ c, KhmerNormalizer.is_zero_width c = true) x →
  segment sg fuel x disablePostProcessing = Some [].
Proof.
  intros Hall. unfold segment. by rewrite (normalize_zero_width_only x Hall).
Qed.

(** The tokens of a cover are the slices of its transitions, and the
    token at index [idx] starts where the tokens before it end. *)
Lemma cover_tokens (text : list Z) (k : nat) (c : cost) (segs : list (list Z)) :
  cover_to sg text k c segs →
  (k ≤ length text)%nat ∧ join segs = take k text
  ∧ ∀ idx tok, segs !! idx = Some tok →
      ∃ j f, transition sg text (length (join (take idx segs))) j f
             ∧ tok = slice text (length (join (take idx segs))) j.
Proof.
  induction 1 as [|i j f c segs _ (Hi & Hjoin & Htoks) Htr].
  { split; [lia|]. split; [done|]. intros idx tok Hl. by rewrite lookup_nil in Hl. }
  pose proof (transition_range sg text _ _ _ Htr) as Hrange.
  split; [lia|]. split.
  { unfold join in *. rewrite join_app, Hjoin. simpl. rewrite app_nil_r.
    apply take_slice. lia. }
  intros idx tok Hl. destruct (decide (idx < length segs)%nat) as [Hlt|Hge].
  - rewrite lookup_app_l in Hl by done. rewrite take_app_le by lia. by apply Htoks.
  - rewrite lookup_app_r in Hl by lia.
    destruct (idx - length segs)%nat as [|m] eqn:Hm; [|by rewrite lookup_cons_ne_0 in Hl].
    injection Hl as <-. assert (idx = length segs) as -> by lia.
    rewrite take_app_length, Hjoin, length_take_le by lia. by exists j, f.
Qed.
End WithSegmenter.

Section WithLaws.
Context `{CostArith, UnicodeTables} `{!CostLaws} (sg : t).

(** The raw result of [segment] is a cover composed from the transition
    table of the DP. *)
Lemma raw_tokens_cover (x : list Z) (extra : nat) :
  finite (unknownCost sg) →
  ∃ raw c,
    segment sg (2 * length (KhmerNormalizer.normalize x) + extra) x true = Some raw
    ∧ cover_to sg (KhmerNormalizer.normalize x)
        (length (KhmerNormalizer.normalize x)) c raw.
Proof.
  intros Hu. set (normalized := KhmerNormalizer.normalize x).
  set (n := length normalized).
  destruct (dp_table_shape sg normalized) as (dp & Hdp & Hwf).
  pose proof (dp_table_inv sg normalized dp Hdp) as Hinv.
  destruct (dp_table_finite sg normalized dp Hu Hdp) as (cell & Hcell & Hfin).
  assert (n = O ∨ cell.2 ≠ -1) as Hreached.
  { destruct (decide (cell.2 = -1)) as [Hm|]; [|by right].
    destruct (inv_unreached _ _ _ _ Hinv _ _ Hcell Hm) as [|Hc]; [by left|].
    unfold finite in Hfin. by rewrite Hc, cinf_top in Hfin. }
  destruct (backtrack_is_cover sg normalized dp Hinv (2 * n + extra) n [] cell)
    as (segs & Hbt & Hcover); [lia|done..|].
  exists (reverse segs), cell.1. split; [|done].
  unfold segment. fold normalized. fold n. destruct (n =? 0)%nat eqn:Hn.
  - apply Nat.eqb_eq in Hn. rewrite Hn in Hbt.
    destruct (2 * 0 + extra)%nat; simpl in Hbt; by injection Hbt as <-.
  - by rewrite Hdp, bind_Some, Hbt, bind_Some.
Qed.

(** X21: in the raw result a token that starts at a trapped position (a
    dependent vowel U+17B6..U+17C5, or the character right after a
    coeng U+17D2) is that single character: no number, acronym,
    dictionary word or cluster starts there. *)
Theorem trapped_position_single_char (x : list Z) (extra : nat) :
  finite (unknownCost sg) →
  let normalized := KhmerNormalizer.normalize x in
  ∃ raw,
    segment sg (2 * length normalized + extra) x true = Some raw
    ∧ ∀ idx tok cur,
        raw !! idx = Some tok →
        normalized !! length (join (take idx raw)) = Some cur →
        force_repair normalized (length (join (take idx raw))) cur = true →
        tok = [cur].
Proof.
  intros Hu normalized. destruct (raw_tokens_cover x extra Hu) as (raw & c & Hraw & Hcov).
  exists raw. split; [done|]. intros idx tok cur Htok Hcur Hforce.
  destruct (cover_tokens sg _ _ _ _ Hcov) as (_ & _ & Htoks).
  destruct (Htoks idx tok Htok) as (j & f & Htr & ->). fold normalized in Htr |- *.
  assert (j = S (length (join (take idx raw)))) as ->.
  { inversion Htr; subst; try congruence; lia. }
  unfold slice. rewrite (drop_S _ _ _ Hcur).
  replace (S _ - _)%nat with 1%nat by lia. done.
Qed.

(** X22: a raw token of more than one character is a dictionary word, or
    starts with a digit, or starts with a Khmer base character
    (U+1780..U+17B3): text in other scripts, punctuation and stranded
    modifiers are cut one character at a time unless the dictionary
    holds them. *)
Theorem raw_token_classes (x : list Z) (extra : nat) :
  finite (unknownCost sg) →
  let normalized := KhmerNormalizer.normalize x in
  ∃ raw,
    segment sg (2 * length normalized + extra) x true = Some raw
    ∧ Forall (λ tok, length tok = 1%nat
                     ∨ tok ∈ words sg
                     ∨ ∃ c, head tok = Some c
                            ∧ (_isDigit c = true ∨ is_cluster_base c = true)) raw.
Proof.
  intros Hu normalized. destruct (raw_tokens_cover x extra Hu) as (raw & c & Hraw & Hcov).
  exists raw. split; [done|]. apply Forall_lookup. intros idx tok Htok.
  destruct (cover_tokens sg _ _ _ _ Hcov) as (_ & _ & Htoks).
  destruct (Htoks idx tok Htok) as (j & f & Htr & ->). fold normalized in Htr |- *.
  set (i := length (join (take idx raw))) in *.
  pose proof (transition_range sg _ _ _ _ Htr) as Hrange.
  assert (∀ cur len, normalized !! i = Some cur → (1 ≤ len)%nat →
            head (slice normalized i (i + len)) = Some cur) as Hhead.
  { intros cur len Hcur Hlen. unfold slice. rewrite (drop_S _ _ _ Hcur).
    by destruct (i + len - i)%nat eqn:Hz; [lia|]. }
  assert (length (slice normalized i (S i)) = 1%nat) as Hone.
  { unfold slice. rewrite length_take, length_drop. lia. }
  inversion Htr as [cur Hcur Hf | cur numLen Hcur Hf Hdig Hnum | cur Hcur Hf Hdig Hsep
                    | cur Hcur Hf Hacr | cur j' Hcur Hf Hj Hmax Hword
                    | cur Hcur Hf Hk | cur Hcur Hf Hk]; subst.
  - left. by rewrite Nat.add_1_r.
  - right. right. exists cur. split; [apply Hhead; [done|lia]|by left].
  - left. by rewrite Nat.add_1_r.
  - right. right. exists cur. split; [apply Hhead; [done|lia]|right].
    unfold _isAcronymStart in Hacr. destruct (length normalized <=? i + 1)%nat; [done|].
    rewrite Hcur in Hacr. by destruct (is_cluster_base cur).
  - right. by left.
  - destruct (is_cluster_base cur) eqn:Hb.
    + right. right. exists cur. split; [apply Hhead; [done|lia]|by right].
    + left. unfold _getKhmerClusterLength. rewrite (drop_S _ _ _ Hcur), Hb. simpl.
      by rewrite Nat.add_1_r.
  - left. by rewrite Nat.add_1_r.
Qed.
End WithLaws.

Section Witnesses.
Import IdealCost.

Lemma segment_zero_width_only_witness :
  Forall (λ c, KhmerNormalizer.is_zero_width c = true) [0x200B; 0x200D]
  ∧ segment example_segmenter 0 [0x200B; 0x200D] false = Some [].
Proof.
  assert (Forall (λ c, KhmerNormalizer.is_zero_width c = true) [0x200B; 0x200D]) as Hall
    by (repeat constructor).
  split; [exact Hall|].
  exact (segment_zero_width_only example_segmenter _ false 0 Hall).
Defined.

Lemma trapped_position_single_char_witness :
  let x := [0x1780; 0x17B6; 0x20; 0x17B6; 0x1780; 0x17B6] in
  finite (unknownCost example_segmenter)
  ∧ ∃ raw,
      segment example_segmenter (2 * length (KhmerNormalizer.normalize x) + 0) x true
      = Some raw
      ∧ ∀ idx tok cur,
          raw !! idx = Some tok →
          KhmerNormalizer.normalize x !! length (join (take idx raw)) = Some cur →
          force_repair (KhmerNormalizer.normalize x) (length (join (take idx raw))) cur
          = true →
          tok = [cur].
Proof.
  intros x. split; [reflexivity|].
  apply (trapped_position_single_char example_segmenter x 0). reflexivity.
Defined.

Lemma raw_token_classes_witness :
  let x := [0x1780; 0x17B6; 0x20; 0x31; 0x32; 0x61] in
  finite (unknownCost example_segmenter)
  ∧ ∃ raw,
      segment example_segmenter (2 * length (KhmerNormalizer.normalize x) + 0) x true
      = Some raw
      ∧ Forall (λ tok, length tok = 1%nat
                       ∨ tok ∈ words example_segmenter
                       ∨ ∃ c, head tok = Some c
                              ∧ (_isDigit c = true ∨ is_cluster_base c = true)) raw.
Proof.
  intros x. split; [reflexivity|].
  apply (raw_token_classes example_segmenter x 0). reflexivity.
Defined.
End Witnesses.
End RawTokenExtras.

(** ** The dictionary loader *)

Section DictionaryExtras.
Import KhmerSegmenter.

Lemma includes_single (c : Z) (s : list Z) : includes [c] s = true ↔ c ∈ s.
Proof.
  split; [apply includes_head_elem|].
  induction s as [|a s IH]; intros Hin; [by apply elem_of_nil in Hin|].
  cbn [includes starts_with]. apply elem_of_cons in Hin as [->|Hin].
  - by rewrite Z.eqb_refl.
  - rewrite (IH Hin). by rewrite orb_true_r.
Qed.

Lemma starts_with_single (c : Z) (s : list Z) :
  starts_with [c] s = true ↔ head s = Some c.
Proof.
  destruct s as [|a s]; cbn [starts_with head]; [done|].
  rewrite andb_true_r, Z.eqb_eq. split; [by intros ->|by intros [= ->]].
Qed.

Lemma replace_all2_elem (a b b' : Z) (s : list Z) (c : Z) :
  c ∈ replace_all2 a b [a; b'] s → c ∈ s ∨ c = b'.
Proof.
  induction s as [s IH] using list_length_ind.
  destruct s as [|x [|y rest]]; [by left..|]. rewrite replace_all2_step.
  destruct ((x =? a) && (y =? b)) eqn:Hm.
  - apply andb_true_iff in Hm as [->%Z.eqb_eq ->%Z.eqb_eq]. cbn [app].
    intros [-> | [-> | Hin]%elem_of_cons]%elem_of_cons; [left; by left|by right|].
    destruct (IH rest ltac:(simpl; lia) Hin) as [?|?]; [left|by right].
    by do 2 right.
  - intros [->|Hin]%elem_of_cons; [left; by left|].
    destruct (IH (y :: rest) ltac:(simpl; lia) Hin) as [?|?]; [left|by right].
    by right.
Qed.

Lemma replace_all2_head (a b b' : Z) (s : list Z) :
  head (replace_all2 a b [a; b'] s) = head s.
Proof.
  destruct s as [|x [|y rest]]; [done..|]. rewrite replace_all2_step.
  destruct ((x =? a) && (y =? b)) eqn:Hm; [|done].
  by apply andb_true_iff in Hm as [->%Z.eqb_eq _].
Qed.

Lemma regex_swap_head (at_ : Z → Z → Z → Z → bool) (s : list Z) :
  (∀ a b c d, at_ a b c d = true → c = a) →
  head (regex_swap at_ s) = head s.
Proof.
  intros Hat. destruct s as [|a [|b [|c [|d rest]]]]; [done..|].
  rewrite regex_swap_step. destruct (at_ a b c d) eqn:Hm; [|done].
  by rewrite (Hat _ _ _ _ Hm).
Qed.

Lemma p1_at_heads (a b c d : Z) : p1_at a b c d = true → c = a.
Proof.
  unfold p1_at.
  intros [[[?%Z.eqb_eq _]%andb_true_iff ?%Z.eqb_eq]%andb_true_iff _]%andb_true_iff.
  congruence.
Qed.

Lemma p2_at_heads (a b c d : Z) : p2_at a b c d = true → c = a.
Proof.
  unfold p2_at.
  intros [[[?%Z.eqb_eq _]%andb_true_iff ?%Z.eqb_eq]%andb_true_iff _]%andb_true_iff.
  congruence.
Qed.

(** A variant has the length and the first character of the word, and
    its characters are those of the word, U+178F and U+178A. *)
Lemma variant_shape (word v : list Z) :
  v ∈ _generateVariants word →
  length v = length word ∧ head v = head word
  ∧ ∀ c, c ∈ v → c ∈ word ∨ c = 0x178F ∨ c = 0x178A.
Proof.
  assert (∀ w, variant_base word w →
            length w = length word ∧ head w = head word
            ∧ ∀ c, c ∈ w → c ∈ word ∨ c = 0x178F ∨ c = 0x178A) as Hbase.
  { intros w [->|[[_ ->]|[_ ->]]].
    - split_and!; [done..|]. intros c ?. by left.
    - split_and!; [apply replace_all2_length|apply replace_all2_head|].
      intros c [? | ->]%replace_all2_elem; [by left|by do 2 right].
    - split_and!; [apply replace_all2_length|apply replace_all2_head|].
      intros c [? | ->]%replace_all2_elem; [by left|right; by left]. }
  assert (∀ at_ w, (∀ a b c d, at_ a b c d = true → c = a) → variant_base word w →
            length (regex_swap at_ w) = length word
            ∧ head (regex_swap at_ w) = head word
            ∧ ∀ c, c ∈ regex_swap at_ w → c ∈ word ∨ c = 0x178F ∨ c = 0x178A) as Hswap.
  { intros at_ w Hat (Hlen & Hhead & Helem)%Hbase. split_and!.
    - by rewrite (Permutation_length (regex_swap_perm _ _)).
    - by rewrite regex_swap_head.
    - intros c Hc. apply Helem. by rewrite <-(regex_swap_perm at_ w). }
  intros [[Hi ->]|[[Hi ->]|(w & Hw & [[_ ->]|[_ ->]])]]%generateVariants_elem.
  - apply Hbase. right. by left.
  - apply Hbase. by do 2 right.
  - by apply Hswap; [apply p1_at_heads|].
  - by apply Hswap; [apply p2_at_heads|].
Qed.

Lemma split_on_absent (sep : Z) (s : list Z) :
  sep ∉ s → ∀ part, split_on sep s part = [part ++ s].
Proof.
  induction s as [|c s IH]; intros Hno part; cbn [split_on].
  - by rewrite app_nil_r.
  - apply not_elem_of_cons in Hno as [Hc Hno].
    rewrite (proj2 (Z.eqb_neq c sep)) by done.
    rewrite (IH Hno). by rewrite <-app_assoc.
Qed.

Lemma split_on_app (sep : Z) (s1 s2 : list Z) :
  sep ∉ s1 → ∀ part,
    split_on sep (s1 ++ sep :: s2) part = (part ++ s1) :: split_on sep s2 [].
Proof.
  induction s1 as [|c s1 IH]; intros Hno part; cbn [app split_on].
  - by rewrite Z.eqb_refl, app_nil_r.
  - apply not_elem_of_cons in Hno as [Hc Hno].
    rewrite (proj2 (Z.eqb_neq c sep)) by done.
    rewrite (IH Hno). by rewrite <-app_assoc.
Qed.

Lemma max_length_spec (X : gset (list Z)) :
  (∀ w, w ∈ X → (length w ≤ max_length X)%nat)
  ∧ (X = ∅ → max_length X = O)
  ∧ (X ≠ ∅ → ∃ w, w ∈ X ∧ length w = max_length X).
Proof.
  assert (∀ l : list (list Z),
    let r := foldr (λ w m, if (m <? length w)%nat then length w else m) O l in
    (∀ w, w ∈ l → (length w ≤ r)%nat)
    ∧ (l ≠ [] → ∃ w, w ∈ l ∧ length w = r)) as Hlist.
  { induction l as [|a l [IHle IHat]]; cbn [foldr].
    { split; [|done]. intros w Hin. by apply elem_of_nil in Hin. }
    set (m := foldr _ O l) in *. split.
    - intros w [->|Hin]%elem_of_cons.
      + destruct (m <? length a)%nat eqn:Hlt; [lia|]. apply Nat.ltb_ge in Hlt. lia.
      + apply IHle in Hin. destruct (m <? length a)%nat eqn:Hlt; [|done].
        apply Nat.ltb_lt in Hlt. lia.
    - intros _. destruct (m <? length a)%nat eqn:Hlt.
      + exists a. split; [by left|done].
      + destruct l as [|b l].
        * exists a. split; [by left|]. apply Nat.ltb_ge in Hlt. simpl in *. lia.
        * destruct IHat as (w & Hin & Hlen); [done|]. exists w. split; [by right|done]. }
  unfold max_length, set_fold, compose.
  destruct (Hlist (elements X)) as [Hle Hat]. split_and!.
  - intros w Hin. apply Hle. by apply elem_of_elements.
  - intros ->. by rewrite elements_empty.
  - intros Hne. destruct Hat as (w & Hin & Hlen).
    + intros Hnil. apply Hne. apply leibniz_equiv. by apply elements_empty_inv.
    + exists w. split; [by apply elem_of_elements|done].
Qed.

Section WithTables.
Context `{CostArith, UnicodeTables}.

Lemma dict_add_fold (vs : list (list Z)) :
  ∀ st w, w ∈ (foldl (λ st v, dict_add v st) st vs).1 ↔ w ∈ st.1 ∨ w ∈ vs.
Proof.
  induction vs as [|v vs IH]; intros st w; cbn [foldl].
  - split; [by left|]. intros [?|Hin]; [done|by apply elem_of_nil in Hin].
  - rewrite IH. unfold dict_add. cbn [fst].
    rewrite elem_of_union, elem_of_singleton, elem_of_cons. tauto.
Qed.

Lemma dict_line_elem (st : gset (list Z) * nat) (line w : list Z) :
  w ∈ (dict_line st line).1
  ↔ w ∈ st.1
    ∨ (accepted_word (line_word line) = true
       ∧ (w = line_word line ∨ w ∈ _generateVariants (line_word line))).
Proof.
  unfold dict_line, accepted_word. cbv zeta.
  destruct (line_word line) as [|code rest].
  { split; [by left|]. by intros [?|[? _]]. }
  destruct ((length (code :: rest) =? 1)%nat && negb (_isValidSingleBaseChar code)).
  { split; [by left|]. by intros [?|[? _]]. }
  rewrite dict_add_fold. unfold dict_add. cbn [fst negb].
  rewrite elem_of_union, elem_of_singleton. tauto.
Qed.

Lemma dict_lines_elem (lines : list (list Z)) :
  ∀ st w, w ∈ (foldl dict_line st lines).1
    ↔ w ∈ st.1
      ∨ ∃ line, line ∈ lines ∧ accepted_word (line_word line) = true
          ∧ (w = line_word line ∨ w ∈ _generateVariants (line_word line)).
Proof.
  induction lines as [|l lines IH]; intros st w; cbn [foldl].
  - split; [by left|]. intros [?|(line & Hin & _)]; [done|by apply elem_of_nil in Hin].
  - rewrite IH, dict_line_elem. split.
    + intros [[?|Hacc]|(line & Hin & Hrest)]; [by left| |].
      * right. exists l. split; [by left|done].
      * right. exists line. split; [by right|done].
    + intros [?|(line & Hin & Hrest)]; [by left; left|].
      apply elem_of_cons in Hin as [->|Hin]; [left; by right|].
      right. by exists line.
Qed.

Lemma candidate_wellformed (word w : list Z) :
  accepted_word word = true → w = word ∨ w ∈ _generateVariants word →
  w ≠ [] ∧ ∀ c, w = [c] → _isValidSingleBaseChar c = true.
Proof.
  intros Hacc [->|Hv].
  - destruct word as [|code rest]; [done|]. split; [done|]. intros c [= -> ->].
    unfold accepted_word in Hacc. simpl in Hacc.
    by destruct (_isValidSingleBaseChar c).
  - destruct (decide (length word < 2)%nat) as [Hs|Hl].
    { rewrite generateVariants_short in Hv by done. by apply elem_of_nil in Hv. }
    apply variant_shape in Hv as (Hlen & _).
    split; [intros ->|intros c ->]; simpl in Hlen; lia.
Qed.

(** The words that [_loadDictionary] leaves in the set. *)
Lemma loadDictionary_elem (content : list Z) (sg : t) (w : list Z) :
  content ≠ [] →
  let st := foldl dict_line (words sg, maxWordLength sg) (split_lines content []) in
  w ∈ words (_loadDictionary content sg)
  ↔ w ∈ st.1 ∧ to_remove st.1 w = false ∧ w ≠ [0x17D7].
Proof.
  destruct content as [|c0 content]; [done|]. intros _ st.
  unfold _loadDictionary. cbv zeta. fold st. cbn [words].
  rewrite !elem_of_difference, elem_of_filter, elem_of_singleton.
  destruct (to_remove st.1 w); naive_solver.
Qed.

Lemma loadDictionary_max (content : list Z) (sg : t) :
  content ≠ [] →
  maxWordLength (_loadDictionary content sg)
  = max_length (words (_loadDictionary content sg)).
Proof. by destruct content. Qed.

Lemma loadFrequencies_words (data : option (list (list Z * Z))) (sg : t) :
  words (_loadFrequencies data sg) = words sg
  ∧ maxWordLength (_loadFrequencies data sg) = maxWordLength sg.
Proof.
  unfold _loadFrequencies. destruct data as [entries|]; [|done].
  destruct (freq_loop entries ∅ 0) as [ec total]. by destruct (0 <? total).
Qed.

Lemma to_remove_false (X : gset (list Z)) (w : list Z) :
  to_remove X w = false → 0x17D7 ∉ w ∧ head w ≠ Some 0x17D2.
Proof.
  unfold to_remove.
  intros [[_ Hs]%orb_false_iff Hc]%orb_false_iff. split.
  - intros Hin%includes_single. congruence.
  - intros Hh%starts_with_single. congruence.
Qed.

Lemma to_remove_plain (X : gset (list Z)) (w : list Z) :
  0x17AC ∉ w → 0x17D7 ∉ w → head w ≠ Some 0x17D2 → to_remove X w = false.
Proof.
  intros Hor Hrep Hco. unfold to_remove.
  assert (includes [0x17AC] w = false) as ->.
  { apply not_true_is_false. by intros ?%includes_single. }
  assert (includes [0x17D7] w = false) as ->.
  { apply not_true_is_false. by intros ?%includes_single. }
  assert (starts_with [0x17D2] w = false) as ->.
  { apply not_true_is_false. by intros ?%starts_with_single. }
  done.
Qed.

Section Constructor.
Context `{RegExpEngine} (content : list Z) (frequencyData : option (list (list Z * Z)))
  (rulesData : list RuleBasedEngine.rule_entry).

Local Notation sg := (new_segmenter content frequencyData rulesData).
Local Notation st := (foldl dict_line (∅, O) (split_lines content [])).

Lemma new_segmenter_elem (w : list Z) :
  w ∈ words sg ↔ content ≠ [] ∧ w ∈ st.1 ∧ to_remove st.1 w = false ∧ w ≠ [0x17D7].
Proof.
  unfold new_segmenter. rewrite (proj1 (loadFrequencies_words _ _)).
  destruct (decide (content = [])) as [->|Hne].
  { cbn [_loadDictionary initial_segmenter words]. split; [|by intros [? _]].
    intros Hin. by apply elem_of_empty in Hin. }
  rewrite loadDictionary_elem by done. cbv zeta. cbn [initial_segmenter words maxWordLength].
  tauto.
Qed.

Lemma new_segmenter_max : maxWordLength sg = max_length (words sg).
Proof.
  unfold new_segmenter.
  rewrite (proj1 (loadFrequencies_words _ _)), (proj2 (loadFrequencies_words _ _)).
  destruct content; [|done]. cbn [_loadDictionary initial_segmenter words maxWordLength].
  symmetry. by apply max_length_spec.
Qed.

Lemma candidate_elem (w : list Z) :
  w ∈ st.1 →
  ∃ line, line ∈ split_lines content [] ∧ accepted_word (line_word line) = true
    ∧ (w = line_word line ∨ w ∈ _generateVariants (line_word line)).
Proof.
  rewrite dict_lines_elem. cbn [fst].
  intros [Hin|?]; [by apply elem_of_empty in Hin|done].
Qed.

(** X23: every word of the dictionary of a constructed segmenter is a
    non-empty string without the repetition sign U+17D7 that does not
    start with a coeng U+17D2, and a word of one character is a base
    character (consonant or independent vowel). *)
Theorem dictionary_words_wellformed (w : list Z) :
  let sg := new_segmenter content frequencyData rulesData in
  w ∈ words sg →
  w ≠ [] ∧ 0x17D7 ∉ w ∧ head w ≠ Some 0x17D2
  ∧ ∀ c, w = [c] → _isValidSingleBaseChar c = true.
Proof.
  cbv zeta. intros (_ & Hin & Hrem & _)%new_segmenter_elem.
  apply to_remove_false in Hrem as [Hrep Hco].
  apply candidate_elem in Hin as (line & _ & Hacc & Hw).
  destruct (candidate_wellformed _ _ Hacc Hw) as [Hne Hone]. done.
Qed.

(** X24: [maxWordLength] of a constructed segmenter is the length of
    its longest dictionary word: no word is longer, some word has that
    length, and it is 0 when the dictionary is empty. *)
Theorem maxWordLength_is_longest_word :
  let sg := new_segmenter content frequencyData rulesData in
  (∀ w, w ∈ words sg → (length w ≤ maxWordLength sg)%nat)
  ∧ (words sg = ∅ → maxWordLength sg = O)
  ∧ (words sg ≠ ∅ → ∃ w, w ∈ words sg ∧ length w = maxWordLength sg).
Proof. cbv zeta. rewrite new_segmenter_max. apply max_length_spec. Qed.

(** X25: a line of the dictionary file whose word (trimmed, zero-width
    marks removed) has at least two characters, contains neither U+17AC
    nor U+17D7 and does not start with a coeng is in the dictionary,
    together with all its variants. *)
Theorem dictionary_keeps_plain_lines (line : list Z) :
  let sg := new_segmenter content frequencyData rulesData in
  line ∈ split_lines content [] →
  (2 ≤ length (line_word line))%nat →
  0x17AC ∉ line_word line → 0x17D7 ∉ line_word line →
  head (line_word line) ≠ Some 0x17D2 →
  line_word line ∈ words sg
  ∧ ∀ v, v ∈ _generateVariants (line_word line) → v ∈ words sg.
Proof.
  cbv zeta. intros Hline Hlen Hor Hrep Hco.
  assert (content ≠ []) as Hne.
  { intros ->. cbn [split_lines] in Hline.
    apply elem_of_cons in Hline as [->|Hline]; [|by apply elem_of_nil in Hline].
    assert (line_word [] = []) as Hw by done. rewrite Hw in Hlen. simpl in Hlen. lia. }
  assert (accepted_word (line_word line) = true) as Hacc.
  { unfold accepted_word. destruct (line_word line) as [|c [|d rest]]; simpl in *;
      [lia|lia|done]. }
  assert (∀ v, v = line_word line ∨ v ∈ _generateVariants (line_word line) →
            v ∈ st.1) as Hcand.
  { intros v Hv. rewrite dict_lines_elem. right. by exists line. }
  assert (∀ v, v ∈ _generateVariants (line_word line) →
            0x17AC ∉ v ∧ 0x17D7 ∉ v ∧ head v ≠ Some 0x17D2) as Hvar.
  { intros v (Hl & Hh & Hc)%variant_shape. split_and!.
    - intros [?|[?|?]]%Hc; done.
    - intros [?|[?|?]]%Hc; done.
    - by rewrite Hh. }
  split.
  - apply new_segmenter_elem. split_and!; [done|apply Hcand; by left| |].
    + by apply to_remove_plain.
    + intros Heq. apply Hrep. rewrite Heq. by left.
  - intros v Hv. destruct (Hvar v Hv) as (Hor' & Hrep' & Hco').
    apply new_segmenter_elem. split_and!; [done|apply Hcand; by right| |].
    + by apply to_remove_plain.
    + intros ->. apply Hrep'. by left.
Qed.

(** X26: the dictionary never holds an [or] compound of its own words:
    for dictionary words [w1] and [w2], neither U+17AC followed by
    [w2], nor [w1] followed by U+17AC, nor [w1] U+17AC [w2] is a
    dictionary word (for the last two, when the words themselves do not
    contain U+17AC). *)
Theorem dictionary_drops_or_compounds (w1 w2 : list Z) :
  let sg := new_segmenter content frequencyData rulesData in
  w1 ∈ words sg → w2 ∈ words sg →
  0x17AC :: w2 ∉ words sg
  ∧ (0x17AC ∉ w1 →
     w1 ++ [0x17AC] ∉ words sg
     ∧ (0x17AC ∉ w2 → w1 ++ 0x17AC :: w2 ∉ words sg)).
Proof.
  cbv zeta. intros Hw1 Hw2.
  pose proof Hw1 as (_ & Hin1 & Hrem1 & _)%new_segmenter_elem.
  pose proof Hw2 as (_ & Hin2 & Hrem2 & _)%new_segmenter_elem.
  assert (w1 ≠ []) as Hne1.
  { apply candidate_elem in Hin1 as (line & _ & Hacc & Hw).
    by destruct (candidate_wellformed _ _ Hacc Hw). }
  assert (w2 ≠ []) as Hne2.
  { apply candidate_elem in Hin2 as (line & _ & Hacc & Hw).
    by destruct (candidate_wellformed _ _ Hacc Hw). }
  assert (∀ w, to_remove st.1 w = true → w ∉ words sg) as Hdrop.
  { intros w Hr (_ & _ & Hr' & _)%new_segmenter_elem. congruence. }
  assert (∀ w, 0x17AC ∈ w → includes [0x17AC] w = true) as Hinc.
  { intros w. apply includes_single. }
  split; [|intros Hor1; split; [|intros Hor2]]; apply Hdrop; unfold to_remove.
  - rewrite Hinc by by left.
    replace (Nat.ltb 1 (length (0x17AC :: w2))) with true
      by (symmetry; apply Nat.ltb_lt; destruct w2; [done|simpl; lia]).
    replace (starts_with [0x17AC] (0x17AC :: w2)) with true by done.
    cbn [drop]. by rewrite bool_decide_eq_true_2.
  - rewrite Hinc by (apply elem_of_app; right; by left).
    replace (Nat.ltb 1 (length (w1 ++ [0x17AC]))) with true
      by (symmetry; apply Nat.ltb_lt; rewrite length_app; destruct w1; [done|simpl; lia]).
    replace (starts_with [0x17AC] (w1 ++ [0x17AC])) with false.
    2:{ symmetry. apply not_true_is_false. intros Hh%starts_with_single.
        destruct w1 as [|c w1]; [done|]. injection Hh as ->. apply Hor1. by left. }
    rewrite last_snoc, (bool_decide_eq_true_2 _ eq_refl).
    rewrite length_app, Nat.add_sub, take_app_length. cbn [length].
    by rewrite bool_decide_eq_true_2.
  - rewrite Hinc by (apply elem_of_app; right; by left).
    replace (Nat.ltb 1 (length (w1 ++ 0x17AC :: w2))) with true
      by (symmetry; apply Nat.ltb_lt; rewrite length_app; destruct w1; [done|simpl; lia]).
    replace (starts_with [0x17AC] (w1 ++ 0x17AC :: w2)) with false.
    2:{ symmetry. apply not_true_is_false. intros Hh%starts_with_single.
        destruct w1 as [|c w1]; [done|]. injection Hh as ->. apply Hor1. by left. }
    rewrite bool_decide_eq_false_2.
    2:{ rewrite (last_app_cons w1 w2 0x17AC), last_cons.
        destruct (last w2) as [d|] eqn:Hl; [|by apply last_None in Hl].
        intros [= ->]. apply Hor2. apply last_Some in Hl as [? ->].
        apply elem_of_app. right. by left. }
    rewrite split_on_app by done. rewrite split_on_absent by done. cbn [app forallb].
    by rewrite (bool_decide_eq_true_2 _ Hin1), (bool_decide_eq_true_2 _ Hin2).
Qed.

(** X27: with a constructed segmenter the length limit of the
    dictionary match hides no word from the DP: wherever a dictionary
    word occurs in the text at a position that is not trapped, and the
    cost that [getWordCost] reads for it is a number, the transition
    table holds it with that cost. *)
Theorem dictionary_word_is_transition (text : list Z) (i j : nat) (cur : Z)
    (wordCost : cost) :
  let sg := new_segmenter content frequencyData rulesData in
  text !! i = Some cur → force_repair text i cur = false →
  (i < j ≤ length text)%nat →
  slice text i j ∈ words sg →
  getWordCost sg (slice text i j) = Number wordCost →
  transition sg text i j (λ c, cadd c wordCost).
Proof.
  cbv zeta. intros Hcur Hforce Hj Hword Hcost.
  eapply T_dictionary; [done..| |done|done].
  rewrite new_segmenter_max.
  pose proof (proj1 (max_length_spec (words sg)) _ Hword) as Hle.
  unfold slice in Hle. rewrite length_take, length_drop in Hle. lia.
Qed.
End Constructor.
End WithTables.
End DictionaryExtras.

Section DictionaryWitnesses.
Import KhmerSegmenter IdealCost.

(** Decidable facts about the example dictionary, by evaluation. *)
Local Ltac by_evaluation := apply (bool_decide_unpack _); vm_compute; exact I.

Lemma dictionary_words_wellformed_witness :
  let sg := new_segmenter example_dictionary None [] in
  [0x1798; 0x17D2; 0x178A; 0x17B6] ∈ words sg
  ∧ [0x1798; 0x17D2; 0x178A; 0x17B6] ≠ []
  ∧ 0x17D7 ∉ [0x1798; 0x17D2; 0x178A; 0x17B6]
  ∧ head [0x1798; 0x17D2; 0x178A; 0x17B6] ≠ Some 0x17D2
  ∧ ∀ c, [0x1798; 0x17D2; 0x178A; 0x17B6] = [c] → _isValidSingleBaseChar c = true.
Proof.
  intros sg.
  assert ([0x1798; 0x17D2; 0x178A; 0x17B6] ∈ words sg) as Hin by by_evaluation.
  split; [exact Hin|].
  exact (dictionary_words_wellformed example_dictionary None [] _ Hin).
Defined.

Lemma dictionary_keeps_plain_lines_witness :
  let sg := new_segmenter example_dictionary None [] in
  let line := [0x1798; 0x17D2; 0x178F; 0x17B6] in
  line ∈ split_lines example_dictionary []
  ∧ line_word line ∈ words sg
  ∧ ∀ v, v ∈ _generateVariants (line_word line) → v ∈ words sg.
Proof.
  intros sg line.
  assert (line ∈ split_lines example_dictionary []) as Hline
    by (apply (list_elem_of_lookup_2 _ 1); reflexivity).
  split; [exact Hline|].
  apply (dictionary_keeps_plain_lines example_dictionary None [] line Hline).
  - vm_compute. lia.
  - by_evaluation.
  - by_evaluation.
  - by_evaluation.
Defined.

Lemma dictionary_drops_or_compounds_witness :
  let sg := new_segmenter example_dictionary None [] in
  let w1 := [0x1780; 0x17B6] in
  let w2 := [0x1798; 0x17D2; 0x178F; 0x17B6] in
  w1 ∈ words sg ∧ w2 ∈ words sg ∧ 0x17AC ∉ w1 ∧ 0x17AC ∉ w2
  ∧ 0x17AC :: w2 ∉ words sg
  ∧ w1 ++ [0x17AC] ∉ words sg
  ∧ w1 ++ 0x17AC :: w2 ∉ words sg.
Proof.
  intros sg w1 w2.
  assert (w1 ∈ words sg) as H1 by by_evaluation.
  assert (w2 ∈ words sg) as H2 by by_evaluation.
  assert (0x17AC ∉ w1) as Hor1 by by_evaluation.
  assert (0x17AC ∉ w2) as Hor2 by by_evaluation.
  destruct (dictionary_drops_or_compounds example_dictionary None [] w1 w2 H1 H2)
    as [Ha Hbc].
  destruct (Hbc Hor1) as [Hb Hc].
  split_and!; [exact H1|exact H2|exact Hor1|exact Hor2|exact Ha|exact Hb|exact (Hc Hor2)].
Defined.

Lemma dictionary_word_is_transition_witness :
  let sg := new_segmenter example_dictionary None [] in
  let text := [0x1780; 0x17B6; 0x20] in
  slice text 0 2 ∈ words sg
  ∧ getWordCost sg (slice text 0 2) = Number (clit 10)
  ∧ transition sg text 0 2 (λ c, cadd c (clit 10)).
Proof.
  intros sg text.
  assert (slice text 0 2 ∈ words sg) as Hword by by_evaluation.
  assert (getWordCost sg (slice text 0 2) = Number (clit 10)) as Hcost
    by (vm_compute; reflexivity).
  split; [exact Hword|]. split; [exact Hcost|].
  apply (dictionary_word_is_transition example_dictionary None [] text 0 2 0x1780);
    [reflexivity|reflexivity|simpl; lia|exact Hword|exact Hcost].
Defined.
End DictionaryWitnesses.

(** ** The frequency table *)

Section FrequencyExtras.
Import KhmerSegmenter.
Context `{CostArith, UnicodeTables}.

Lemma obj_set_other {V : Type} (key k : list Z) (v e : V) (m : gmap (list Z) V) :
  k ≠ key → m !! k = Some e → obj_set key v m !! k = Some e.
Proof.
  intros Hne Hk. unfold obj_set. case_bool_decide; [done|].
  rewrite lookup_insert. by case_decide.
Qed.

Lemma obj_set_own {V : Type} (key : list Z) (v : V) (m : gmap (list Z) V) :
  key ≠ units "__proto__" → obj_set key v m !! key = Some v.
Proof.
  intros Hne. unfold obj_set. rewrite bool_decide_eq_false_2 by done.
  rewrite lookup_insert. by case_decide.
Qed.

(** No assignment stores the key [__proto__]. *)
Lemma obj_set_proto {V : Type} (key : list Z) (v : V) (m : gmap (list Z) V) :
  obj_set key v m !! units "__proto__" = m !! units "__proto__".
Proof.
  unfold obj_set. case_bool_decide as Hkey; [done|].
  rewrite lookup_insert. case_decide; [congruence|done].
Qed.

Lemma variants_fold_keeps (vs : list (list Z)) (eff : Z) (k : list Z) (e : Z) :
  ∀ ec : gmap (list Z) Z,
    ec !! k = Some e →
    foldl (λ ec v, if obj_has v ec then ec else obj_set v eff ec) ec vs !! k = Some e.
Proof.
  induction vs as [|v vs IH]; intros ec Hk; cbn [foldl]; [done|].
  apply IH. destruct (obj_has v ec) eqn:Hv; [done|].
  apply obj_set_other; [|done]. intros ->.
  unfold obj_has in Hv. apply orb_false_iff in Hv as [Hown _].
  apply bool_decide_eq_false in Hown. apply Hown. by rewrite Hk.
Qed.

Lemma variants_fold_proto (vs : list (list Z)) (eff : Z) :
  ∀ ec : gmap (list Z) Z,
    foldl (λ ec v, if obj_has v ec then ec else obj_set v eff ec) ec vs
      !! units "__proto__"
    = ec !! units "__proto__".
Proof.
  induction vs as [|v vs IH]; intros ec; cbn [foldl]; [done|].
  rewrite IH. destruct (obj_has v ec); [done|apply obj_set_proto].
Qed.

(** An entry of the table is only ever overwritten by a key of the
    frequency map. *)
Lemma freq_loop_keeps (entries : list (list Z * Z)) (k : list Z) (e : Z) :
  k ∉ (λ en, KhmerNormalizer.strip_zero_width en.1) <$> entries →
  ∀ ec total, ec !! k = Some e → (freq_loop entries ec total).1 !! k = Some e.
Proof.
  induction entries as [|[w0 c0] entries IH]; intros Hk ec total He; [done|].
  cbn [freq_loop]. cbv zeta. rewrite fmap_cons in Hk.
  apply not_elem_of_cons in Hk as [Hne Hk]. cbn [fst] in Hne.
  apply IH; [done|]. apply variants_fold_keeps. by apply obj_set_other.
Qed.

Lemma freq_loop_own (entries : list (list Z * Z)) (w0 : list Z) (c : Z) :
  NoDup ((λ en, KhmerNormalizer.strip_zero_width en.1) <$> entries) →
  (w0, c) ∈ entries →
  KhmerNormalizer.strip_zero_width w0 ≠ units "__proto__" →
  ∀ ec total,
    (freq_loop entries ec total).1 !! KhmerNormalizer.strip_zero_width w0
    = Some (Z.max c 5).
Proof.
  induction entries as [|[w1 c1] entries IH]; intros Hnd Hin Hkey ec total.
  { by apply elem_of_nil in Hin. }
  rewrite fmap_cons in Hnd. apply NoDup_cons in Hnd as [Hfresh Hnd]. cbn [fst] in Hfresh.
  apply elem_of_cons in Hin as [[= -> ->]|Hin]; [|by apply IH].
  cbn [freq_loop]. cbv zeta. apply freq_loop_keeps; [done|].
  apply variants_fold_keeps. by apply obj_set_own.
Qed.

Lemma freq_loop_proto (entries : list (list Z * Z)) :
  ∀ ec total,
    (freq_loop entries ec total).1 !! units "__proto__" = ec !! units "__proto__".
Proof.
  induction entries as [|[w0 c0] entries IH]; intros ec total; [done|].
  cbn [freq_loop]. cbv zeta. by rewrite IH, variants_fold_proto, obj_set_proto.
Qed.

(** X28: when the keys of the frequency map stay distinct once their
    zero-width marks are removed, every key other than [__proto__] gets
    the cost of its own count, [-log10(max(count, 5) / T)] with [T] the
    sum of the effective counts, also if it is a variant of another key:
    a count inherited from a variant never replaces a count of the map.
    The key [__proto__] gets no entry: the assignment to it stores
    nothing. *)
Theorem loadFrequencies_own_count (entries : list (list Z * Z)) (sg : t)
    (w0 : list Z) (c : Z) :
  NoDup ((λ en, KhmerNormalizer.strip_zero_width en.1) <$> entries) →
  (w0, c) ∈ entries →
  KhmerNormalizer.strip_zero_width w0 ≠ units "__proto__" →
  (freq_loop entries ∅ 0).1 !! KhmerNormalizer.strip_zero_width w0 = Some (Z.max c 5)
  ∧ getWordCost (_loadFrequencies (Some entries) sg) (KhmerNormalizer.strip_zero_width w0)
    = Number (neg_log10 (prob (Z.max c 5) (sum_eff entries)))
  ∧ (freq_loop entries ∅ 0).1 !! units "__proto__" = None.
Proof.
  intros Hnd Hin Hkey. pose proof (freq_loop_own entries w0 c Hnd Hin Hkey ∅ 0) as Hown.
  split; [done|]. split; [|by rewrite freq_loop_proto].
  pose proof (freq_loop_total entries ∅ 0) as HT.
  unfold getWordCost, obj_has, _loadFrequencies.
  destruct (freq_loop entries ∅ 0) as [table T] eqn:Hfl. cbn [fst snd] in *.
  assert (T = sum_eff entries) as -> by lia.
  assert (0 < sum_eff entries) as HTpos.
  { apply sum_eff_pos. intros ->. by apply elem_of_nil in Hin. }
  replace (0 <? sum_eff entries) with true by (symmetry; by apply Z.ltb_lt).
  cbn [wordCosts].
  erewrite lookup_union_Some_l.
  2:{ rewrite lookup_omap, Hown. cbn [mbind option_bind].
      destruct (Qlt_le_dec 0 (prob (Z.max c 5) (sum_eff entries))) as [|Hle]; [done|].
      exfalso. eapply Qlt_not_le; [|exact Hle]. apply prob_pos; lia. }
  by rewrite bool_decide_eq_true_2 by done.
Qed.
End FrequencyExtras.

Section FrequencyWitness.
Import KhmerSegmenter IdealCost.

Lemma loadFrequencies_own_count_witness :
  NoDup ((λ en, KhmerNormalizer.strip_zero_width en.1) <$> freq_example_pair)
  ∧ (freq_loop freq_example_pair ∅ 0).1 !! [0x1780; 0x17D2; 0x178A] = Some 7
  ∧ getWordCost (_loadFrequencies (Some freq_example_pair) example_segmenter)
      [0x1780; 0x17D2; 0x178A]
    = Number (neg_log10 (prob 7 17))
  ∧ (freq_loop freq_example_pair ∅ 0).1 !! units "__proto__" = None.
Proof.
  assert (NoDup ((λ en, KhmerNormalizer.strip_zero_width en.1) <$> freq_example_pair))
    as Hnd by (apply (bool_decide_unpack _); vm_compute; exact I).
  split; [exact Hnd|].
  apply (loadFrequencies_own_count freq_example_pair example_segmenter
           [0x1780; 0x17D2; 0x178A] 7 Hnd).
  - apply (list_elem_of_lookup_2 _ 1). reflexivity.
  - vm_compute. discriminate.
Defined.
End FrequencyWitness.

(** ** Zero-width marks never reach a token *)

Section ZeroWidthExtras.
Import KhmerSegmenter.
Context `{CostArith, UnicodeTables} (sg : t).

(** X29: the normalized text holds no zero-width mark U+200B, U+200C
    or U+200D, and so no token that [segment] returns holds one, with
    or without post-processing. *)
Theorem segment_tokens_without_zero_width (x : list Z) (disablePostProcessing : bool)
    (extra : nat) :
  zero_width_free (KhmerNormalizer.normalize x) = true
  ∧ ∃ toks,
      segment sg (2 * length (KhmerNormalizer.normalize x) + extra) x disablePostProcessing
      = Some toks
      ∧ Forall (λ tok, zero_width_free tok = true) toks.
Proof.
  pose proof (normalize_zero_width_free x) as Hfree. split; [done|].
  destruct (segment_cover sg x disablePostProcessing extra) as (toks & Htoks & Hjoin & _).
  exists toks. split; [done|]. rewrite <-Hjoin in Hfree. clear Hjoin Htoks.
  apply zero_width_free_Forall in Hfree.
  induction toks as [|tok toks IH]; [constructor|].
  unfold join in Hfree. simpl in Hfree. apply Forall_app in Hfree as [Htok Hrest].
  constructor; [by apply zero_width_free_Forall|by apply IH].
Qed.
End ZeroWidthExtras.
